(** * gopy: the tokenizer, the Pratt parser and the evaluator, embedded and
    checked

    A shallow embedding of the packages [lexer], [ast], [parser],
    [interpreter], [evaluator] and [repl] of gopy, followed by the properties
    its specification states and by further properties of the code.

    Conventions of the embedding:
    - a Go [string] is a sequence of bytes: Rocq's [string] (a list of
      8-bit [ascii]); [rune(s[i])] therefore ranges over Latin-1;
    - Go's [int] counters (line, column, indentation depth) are [Z], the
      cursors into a string or a slice are [nat]; every counter is bounded by
      a small multiple of the input length, so no wrap-around is reachable;
    - a run-time panic (index out of range) is the result [Panic];
    - loops and the recursion of the parser are driven by a [nat] budget; the
      result [OutOfFuel] marks an exhausted budget and is shown unreachable
      for the budgets the entry points use. *)

From Stdlib Require Import ZArith List String Ascii Bool Arith Lia.
Import ListNotations.

Set Warnings "-register-all,-notation-for-abbreviation".

Open Scope string_scope.
Open Scope list_scope.

(** ** Results of fallible code *)

Inductive Res (A : Type) : Type :=
| Ok (a : A)
| Panic
| OutOfFuel.
Arguments Ok {A} a.
Arguments Panic {A}.
Arguments OutOfFuel {A}.

Definition res_bind {A B} (r : Res A) (k : A -> Res B) : Res B :=
  match r with
  | Ok a => k a
  | Panic => Panic
  | OutOfFuel => OutOfFuel
  end.

Notation "'let?' x ':=' r 'in' k" := (res_bind r (fun x => k))
  (at level 10, x pattern, r at level 100, k at level 200).

(** ** Go library functions used by the front end *)

Module golib.

(** The characters the sources name by escape sequences. *)
Definition chr_nl : ascii := "010"%char.
Definition chr_tab : ascii := "009"%char.
Definition chr_dquote : ascii := "034"%char.

Definition code (c : ascii) : N := N_of_ascii c.

Definition between (lo hi : N) (c : ascii) : bool :=
  (lo <=? code c)%N && (code c <=? hi)%N.

(** [unicode.IsSpace], [unicode.IsDigit] and [unicode.IsLetter] on the
    Latin-1 range (the runes here all come from single bytes). *)
Definition IsSpace (c : ascii) : bool :=
  between 9 13 c || (code c =? 32)%N || (code c =? 133)%N || (code c =? 160)%N.

Definition IsDigit (c : ascii) : bool := between 48 57 c.

Definition IsLetter (c : ascii) : bool :=
  between 65 90 c || between 97 122 c
  || (code c =? 170)%N || (code c =? 181)%N || (code c =? 186)%N
  || between 192 214 c || between 216 246 c || between 248 255 c.

(** [string(r)] for a rune below 256: its UTF-8 encoding. *)
Definition string_of_rune (c : ascii) : string :=
  if (code c <? 128)%N then String c EmptyString
  else String (ascii_of_N (192 + code c / 64))
         (String (ascii_of_N (128 + code c mod 64)) EmptyString).

(** [s[lo:hi]]; panics unless [lo <= hi <= len(s)]. *)
Definition slice (s : string) (lo hi : nat) : Res string :=
  if (lo <=? hi)%nat && (hi <=? String.length s)%nat
  then Ok (substring lo (hi - lo) s)
  else Panic.

(** [s[i]]. *)
Definition byte_at (s : string) (i : nat) : Res ascii :=
  match String.get i s with
  | Some c => Ok c
  | None => Panic
  end.

(** [strings.ReplaceAll(s, "    ", "\t")]: non-overlapping runs of four
    spaces, left to right. *)
Fixpoint ReplaceAll_4sp_tab (s : string) : string :=
  match s with
  | String c0 (String c1 (String c2 (String c3 r)) as t) =>
      if Ascii.eqb c0 " " && Ascii.eqb c1 " " && Ascii.eqb c2 " " && Ascii.eqb c3 " "
      then String chr_tab (ReplaceAll_4sp_tab r)
      else String c0 (ReplaceAll_4sp_tab t)
  | String c0 t => String c0 (ReplaceAll_4sp_tab t)
  | EmptyString => EmptyString
  end.

(** Decimal digits of a non-negative number, most significant first. The
    budget bounds the number of digits; 20 covers every 64-bit value. *)
Fixpoint decimal (fuel : nat) (n : Z) : string :=
  match fuel with
  | O => EmptyString
  | S fuel' =>
      let d := String (ascii_of_N (48 + Z.to_N (n mod 10))) EmptyString in
      if (n <? 10)%Z then d else decimal fuel' (n / 10) ++ d
  end.

(** [strconv.Itoa(int(v))] on a 64-bit platform; also the [%d] verb. *)
Definition Itoa (v : Z) : string :=
  if (v <? 0)%Z then "-" ++ decimal 20 (- v) else decimal 20 v.

Definition maxUint64 : Z := 18446744073709551615.

Definition lower (c : ascii) : ascii := ascii_of_N (N.lor (code c) 32).

(** The digit loop of [strconv.ParseUint] for [bitSize = 64], on unsigned
    64-bit arithmetic: [None] is a syntax error, [Some (n, true)] a range
    error. *)
Fixpoint parse_digits (base0 : bool) (base : Z) (s : string) (n : Z)
  : option (Z * bool) :=
  match s with
  | EmptyString => Some (n, false)
  | String c r =>
      if Ascii.eqb c "_" && base0 then parse_digits base0 base r n
      else
        let d :=
          if between 48 57 c then Some (Z.of_N (code c) - 48)%Z
          else if between 97 122 (lower c)
               then Some (Z.of_N (code (lower c)) - 97 + 10)%Z
               else None in
        match d with
        | None => None
        | Some d =>
            if (d >=? base)%Z then None
            else if (n >=? maxUint64 / base + 1)%Z then Some (maxUint64, true)
            else
              let n' := ((n * base) mod 2 ^ 64)%Z in
              let n1 := ((n' + d) mod 2 ^ 64)%Z in
              if (n1 <? n')%Z || (n1 >? maxUint64)%Z then Some (maxUint64, true)
              else parse_digits base0 base r n1
        end
  end.

(** [underscoreOK] of strconv: an underscore must follow a digit (or the
    base prefix) and be followed by a digit. *)
Fixpoint underscoreOK_loop (hex : bool) (s : string) (i : ascii) : bool :=
  match s with
  | EmptyString => negb (Ascii.eqb i "_")
  | String c r =>
      if between 48 57 c || (hex && between 97 102 (lower c))
      then underscoreOK_loop hex r "0"
      else if Ascii.eqb c "_"
           then (if Ascii.eqb i "0" then underscoreOK_loop hex r "_" else false)
           else (if Ascii.eqb i "_" then false else underscoreOK_loop hex r "!")
  end.

Definition underscoreOK (s : string) : bool :=
  let s1 :=
    match s with
    | String c r => if Ascii.eqb c "-" || Ascii.eqb c "+" then r else s
    | EmptyString => s
    end in
  match s1 with
  | String c0 (String c1 r) =>
      if Ascii.eqb c0 "0"
         && (Ascii.eqb (lower c1) "b" || Ascii.eqb (lower c1) "o"
             || Ascii.eqb (lower c1) "x")
      then underscoreOK_loop (Ascii.eqb (lower c1) "x") r "0"
      else underscoreOK_loop false s1 "^"
  | _ => underscoreOK_loop false s1 "^"
  end.

Definition has_underscore (s : string) : bool :=
  existsb (Ascii.eqb "_") (list_ascii_of_string s).

(** [strconv.ParseUint(s, 0, 64)]. *)
Definition ParseUint0 (s : string) : option (Z * bool) :=
  match s with
  | EmptyString => None
  | String c0 r0 =>
      let '(base, body) :=
        if Ascii.eqb c0 "0" then
          match r0 with
          | String c1 (String c2 r2) =>
              if Ascii.eqb (lower c1) "b" then (2%Z, String c2 r2)
              else if Ascii.eqb (lower c1) "o" then (8%Z, String c2 r2)
              else if Ascii.eqb (lower c1) "x" then (16%Z, String c2 r2)
              else (8%Z, r0)
          | _ => (8%Z, r0)
          end
        else (10%Z, s) in
      match parse_digits true base body 0 with
      | None => None
      | Some (n, true) => Some (n, true)
      | Some (n, false) =>
          if has_underscore body && negb (underscoreOK s)
          then None
          else Some (n, false)
      end
  end.

(** [strconv.ParseInt(s, 0, 64)]: [None] when [err != nil]. *)
Definition ParseInt0 (s : string) : option Z :=
  match s with
  | EmptyString => None
  | String c r =>
      let neg := Ascii.eqb c "-" in
      let body := if Ascii.eqb c "+" || neg then r else s in
      match ParseUint0 body with
      | None => None
      | Some (_, true) => None
      | Some (un, false) =>
          let cutoff := 9223372036854775808%Z in
          if negb neg && (un >=? cutoff)%Z then None
          else if neg && (un >? cutoff)%Z then None
          else Some (if neg then (- un)%Z else un)
      end
  end.

End golib.

(** ** Package lexer *)

Module lexer.
Import golib.

Definition TokenType := string.

Definition ILLEGAL : TokenType := "ILLEGAL".
Definition EOF : TokenType := "EOF".
Definition NL : TokenType := "NEWLINE".
Definition IDENT : TokenType := "IDENT".
Definition IF : TokenType := "IF".
Definition ELIF : TokenType := "ELIF".
Definition ELSE : TokenType := "ELSE".
Definition WHILE : TokenType := "WHILE".
Definition FOR : TokenType := "FOR".
Definition IN : TokenType := "IN".
Definition PRINT : TokenType := "PRINT".
Definition INT : TokenType := "INT".
Definition STR : TokenType := "STR".
Definition AND : TokenType := "AND".
Definition OR : TokenType := "OR".
Definition STRING : TokenType := "STRING".
Definition NUM : TokenType := "NUM".
Definition LEFTPAREN : TokenType := "(".
Definition RIGHTPAREN : TokenType := ")".
Definition COLON : TokenType := ":".
Definition EQUALS : TokenType := "=".
Definition COMMA : TokenType := ",".
Definition INDENT : TokenType := "INDENT".
Definition ADD : TokenType := "+".
Definition SUB : TokenType := "-".
Definition MULT : TokenType := "*".
Definition DIV : TokenType := "/".
Definition MOD : TokenType := "%".
Definition POW : TokenType := "^".
Definition NOT : TokenType := "!".
Definition ADDEQ : TokenType := "+=".
Definition SUBEQ : TokenType := "-=".
Definition MULTEQ : TokenType := "*=".
Definition DIVEQ : TokenType := "/=".
Definition MODEQ : TokenType := "%=".
Definition POWEQ : TokenType := "^=".
Definition LESS : TokenType := "<".
Definition LESSEQ : TokenType := "<=".
Definition GREAT : TokenType := ">".
Definition GREATEQ : TokenType := ">=".
Definition EQ : TokenType := "==".
Definition NOTEQ : TokenType := "!=".

(** [tokenKey]: an [int]; the lexer also stores [-1] in it. *)
Definition tokenKey := Z.
Definition TokenKeyword : tokenKey := 1%Z.
Definition TokenPunct : tokenKey := 2%Z.
Definition TokenIdent : tokenKey := 3%Z.
Definition TokenInt : tokenKey := 4%Z.
Definition TokenString : tokenKey := 5%Z.

Record tokenPos : Type := mkPos { row : Z; col : Z }.

Record Token : Type := mkToken { Name : TokenType; Val : string; Pos : tokenPos }.

(** A token written on one line. *)
Definition tok (name : TokenType) (val : string) (r c : Z) : Token :=
  mkToken name val (mkPos r c).

(** [Token{}], the zero value. *)
Definition zeroToken : Token := mkToken "" "" (mkPos 0 0).

Definition GetPosition (t : Token) : string :=
  "line " ++ Itoa (row (Pos t)) ++ ", column " ++ Itoa (col (Pos t)).

Definition GetCol (t : Token) : Z := col (Pos t).

Record Lexer : Type := mkLexer {
  index : nat;
  input : string;
  line : Z;
  column : Z;
  current : ascii;
  currentType : tokenKey;
  tokens : list Token
}.

Definition set_index (l : Lexer) (i : nat) : Lexer :=
  mkLexer i (input l) (line l) (column l) (current l) (currentType l) (tokens l).
Definition set_line (l : Lexer) (n : Z) : Lexer :=
  mkLexer (index l) (input l) n (column l) (current l) (currentType l) (tokens l).
Definition set_column (l : Lexer) (n : Z) : Lexer :=
  mkLexer (index l) (input l) (line l) n (current l) (currentType l) (tokens l).
Definition set_current (l : Lexer) (c : ascii) : Lexer :=
  mkLexer (index l) (input l) (line l) (column l) c (currentType l) (tokens l).
Definition set_currentType (l : Lexer) (k : tokenKey) : Lexer :=
  mkLexer (index l) (input l) (line l) (column l) (current l) k (tokens l).
Definition set_tokens (l : Lexer) (ts : list Token) : Lexer :=
  mkLexer (index l) (input l) (line l) (column l) (current l) (currentType l) ts.

(** [l.tokens = append(l.tokens, tok)]. *)
Definition push (l : Lexer) (tok : Token) : Lexer :=
  set_tokens l (tokens l ++ [tok]).

Definition here (l : Lexer) : tokenPos := mkPos (line l) (column l).

(** [peek]: the byte after the cursor, or the error flag at the last byte. *)
Definition peek (l : Lexer) : Res (ascii * bool) :=
  if (index l + 1 =? String.length (input l))%nat
  then Ok (" "%char, true)
  else let? c := byte_at (input l) (index l + 1) in Ok (c, false).

Definition lexTab (l : Lexer) : Lexer :=
  let tok := mkToken INDENT INDENT (here l) in
  push (set_column l (column l + 3)) tok.

Definition lexPunct (name : TokenType) (val : string) (l : Lexer) : Lexer :=
  let l := set_currentType l TokenPunct in
  push l (mkToken name val (here l)).

Definition reserved : list string :=
  ["if"; "elif"; "else"; "while"; "for"; "in"; "print"; "int"; "str"; "and"; "or"].

(** The [switch tok.Val] inside the keyword loop of [lexText]. *)
Definition keywordName (v : string) (dflt : TokenType) : TokenType :=
  if v =? "if" then IF
  else if v =? "elif" then ELIF
  else if v =? "else" then ELSE
  else if v =? "while" then WHILE
  else if v =? "for" then FOR
  else if v =? "in" then IN
  else if v =? "print" then PRINT
  else if v =? "int" then INT
  else if v =? "str" then STR
  else if v =? "and" then AND
  else if v =? "or" then OR
  else dflt.

(** The loop [for _, keyword := range reserved] of [lexText]. *)
Definition classify (tok : Token) : Token :=
  fold_left
    (fun t keyword =>
       if Val t =? keyword
       then mkToken (keywordName (Val t) (Name t)) (Val t) (Pos t)
       else t)
    reserved tok.

(** [tok = l.tokens[len(l.tokens)-1]; l.tokens = l.tokens[:len(l.tokens)-1]];
    panics on an empty slice. *)
Definition pop (l : Lexer) : Res (Token * Lexer) :=
  match tokens l with
  | [] => Panic
  | _ :: _ => Ok (last (tokens l) zeroToken, set_tokens l (removelast (tokens l)))
  end.

Definition lexText (val : string) (l : Lexer) : Res Lexer :=
  let? (tok, l) :=
    if (currentType l =? TokenKeyword)%Z then
      let l := set_currentType l TokenIdent in
      let? (tok, l) := pop l in
      Ok (mkToken IDENT (Val tok ++ val) (Pos tok), l)
    else if (currentType l =? TokenIdent)%Z then
      let? (tok, l) := pop l in
      Ok (mkToken (Name tok) (Val tok ++ val) (Pos tok), l)
    else
      let l := set_currentType l TokenIdent in
      Ok (mkToken IDENT val (here l), l) in
  Ok (push l (classify tok)).

(** The loop of [lexString], which runs until [next] is the closing quote. *)
Fixpoint lexString_loop (fuel : nat) (next : ascii) (l : Lexer) : Res Lexer :=
  if Ascii.eqb next chr_dquote then Ok l
  else
    match fuel with
    | O => OutOfFuel
    | S fuel' =>
        let l := set_index l (index l + 1) in
        let? (next, err) := peek l in
        if err then Ok l else lexString_loop fuel' next l
    end.

Definition lexString (l : Lexer) : Res Lexer :=
  let l := set_index l (index l + 1) in
  let start := index l in
  let l := set_currentType l TokenString in
  let? (next, err) := peek l in
  if err then Ok (push l (mkToken ILLEGAL "" (here l)))
  else
    let? l := lexString_loop (String.length (input l)) next l in
    let? val := slice (input l) start (index l + 1) in
    let l := push l (mkToken STRING val (here l)) in
    Ok (set_index l (index l + 1)).

(** The loop [for unicode.IsDigit(next)] of [lexInt]. *)
Fixpoint lexInt_loop (fuel : nat) (next : ascii) (l : Lexer) : Res Lexer :=
  if IsDigit next then
    match fuel with
    | O => OutOfFuel
    | S fuel' =>
        let l := set_index l (index l + 1) in
        let? (next, err) := peek l in
        if err then Ok l else lexInt_loop fuel' next l
    end
  else Ok l.

Definition lexInt (l : Lexer) : Res Lexer :=
  let start := index l in
  let l := set_currentType l TokenInt in
  let? (next, err) := peek l in
  if err then
    let? c := byte_at (input l) start in
    Ok (push l (mkToken NUM (string_of_rune c) (here l)))
  else
    let? l := lexInt_loop (String.length (input l)) next l in
    let? val := slice (input l) start (index l + 1) in
    Ok (push l (mkToken NUM val (here l))).

Definition lexNL (l : Lexer) : Lexer :=
  push l (mkToken NL NL (here l)).

(** The loop of [nextLine]. *)
Fixpoint nextLine_loop (fuel : nat) (l : Lexer) : Res Lexer :=
  let? c := byte_at (input l) (index l) in
  if negb (Ascii.eqb c chr_nl) && (Z.of_nat (index l) <? Z.of_nat (String.length (input l)) - 1)%Z
  then
    match fuel with
    | O => OutOfFuel
    | S fuel' => nextLine_loop fuel' (set_index l (index l + 1))
    end
  else Ok l.

Definition nextLine (l : Lexer) : Res Lexer :=
  let l := set_line l (line l + 1) in
  let l := set_column l 0 in
  let l := set_currentType l (-1)%Z in
  nextLine_loop (String.length (input l)) l.

(** The cases of [lex] that look one byte ahead for ['=']: [advance] tells
    whether the case steps over the second byte (every case but ['!']). *)
Definition lexCompound (two : TokenType) (twoVal : string) (advance : bool)
                       (one : TokenType) (oneVal : string) (l : Lexer) : Res Lexer :=
  let? (nextChar, err) := peek l in
  if Ascii.eqb nextChar "=" && negb err then
    let l := lexPunct two twoVal l in
    if advance then Ok (set_column (set_index l (index l + 1)) (column l + 1))
    else Ok l
  else Ok (lexPunct one oneVal l).

(** One iteration of the loop of [lex]. *)
Definition lex_body (l : Lexer) : Res Lexer :=
  let? c := byte_at (input l) (index l) in
  let l := set_current l c in
  let? l :=
    if Ascii.eqb c chr_nl then nextLine (lexNL l)
    else if Ascii.eqb c chr_tab then Ok (lexTab l)
    else if Ascii.eqb c "=" then lexCompound EQ "==" true EQUALS "=" l
    else if Ascii.eqb c "<" then lexCompound LESSEQ "<=" true LESS "<" l
    else if Ascii.eqb c ">" then lexCompound GREATEQ ">=" true GREAT ">" l
    else if Ascii.eqb c "!" then lexCompound NOTEQ "!=" false NOT "!" l
    else if Ascii.eqb c ":" then Ok (lexPunct COLON ":" l)
    else if Ascii.eqb c "(" then Ok (lexPunct LEFTPAREN "(" l)
    else if Ascii.eqb c ")" then Ok (lexPunct RIGHTPAREN ")" l)
    else if Ascii.eqb c "+" then lexCompound ADDEQ "+=" true ADD "+" l
    else if Ascii.eqb c "-" then lexCompound SUBEQ "-=" true SUB "-" l
    else if Ascii.eqb c "*" then lexCompound MULTEQ "*=" true MULT "*" l
    else if Ascii.eqb c "/" then lexCompound DIVEQ "/=" true DIV "/" l
    else if Ascii.eqb c "^" then lexCompound POWEQ "^=" true POW "^" l
    else if Ascii.eqb c "%" then lexCompound MODEQ "%=" true MOD "%" l
    else if Ascii.eqb c "," then Ok (lexPunct COMMA "," l)
    else if Ascii.eqb c chr_dquote then lexString l
    else if IsSpace c then Ok (set_currentType l (-1)%Z)
    else if Ascii.eqb c chr_nl || Ascii.eqb c "#" then nextLine l
    else if IsDigit c then
      if (currentType l =? TokenIdent)%Z || (currentType l =? TokenKeyword)%Z
      then lexText (string_of_rune c) l
      else lexInt l
    else if IsLetter c || Ascii.eqb c "_" then lexText (string_of_rune c) l
    else Ok (push l (mkToken ILLEGAL "nil" (mkPos 0 0))) in
  Ok (set_column (set_index l (index l + 1)) (column l + 1)).

(** [lex]: [for ok := true; ok; ok = l.index < len(l.input)], the body runs
    before the first test. *)
Fixpoint lex_loop (fuel : nat) (l : Lexer) : Res Lexer :=
  match fuel with
  | O => OutOfFuel
  | S fuel' =>
      let? l := lex_body l in
      if (index l <? String.length (input l))%nat then lex_loop fuel' l else Ok l
  end.

Definition initLexer (input : string) : Lexer :=
  mkLexer 0 input 1 0 " "%char 0%Z [].

Definition eofToken (l : Lexer) : Token := mkToken EOF "" (mkPos (line l + 1) 0).

(** [StartLex] with an explicit budget for the loop of [lex]. *)
Definition StartLex_fuel (fuel : nat) (input : string) : Res (list Token) :=
  let? l := lex_loop fuel (initLexer input) in
  Ok (tokens (push l (eofToken l))).

(** [StartLex]: every iteration of [lex] moves the cursor forward, so a
    budget of one iteration per byte (and one for the first, untested,
    iteration) is never exhausted. *)
Definition StartLex (input : string) : Res (list Token) :=
  StartLex_fuel (S (String.length input)) input.

End lexer.

(** ** Package ast *)

Module ast.
Import golib.

Record Identifier : Type := mkIdentifier { IdToken : lexer.Token; IdVal : string }.

(** The node families. A field of interface type [Expr] may hold [nil]:
    it is an [option]. [Args] is a slice, [nil] and empty alike are [[]].
    [VarStmt_nil] is a nil [*VarStmt] stored in a [Stmt] interface. *)
Inductive Expr : Type :=
| EIdentifier (i : Identifier)
| IntLiteral (Token : lexer.Token) (Value : Z)
| StrLiteral (Token : lexer.Token) (Value : string)
| PrefixExpr (Token : lexer.Token) (Op : string) (Expr_ : option Expr)
| InfixExpr (Token : lexer.Token) (Left : option Expr) (Op : string)
            (Right : option Expr)
| IfExpr (Token : lexer.Token) (Cond : option Expr) (Pass : BlockStmt)
         (Fail : option BlockStmt)
| CallExpr (Token : lexer.Token) (Func : option Expr) (Args : list (option Expr))
| WhileExpr (Token : lexer.Token) (Cond : option Expr) (Body : BlockStmt)
with Stmt : Type :=
| VarStmt (Token : lexer.Token) (Ident : Identifier) (Value : option Expr)
| VarStmt_nil
| ExprStmt (Token : lexer.Token) (Expr_ : option Expr)
with BlockStmt : Type :=
| mkBlockStmt (Token : lexer.Token) (Stmts : list Stmt).

Definition Program := list Stmt.

(** [strings.Join(args, ", ")]. *)
Fixpoint join (l : list string) (sep : string) : string :=
  match l with
  | [] => ""
  | [x] => x
  | x :: r => x ++ sep ++ join r sep
  end.

(** The [String()] methods. Calling one through a nil interface or a nil
    pointer panics. *)
Fixpoint Expr_String (e : Expr) : Res string :=
  let opt_String (o : option Expr) : Res string :=
    match o with
    | Some e' => Expr_String e'
    | None => Panic
    end in
  match e with
  | EIdentifier i => Ok (IdVal i)
  | IntLiteral _ v => Ok (Itoa v)
  | StrLiteral _ v => Ok v
  | PrefixExpr _ op x =>
      let? sx := opt_String x in
      Ok ("(" ++ op ++ sx ++ ")")%string
  | InfixExpr _ l op r =>
      let? sl := opt_String l in
      let? sr := opt_String r in
      Ok ("(" ++ sl ++ (" " ++ op ++ " ") ++ sr ++ ")")%string
  | IfExpr _ c pass fail =>
      let? sc := opt_String c in
      let? sp := BlockStmt_String pass in
      match fail with
      | Some f =>
          let? sf := BlockStmt_String f in
          Ok ("if" ++ sc ++ " : " ++ sp ++ " else: " ++ sf)%string
      | None => Ok ("if" ++ sc ++ " : " ++ sp)%string
      end
  | CallExpr _ f args =>
      let? sargs :=
        (fix go (l : list (option Expr)) : Res (list string) :=
           match l with
           | [] => Ok []
           | a :: r =>
               let? sa := opt_String a in
               let? sr := go r in
               Ok (sa :: sr)
           end) args in
      let? sf := opt_String f in
      Ok (sf ++ "(" ++ join sargs ", " ++ ")")%string
  | WhileExpr t c _ =>
      let? sc := opt_String c in
      Ok (lexer.Val t ++ "(" ++ sc ++ ")")%string
  end
with Stmt_String (s : Stmt) : Res string :=
  match s with
  | VarStmt t i v =>
      match v with
      | Some e =>
          let? se := Expr_String e in
          Ok ((lexer.Val t ++ " ") ++ IdVal i ++ " = " ++ se)%string
      | None => Ok ((lexer.Val t ++ " ") ++ IdVal i ++ " = ")%string
      end
  | VarStmt_nil => Panic
  | ExprStmt _ e =>
      match e with
      | Some e' => Expr_String e'
      | None => Ok ""
      end
  end
with BlockStmt_String (b : BlockStmt) : Res string :=
  match b with
  | mkBlockStmt _ stmts =>
      (fix go (l : list Stmt) : Res string :=
         match l with
         | [] => Ok ""
         | s :: r =>
             let? ss := Stmt_String s in
             let? sr := go r in
             Ok (ss ++ sr)%string
         end) stmts
  end.

(** [Program.String()]. *)
Fixpoint Program_String (p : Program) : Res string :=
  match p with
  | [] => Ok ""
  | s :: r =>
      let? ss := Stmt_String s in
      let? sr := Program_String r in
      Ok (ss ++ sr)%string
  end.

End ast.

(** ** Package parser *)

Module parser.
Import golib.

(** Precedence levels ([iota] constants, from 1). *)
Definition LOWEST : Z := 1.
Definition EQUALS : Z := 2.
Definition GTLT : Z := 3.
Definition SUM : Z := 4.
Definition PRODUCT : Z := 5.
Definition PREFIX : Z := 6.
Definition CALL : Z := 7.
Definition AND : Z := 8.

(** A Go map keyed by token kind: the latest binding of a key wins. *)
Definition TokenMap (V : Type) := list (lexer.TokenType * V).

Fixpoint map_get {V} (m : TokenMap V) (k : lexer.TokenType) : option V :=
  match m with
  | [] => None
  | (k', v) :: r => if (k' =? k)%string then Some v else map_get r k
  end.

Definition map_set {V} (m : TokenMap V) (k : lexer.TokenType) (v : V) : TokenMap V :=
  (k, v) :: m.

Definition precedence : TokenMap Z :=
  [ (lexer.EQ, EQUALS); (lexer.NOTEQ, EQUALS);
    (lexer.LESS, GTLT); (lexer.LESSEQ, GTLT);
    (lexer.GREAT, GTLT); (lexer.GREATEQ, GTLT);
    (lexer.AND, GTLT); (lexer.OR, GTLT);
    (lexer.ADD, SUM); (lexer.ADDEQ, SUM);
    (lexer.SUB, SUM); (lexer.SUBEQ, SUM);
    (lexer.DIV, PRODUCT); (lexer.DIVEQ, PRODUCT);
    (lexer.MULT, PRODUCT); (lexer.MULTEQ, PRODUCT);
    (lexer.LEFTPAREN, CALL) ].

(** The method values stored in the two dispatch tables. *)
Inductive prefixParseFn : Type :=
| fn_parseIdent
| fn_parseIntLiteral
| fn_parseStrLiteral
| fn_parsePrefixExpr
| fn_parseGroupingExpr
| fn_parseIfExpr
| fn_parseWhileExpr.

Inductive infixParseFn : Type :=
| fn_parseInfixExpr
| fn_parseCallExpr.

Record Parser : Type := mkParser {
  tokens : list lexer.Token;
  index : nat;
  statements : list ast.Stmt;
  errors : list string;
  prefixParseFns : TokenMap prefixParseFn;
  infixParseFns : TokenMap infixParseFn;
  indentLevel : Z
}.

Definition set_index (p : Parser) (i : nat) : Parser :=
  mkParser (tokens p) i (statements p) (errors p)
           (prefixParseFns p) (infixParseFns p) (indentLevel p).
Definition set_statements (p : Parser) (ss : list ast.Stmt) : Parser :=
  mkParser (tokens p) (index p) ss (errors p)
           (prefixParseFns p) (infixParseFns p) (indentLevel p).
Definition set_errors (p : Parser) (es : list string) : Parser :=
  mkParser (tokens p) (index p) (statements p) es
           (prefixParseFns p) (infixParseFns p) (indentLevel p).
Definition set_prefixParseFns (p : Parser) (m : TokenMap prefixParseFn) : Parser :=
  mkParser (tokens p) (index p) (statements p) (errors p)
           m (infixParseFns p) (indentLevel p).
Definition set_infixParseFns (p : Parser) (m : TokenMap infixParseFn) : Parser :=
  mkParser (tokens p) (index p) (statements p) (errors p)
           (prefixParseFns p) m (indentLevel p).
Definition set_indentLevel (p : Parser) (n : Z) : Parser :=
  mkParser (tokens p) (index p) (statements p) (errors p)
           (prefixParseFns p) (infixParseFns p) n.

(** Methods on [*Parser]: state passing, with panics. *)
Definition M (A : Type) : Type := Parser -> Res (A * Parser).

Definition ret {A} (a : A) : M A := fun p => Ok (a, p).

Definition bind {A B} (m : M A) (k : A -> M B) : M B :=
  fun p =>
    match m p with
    | Ok (a, p') => k a p'
    | Panic => Panic
    | OutOfFuel => OutOfFuel
    end.

Definition out_of_fuel {A} : M A := fun _ => OutOfFuel.
Definition get : M Parser := fun p => Ok (p, p).
Definition modify (f : Parser -> Parser) : M unit := fun p => Ok (tt, f p).

Declare Scope parser_scope.
Delimit Scope parser_scope with parser.
Notation "x <- m ;; k" := (bind m (fun x => k))
  (at level 61, m at next level, right associativity) : parser_scope.
Notation "m ;;; k" := (bind m (fun _ => k))
  (at level 61, right associativity) : parser_scope.
Open Scope parser_scope.

(** [p.tokens[i]]. *)
Definition token_at (i : nat) : M lexer.Token :=
  fun p =>
    match nth_error (tokens p) i with
    | Some t => Ok (t, p)
    | None => Panic
    end.

Definition current : M lexer.Token :=
  p <- get ;; token_at (index p).

Definition end_ : M bool :=
  token <- current ;; ret (lexer.Name token =? lexer.EOF)%string.

Definition peek : M lexer.Token :=
  e <- end_ ;;
  if negb e then p <- get ;; token_at (index p + 1)
  else ret lexer.zeroToken.

Definition next : M unit :=
  e <- end_ ;;
  if negb e then modify (fun p => set_index p (index p + 1))
  else ret tt.

Definition checkCurrent (t : lexer.TokenType) : M bool :=
  e <- end_ ;;
  if e then ret false
  else c <- current ;; ret (lexer.Name c =? t)%string.

Definition checkPeek (t : lexer.TokenType) : M bool :=
  e <- end_ ;;
  if e then ret false
  else c <- peek ;; ret (lexer.Name c =? t)%string.

Definition peekError (t : lexer.TokenType) : M unit :=
  pk <- peek ;;
  pk' <- peek ;;
  let err := ("error at " ++ lexer.GetPosition pk ++ ": expected next token to be "
              ++ t ++ ", got " ++ lexer.Name pk' ++ " instead")%string in
  modify (fun p => set_errors p (errors p ++ [err])).

Definition expectCurrent (t : lexer.TokenType) : M bool :=
  b <- checkCurrent t ;;
  if b then next ;;; ret true else ret false.

Definition expectPeek (t : lexer.TokenType) : M bool :=
  b <- checkPeek t ;;
  if b then next ;;; ret true else peekError t ;;; ret false.

Definition prec_of (t : lexer.Token) : Z :=
  match map_get precedence (lexer.Name t) with
  | Some prec => prec
  | None => LOWEST
  end.

Definition currentPrec : M Z := c <- current ;; ret (prec_of c).
Definition peekPrec : M Z := c <- peek ;; ret (prec_of c).

Definition registerPrefix (t : lexer.TokenType) (fn : prefixParseFn) (p : Parser) : Parser :=
  set_prefixParseFns p (map_set (prefixParseFns p) t fn).

Definition registerInfix (t : lexer.TokenType) (fn : infixParseFn) (p : Parser) : Parser :=
  set_infixParseFns p (map_set (infixParseFns p) t fn).

Definition registerFixes (p : Parser) : Parser :=
  let p := set_prefixParseFns p [] in
  let p := registerPrefix lexer.IDENT fn_parseIdent p in
  let p := registerPrefix lexer.NUM fn_parseIntLiteral p in
  let p := registerPrefix lexer.STRING fn_parseStrLiteral p in
  let p := registerPrefix lexer.SUB fn_parsePrefixExpr p in
  let p := registerPrefix lexer.LEFTPAREN fn_parseGroupingExpr p in
  let p := registerPrefix lexer.IF fn_parseIfExpr p in
  let p := registerPrefix lexer.WHILE fn_parseWhileExpr p in
  let p := registerPrefix lexer.STR fn_parseStrLiteral p in
  let p := registerPrefix lexer.INT fn_parseIntLiteral p in
  let p := set_infixParseFns p [] in
  let p := registerInfix lexer.EQ fn_parseInfixExpr p in
  let p := registerInfix lexer.NOTEQ fn_parseInfixExpr p in
  let p := registerInfix lexer.ADD fn_parseInfixExpr p in
  let p := registerInfix lexer.ADDEQ fn_parseInfixExpr p in
  let p := registerInfix lexer.SUB fn_parseInfixExpr p in
  let p := registerInfix lexer.SUBEQ fn_parseInfixExpr p in
  let p := registerInfix lexer.DIV fn_parseInfixExpr p in
  let p := registerInfix lexer.DIVEQ fn_parseInfixExpr p in
  let p := registerInfix lexer.MULT fn_parseInfixExpr p in
  let p := registerInfix lexer.MULTEQ fn_parseInfixExpr p in
  let p := registerInfix lexer.GREAT fn_parseInfixExpr p in
  let p := registerInfix lexer.GREATEQ fn_parseInfixExpr p in
  let p := registerInfix lexer.LESSEQ fn_parseInfixExpr p in
  let p := registerInfix lexer.AND fn_parseInfixExpr p in
  registerInfix lexer.LEFTPAREN fn_parseCallExpr p.

(** A loop [for cond() { p.next() }]; the budget is one step per token. *)
Fixpoint skip_while (cond : M bool) (fuel : nat) : M unit :=
  c <- cond ;;
  if c then
    match fuel with
    | O => out_of_fuel
    | S fuel' => next ;;; skip_while cond fuel'
    end
  else ret tt.

Definition budget : M nat := p <- get ;; ret (List.length (tokens p)).

Section Handlers.

(** The [%q] verb of [fmt] (strconv.Quote), kept abstract: only the text of
    one diagnostic goes through it. *)
Variable fmt_q : string -> string.

(** What a handler reaches when it calls [p.parseExpr]. *)
Variable parseExpr_rec : Z -> M (option ast.Expr).

Definition parseIdent : M (option ast.Expr) :=
  tok <- current ;;
  c <- current ;;
  ret (Some (ast.EIdentifier (ast.mkIdentifier tok (lexer.Val c)))).

Definition parseIntLiteral : M (option ast.Expr) :=
  tok <- current ;;
  c <- current ;;
  match ParseInt0 (lexer.Val c) with
  | None =>
      c' <- current ;;
      let err := ("could not parse " ++ fmt_q (lexer.Val c') ++ " as int")%string in
      modify (fun p => set_errors p (errors p ++ [err])) ;;;
      ret None
  | Some val => ret (Some (ast.IntLiteral tok val))
  end.

Definition parseStrLiteral : M (option ast.Expr) :=
  tok <- current ;;
  c <- current ;;
  ret (Some (ast.StrLiteral tok (lexer.Val c))).

Definition parsePrefixExpr : M (option ast.Expr) :=
  tok <- current ;;
  c <- current ;;
  next ;;;
  e <- parseExpr_rec PREFIX ;;
  ret (Some (ast.PrefixExpr tok (lexer.Val c) e)).

Definition parseInfixExpr (l : option ast.Expr) : M (option ast.Expr) :=
  tok <- current ;;
  c <- current ;;
  prec <- currentPrec ;;
  next ;;;
  r <- parseExpr_rec prec ;;
  ret (Some (ast.InfixExpr tok l (lexer.Val c) r)).

Definition parseGroupingExpr : M (option ast.Expr) :=
  next ;;;
  expr <- parseExpr_rec LOWEST ;;
  ok <- expectPeek lexer.RIGHTPAREN ;;
  if negb ok then ret None else ret expr.

(** The loop [for p.checkPeek(lexer.COMMA)] of [parseCallArgs]. *)
Fixpoint parseCallArgs_loop (fuel : nat) (args : list (option ast.Expr))
  : M (list (option ast.Expr)) :=
  c <- checkPeek lexer.COMMA ;;
  if c then
    match fuel with
    | O => out_of_fuel
    | S fuel' =>
        next ;;;
        next ;;;
        e <- parseExpr_rec LOWEST ;;
        parseCallArgs_loop fuel' (args ++ [e])
    end
  else ret args.

Definition parseCallArgs : M (list (option ast.Expr)) :=
  c <- checkPeek lexer.RIGHTPAREN ;;
  if c then next ;;; ret []
  else
    next ;;;
    e <- parseExpr_rec LOWEST ;;
    n <- budget ;;
    args <- parseCallArgs_loop n [e] ;;
    ok <- expectPeek lexer.RIGHTPAREN ;;
    if negb ok then ret [] else ret args.

Definition parseCallExpr (fn : option ast.Expr) : M (option ast.Expr) :=
  tok <- current ;;
  args <- parseCallArgs ;;
  ret (Some (ast.CallExpr tok fn args)).

Definition parseVarStmt : M (option ast.Stmt) :=
  tok <- current ;;
  itok <- current ;;
  ival <- current ;;
  ok <- expectPeek lexer.EQUALS ;;
  if negb ok then ret None
  else
    next ;;;
    v <- parseExpr_rec LOWEST ;;
    n <- budget ;;
    skip_while (nl <- checkCurrent lexer.NL ;;
                if negb nl then e <- end_ ;; ret (negb e) else ret false) n ;;;
    ret (Some (ast.VarStmt tok (ast.mkIdentifier itok (lexer.Val ival)) v)).

Definition parseExprStmt : M ast.Stmt :=
  tok <- current ;;
  e <- parseExpr_rec LOWEST ;;
  ret (ast.ExprStmt tok e).

(** [parseStmt]: the result is an interface value, [None] is [nil]; a nil
    [*VarStmt] coming from [parseVarStmt] is stored as a non-nil interface. *)
Definition parseStmt : M (option ast.Stmt) :=
  c <- current ;;
  if (lexer.Name c =? lexer.IDENT)%string then
    pk <- peek ;;
    if (lexer.Name pk =? lexer.EQUALS)%string then
      s <- parseVarStmt ;;
      ret (Some (match s with Some s' => s' | None => ast.VarStmt_nil end))
    else s <- parseExprStmt ;; ret (Some s)
  else if (lexer.Name c =? lexer.NL)%string then ret None
  else s <- parseExprStmt ;; ret (Some s).

(** The main loop of [parseBlockStmt]. *)
Fixpoint parseBlockStmt_loop (fuel : nat) (stmts : list ast.Stmt) : M (list ast.Stmt) :=
  p <- get ;;
  c <- current ;;
  e <- (if (4 * indentLevel p <=? lexer.GetCol c)%Z
        then e <- end_ ;; ret (negb e) else ret false) ;;
  if e then
    match fuel with
    | O => out_of_fuel
    | S fuel' =>
        stmt <- parseStmt ;;
        let stmts := match stmt with Some s => stmts ++ [s] | None => stmts end in
        next ;;;
        n <- budget ;;
        skip_while (nl <- checkCurrent lexer.NL ;;
                    if nl then ret true else checkCurrent lexer.INDENT) n ;;;
        parseBlockStmt_loop fuel' stmts
    end
  else ret stmts.

Definition parseBlockStmt : M ast.BlockStmt :=
  next ;;;
  n <- budget ;;
  skip_while (checkPeek lexer.INDENT) n ;;;
  next ;;;
  modify (fun p => set_indentLevel p (indentLevel p + 1)) ;;;
  tok <- current ;;
  stmts <- parseBlockStmt_loop n [] ;;
  modify (fun p => set_indentLevel p (indentLevel p - 1)) ;;;
  ret (ast.mkBlockStmt tok stmts).

Definition parseIfExpr : M (option ast.Expr) :=
  tok <- current ;;
  next ;;;
  cond <- parseExpr_rec LOWEST ;;
  ok <- expectPeek lexer.COLON ;;
  if negb ok then ret None
  else
    ok <- expectPeek lexer.NL ;;
    if negb ok then ret None
    else
      pass <- parseBlockStmt ;;
      ok <- expectCurrent lexer.ELSE ;;
      if negb ok then ret (Some (ast.IfExpr tok cond pass None))
      else
        fail <- parseBlockStmt ;;
        ret (Some (ast.IfExpr tok cond pass (Some fail))).

Definition parseWhileExpr : M (option ast.Expr) :=
  tok <- current ;;
  next ;;;
  cond <- parseExpr_rec LOWEST ;;
  ok <- expectPeek lexer.COLON ;;
  if negb ok then ret None
  else
    ok <- expectPeek lexer.NL ;;
    if negb ok then ret None
    else
      body <- parseBlockStmt ;;
      ret (Some (ast.WhileExpr tok cond body)).

(** Calling a value of the prefix, respectively infix, table. *)
Definition call_prefix (fn : prefixParseFn) : M (option ast.Expr) :=
  match fn with
  | fn_parseIdent => parseIdent
  | fn_parseIntLiteral => parseIntLiteral
  | fn_parseStrLiteral => parseStrLiteral
  | fn_parsePrefixExpr => parsePrefixExpr
  | fn_parseGroupingExpr => parseGroupingExpr
  | fn_parseIfExpr => parseIfExpr
  | fn_parseWhileExpr => parseWhileExpr
  end.

Definition call_infix (fn : infixParseFn) (l : option ast.Expr) : M (option ast.Expr) :=
  match fn with
  | fn_parseInfixExpr => parseInfixExpr l
  | fn_parseCallExpr => parseCallExpr l
  end.

(** The loop of [parseExpr]. *)
Fixpoint parseExpr_loop (fuel : nat) (precedence : Z) (left : option ast.Expr)
  : M (option ast.Expr) :=
  nl <- checkCurrent lexer.NL ;;
  go <- (if negb nl then pp <- peekPrec ;; ret (precedence <? pp)%Z else ret false) ;;
  if go then
    pk <- peek ;;
    p <- get ;;
    match map_get (infixParseFns p) (lexer.Name pk) with
    | None => ret left
    | Some fn =>
        match fuel with
        | O => out_of_fuel
        | S fuel' =>
            next ;;;
            left <- call_infix fn left ;;
            parseExpr_loop fuel' precedence left
        end
    end
  else ret left.

(** The body of [parseExpr]. *)
Definition parseExpr_body (precedence : Z) : M (option ast.Expr) :=
  c <- current ;;
  p <- get ;;
  match map_get (prefixParseFns p) (lexer.Name c) with
  | None => ret None
  | Some pre =>
      left <- call_prefix pre ;;
      n <- budget ;;
      parseExpr_loop n precedence left
  end.

End Handlers.

(** [parseExpr], with a budget for the depth of its recursion. *)
Fixpoint parseExpr (fmt_q : string -> string) (fuel : nat) (precedence : Z)
  : M (option ast.Expr) :=
  match fuel with
  | O => out_of_fuel
  | S fuel' => parseExpr_body fmt_q (parseExpr fmt_q fuel') precedence
  end.

(** The loop of [parse]. *)
Fixpoint parse_loop (fmt_q : string -> string) (depth fuel : nat) : M unit :=
  e <- end_ ;;
  if negb e then
    match fuel with
    | O => out_of_fuel
    | S fuel' =>
        stmt <- parseStmt (parseExpr fmt_q depth) ;;
        match stmt with
        | Some s => modify (fun p => set_statements p (statements p ++ [s]))
        | None => ret tt
        end ;;;
        next ;;;
        parse_loop fmt_q depth fuel'
    end
  else ret tt.

(** [parse]: nested calls of [parseExpr] each start at a later token, so a
    depth of one call per token is never exceeded. *)
Definition parse (fmt_q : string -> string) : M (list ast.Stmt) :=
  n <- budget ;;
  parse_loop fmt_q n n ;;;
  p <- get ;;
  ret (statements p).

(** [StartParseRepl]: the parser after the pass; the program returned with
    it is its [statements]. *)
Definition StartParseRepl (fmt_q : string -> string) (input : string) : Res Parser :=
  let formatted := ReplaceAll_4sp_tab input in
  let? tokens := lexer.StartLex formatted in
  if (List.length tokens =? 0)%nat then Panic
  else
    let p := mkParser tokens 0 [] [] [] [] 0 in
    let p := registerFixes p in
    let? (_, p) := parse fmt_q p in
    Ok p.

End parser.

(** ** Package [interpreter]: items and environments *)

Module interpreter.
Import golib.

Definition ItemType := string.

Definition ERR : ItemType := "ERR".
Definition INT : ItemType := "INT".
Definition STR : ItemType := "STR".
Definition BOOL : ItemType := "BOOL".
Definition BUILTIN : ItemType := "BUILTIN".

(** The functions a [Builtin] holds. A Go function value can only be
    called; the program makes one, the entry [print] of the table of the
    evaluator. *)
Inductive BuiltinFunction : Type :=
| print_fn.

(** An [Item] interface holds a pointer to one of five structs, or [nil]:
    an [option Item] here. Pointers are compared in one place, [isTrue],
    and there against the two variables [TRUE] and [FALSE] of the
    evaluator: these two pointers are the constructors [TRUE] and [FALSE],
    and [Bool b] is a pointer to any other [Bool]. *)
Inductive Item : Type :=
| Error (Err : string)
| Int (Val : Z)
| Str (Val : string)
| TRUE
| FALSE
| Bool (Val : bool)
| Builtin (Fn : BuiltinFunction).

(** [i.Type()]; a call through the nil interface panics. *)
Definition Type_ (i : option Item) : Res ItemType :=
  match i with
  | None => Panic
  | Some (Error _) => Ok ERR
  | Some (Int _) => Ok INT
  | Some (Str _) => Ok STR
  | Some TRUE | Some FALSE | Some (Bool _) => Ok BOOL
  | Some (Builtin _) => Ok BUILTIN
  end.

(** [i.Visit()]: [%d] of an [int64] and [%t] of a [bool]. *)
Definition Visit (i : option Item) : Res string :=
  match i with
  | None => Panic
  | Some (Error e) => Ok e
  | Some (Int v) => Ok (Itoa v)
  | Some (Str s) => Ok s
  | Some TRUE => Ok "true"
  | Some FALSE => Ok "false"
  | Some (Bool b) => Ok (if b then "true" else "false")
  | Some (Builtin _) => Ok "builtin function"
  end.

(** [Environment]: the map [env], the binding made last first. A key may
    be bound to the nil item. *)
Definition Environment := list (string * option Item).

Definition NewEnv : Environment := [].

(** [e.Get(k)]: the value and the flag [ok] of the map lookup. *)
Fixpoint Get (e : Environment) (k : string) : option Item * bool :=
  match e with
  | [] => (None, false)
  | (k', v) :: r => if k' =? k then (v, true) else Get r k
  end.

(** [e.Store(k, i)]: the item, and the environment after the update. *)
Definition Store (e : Environment) (k : string) (i : option Item)
  : option Item * Environment :=
  (i, (k, i) :: e).

End interpreter.

(** ** Package [evaluator] *)

Module evaluator.
Import golib ast interpreter.

(** The methods take the environment by pointer and update it in place: a
    computation maps the environment to a result and the environment
    after it. *)
Definition M (A : Type) : Type := Environment -> Res (A * Environment).

(** [int64] arithmetic wraps around. *)
Definition wrap64 (z : Z) : Z := ((z + 2 ^ 63) mod 2 ^ 64 - 2 ^ 63)%Z.

(** The body of the builtin [print]. *)
Fixpoint print_loop (args : list (option Item)) (result : string) : Res string :=
  match args with
  | [] => Ok result
  | arg :: r =>
      let? s := Visit arg in
      print_loop r (result ++ s)
  end.

(** [fun.Fn(args...)]. *)
Definition call (fn : BuiltinFunction) (args : list (option Item)) : Res (option Item) :=
  match fn with
  | print_fn =>
      let? result := print_loop args "" in
      Ok (Some (Str result))
  end.

Definition builtins : list (string * Item) := [("print", Builtin print_fn)].

Fixpoint builtins_get (m : list (string * Item)) (k : string) : option Item :=
  match m with
  | [] => None
  | (k', b) :: r => if k' =? k then Some b else builtins_get r k
  end.

(** [newErr]: the message is the result of [fmt.Sprintf], which the callers
    below write out: the verb [%s] prints a string or an [ItemType] as it
    is. *)
Definition newErr (msg : string) : Item := Error msg.

Definition has_percent (f : string) : bool :=
  existsb (Ascii.eqb "%") (list_ascii_of_string f).

(** [applyFn]. *)
Definition applyFn (fn : option Item) (args : list (option Item)) : Res (option Item) :=
  match fn with
  | Some (Builtin fun_) => call fun_ args
  | _ =>
      let? t := Type_ fn in
      Ok (Some (newErr ("not a function: " ++ t)))
  end.

Section Evaluator.

(** [fmt.Sprintf(f)] for a format [f] that holds a percent sign and comes
    with no operand. *)
Variable Sprintf_verbs : string -> string.

(** [fmt.Sprintf(f)] with no operand: a format without percent sign is
    printed as it is. *)
Definition Sprintf0 (f : string) : string :=
  if has_percent f then Sprintf_verbs f else f.

(** [evaluateIdent]: the identifier itself is part of the format. *)
Definition evaluateIdent (i : Identifier) (env : Environment) : option Item :=
  let (val, ok) := Get env (IdVal i) in
  if ok then val
  else
    match builtins_get builtins (IdVal i) with
    | Some builtin => Some builtin
    | None => Some (newErr (Sprintf0 ("identifier not found: " ++ IdVal i)))
    end.

(** [evaluateNegateOpExpr]: nil for an operand that is no integer. *)
Definition evaluateNegateOpExpr (expr : option Item) : Res (option Item) :=
  let? t := Type_ expr in
  if negb (t =? INT) then Ok None
  else
    match expr with
    | Some (Int val) => Ok (Some (Int (wrap64 (- val))))
    | _ => Panic
    end.

Definition evaluatePrefixExpr (op : string) (expr : option Item) : Res (option Item) :=
  if op =? "-" then evaluateNegateOpExpr expr
  else
    let? t := Type_ expr in
    Ok (Some (newErr ("unknown operator: " ++ op ++ t))).

(** [evaluateIntInfixExpr]: the two type assertions panic on anything but
    an [Int]; the division panics on a zero divisor and truncates towards
    zero. *)
Definition evaluateIntInfixExpr (op : string) (l r : option Item) : Res (option Item) :=
  match l, r with
  | Some (Int left_), Some (Int right_) =>
      if op =? "+" then Ok (Some (Int (wrap64 (left_ + right_))))
      else if op =? "-" then Ok (Some (Int (wrap64 (left_ - right_))))
      else if op =? "*" then Ok (Some (Int (wrap64 (left_ * right_))))
      else if op =? "/" then
        if (right_ =? 0)%Z then Panic
        else Ok (Some (Int (wrap64 (Z.quot left_ right_))))
      else if op =? "<" then Ok (Some (if (left_ <? right_)%Z then TRUE else FALSE))
      else if op =? ">" then Ok (Some (if (left_ >? right_)%Z then TRUE else FALSE))
      else if op =? "==" then Ok (Some (if (left_ =? right_)%Z then TRUE else FALSE))
      else if op =? "!=" then Ok (Some (if negb (left_ =? right_)%Z then TRUE else FALSE))
      else Ok (Some (newErr ("unknown operator: " ++ op)))
  | _, _ => Panic
  end.

Definition evaluateStrInfixExpr (op : string) (l r : option Item) : Res (option Item) :=
  let? left_ := Visit l in
  let? right_ := Visit r in
  if op =? "+" then Ok (Some (Str (left_ ++ right_)))
  else Ok (Some (newErr ("unknown operator: " ++ op))).

(** [evaluateInfixExpr]: whatever the case that is taken, the conditions
    evaluated on the way call [Type] on both operands. *)
Definition evaluateInfixExpr (op : string) (l r : option Item) : Res (option Item) :=
  let? lt := Type_ l in
  let? rt := Type_ r in
  if (lt =? INT) && (rt =? INT) then evaluateIntInfixExpr op l r
  else if ((lt =? STR) && (rt =? STR)) || ((lt =? INT) && (rt =? STR))
          || ((lt =? STR) && (rt =? INT))
  then evaluateStrInfixExpr op l r
  else Ok (Some (newErr ("unknown operator: " ++ lt ++ " " ++ op ++ " " ++ rt))).

Definition isTrue (item : option Item) : bool :=
  match item with
  | Some TRUE => true
  | Some FALSE => false
  | _ => false
  end.

(** The functions that call [Evaluate] take it as an argument; [Evaluate]
    below passes itself. *)

(** [Evaluate] on an [Expr] interface: the nil interface matches no case
    of the type switch. *)
Definition Evaluate_nilable (Evaluate : Expr -> M (option Item)) (node : option Expr)
  : M (option Item) :=
  fun env =>
    match node with
    | Some e => Evaluate e env
    | None => Ok (None, env)
    end.

(** The loop of [evaluateStmts]. *)
Fixpoint evaluateStmts_loop (Evaluate : Stmt -> M (option Item)) (stmts : list Stmt)
                            (result : option Item) : M (option Item) :=
  fun env =>
    match stmts with
    | [] => Ok (result, env)
    | stmt :: r =>
        let? (result, env) := Evaluate stmt env in
        evaluateStmts_loop Evaluate r result env
    end.

Definition evaluateStmts (Evaluate : Stmt -> M (option Item)) (stmts : list Stmt)
  : M (option Item) :=
  evaluateStmts_loop Evaluate stmts None.

(** The loop of [evaluateExprs]. *)
Fixpoint evaluateExprs_loop (Evaluate : option Expr -> M (option Item))
                            (e : list (option Expr)) (result : list (option Item))
  : M (list (option Item)) :=
  fun env =>
    match e with
    | [] => Ok (result, env)
    | expr :: r =>
        let? (eval, env) := Evaluate expr env in
        let? t := Type_ eval in
        if t =? ERR then Ok ([eval], env)
        else evaluateExprs_loop Evaluate r (result ++ [eval]) env
    end.

Definition evaluateExprs (Evaluate : option Expr -> M (option Item))
                         (e : list (option Expr)) : M (list (option Item)) :=
  evaluateExprs_loop Evaluate e [].

Definition evaluateIfExpr (EvaluateExpr : option Expr -> M (option Item))
                          (EvaluateBlock : BlockStmt -> M (option Item))
                          (Cond : option Expr) (Pass : BlockStmt)
                          (Fail : option BlockStmt) : M (option Item) :=
  fun env =>
    let? (cond, env) := EvaluateExpr Cond env in
    if isTrue cond then EvaluateBlock Pass env
    else
      match Fail with
      | Some fail => EvaluateBlock fail env
      | None => Ok (None, env)
      end.

(** [Evaluate], one function for each family of nodes. The case of a call
    ends without [return] (the application is commented out), so the
    function falls to its last line and returns nil; a [while] has no
    case. *)
Fixpoint Evaluate_Expr (node : Expr) : M (option Item) :=
  fun env =>
    match node with
    | CallExpr _ Func Args =>
        let? (fn, env) := Evaluate_nilable Evaluate_Expr Func env in
        let? t := Type_ fn in
        if t =? ERR then Ok (fn, env)
        else
          let? (args, env) := evaluateExprs (Evaluate_nilable Evaluate_Expr) Args env in
          let? failed :=
            match args with
            | [a] => let? t := Type_ a in Ok (t =? ERR)
            | _ => Ok false
            end in
          if failed then Ok (nth 0 args None, env)
          else Ok (None, env)
    | EIdentifier i => Ok (evaluateIdent i env, env)
    | PrefixExpr _ Op Expr_ =>
        let? (expr, env) := Evaluate_nilable Evaluate_Expr Expr_ env in
        let? t := Type_ expr in
        if t =? ERR then Ok (expr, env)
        else
          let? v := evaluatePrefixExpr Op expr in
          Ok (v, env)
    | InfixExpr _ Left Op Right =>
        let? (l, env) := Evaluate_nilable Evaluate_Expr Left env in
        let? t := Type_ l in
        if t =? ERR then Ok (l, env)
        else
          let? (r, env) := Evaluate_nilable Evaluate_Expr Right env in
          let? t := Type_ r in
          if t =? ERR then Ok (r, env)
          else
            let? v := evaluateInfixExpr Op l r in
            Ok (v, env)
    | IfExpr _ Cond Pass Fail =>
        evaluateIfExpr (Evaluate_nilable Evaluate_Expr) Evaluate_BlockStmt
          Cond Pass Fail env
    | IntLiteral _ Value => Ok (Some (Int Value), env)
    | StrLiteral _ Value => Ok (Some (Str Value), env)
    | WhileExpr _ _ _ => Ok (None, env)
    end
with Evaluate_Stmt (node : Stmt) : M (option Item) :=
  fun env =>
    match node with
    | ExprStmt _ Expr_ => Evaluate_nilable Evaluate_Expr Expr_ env
    | VarStmt _ Ident Value =>
        let? (v, env) := Evaluate_nilable Evaluate_Expr Value env in
        let? t := Type_ v in
        if t =? ERR then Ok (v, env)
        else
          let (_, env) := Store env (IdVal Ident) v in
          Ok (v, env)
    | VarStmt_nil => Panic
    end
with Evaluate_BlockStmt (node : BlockStmt) : M (option Item) :=
  fun env =>
    match node with
    | mkBlockStmt _ Stmts => evaluateStmts Evaluate_Stmt Stmts env
    end.

(** [Evaluate] on a [*Program]. *)
Definition Evaluate_Program (node : Program) : M (option Item) :=
  evaluateStmts Evaluate_Stmt node.

End Evaluator.

End evaluator.

(** ** Package [repl] *)

Module repl.
Import golib ast interpreter evaluator.

(** What a pass of the loop of [Run] sends to the writer [w] and to the
    standard output. *)
Record Output : Type := mkOutput { written : string; printed : string }.

(** [printParserErrors]. *)
Fixpoint printParserErrors (errors : list string) (out : Output) : Output :=
  match errors with
  | [] => out
  | err :: r =>
      printParserErrors r
        (mkOutput (written out ++ String chr_tab err ++ String chr_nl "")
                  (printed out ++ err ++ String chr_nl ""))
  end.

(** The body of the loop of [Run] for a line the scanner has read, after
    the prompt. *)
Definition Run_line (fmt_q Sprintf_verbs : string -> string) (line : string)
  : Environment -> Res (Output * Environment) :=
  fun environment =>
    let? p := parser.StartParseRepl fmt_q line in
    let program := parser.statements p in
    if negb (List.length (parser.errors p) =? 0)%nat
    then Ok (printParserErrors (parser.errors p) (mkOutput "" ""), environment)
    else
      let? s := Program_String program in
      let? (eval, environment) := Evaluate_Program Sprintf_verbs program environment in
      match eval with
      | Some _ =>
          let? v := Visit eval in
          Ok (mkOutput s (v ++ String chr_nl ""), environment)
      | None => Ok (mkOutput s "", environment)
      end.

(** [Run] on the lines the scanner reads: a prompt before each attempt to
    read, and the environment kept from line to line. *)
Fixpoint Run_loop (fmt_q Sprintf_verbs : string -> string) (lines : list string)
                  (environment : Environment) (out : Output) : Res Output :=
  let out := mkOutput (written out) (printed out ++ "REPL> ") in
  match lines with
  | [] => Ok out
  | line :: r =>
      let? (o, environment) := Run_line fmt_q Sprintf_verbs line environment in
      Run_loop fmt_q Sprintf_verbs r environment
        (mkOutput (written out ++ written o) (printed out ++ printed o))
  end.

Definition Run (fmt_q Sprintf_verbs : string -> string) (lines : list string) : Res Output :=
  Run_loop fmt_q Sprintf_verbs lines NewEnv (mkOutput "" "").

End repl.

(** * Vocabulary of the properties *)

(** ** Tokenizer *)

Module LexSpec.
Import golib lexer.

(** A string made of one double quote. *)
Definition dq : string := String chr_dquote "".

(** A string made of one newline. *)
Definition nl : string := String chr_nl "".

(** A string made of one tab. *)
Definition tab : string := String chr_tab "".

(** The inner loops of the lexer only move the cursor, and leave it on a
    byte of the input. *)
Definition moved (l : Lexer) (r : Res Lexer) : Prop :=
  exists k, r = Ok (set_index l k)
            /\ (index l <= k)%nat /\ (k < String.length (input l))%nat.

Definition noEOF (ts : list Token) : Prop := Forall (fun t => Name t <> EOF) ts.

(** Invariant of the token buffer: no end-of-input token is in it, and it is
    not empty while the lexer is inside a word. *)
Definition buffer_ok (l : Lexer) : Prop :=
  (currentType l = TokenIdent \/ currentType l = TokenKeyword -> tokens l <> [])
  /\ noEOF (tokens l).

(** The outcome of a step of the lexer started in [l]: on return the input
    is the same, the cursor has not moved back and the invariant is kept;
    a panic happens only under [panics]; the budget is never exhausted. *)
Definition after (l : Lexer) (panics : Prop) (r : Res Lexer) : Prop :=
  match r with
  | Ok l' =>
      input l' = input l /\ (index l <= index l')%nat
      /\ (buffer_ok l -> buffer_ok l')
  | Panic => panics
  | OutOfFuel => False
  end.

(** One iteration of [lex]: the cursor moves forward; a panic needs a broken
    invariant, a cursor outside the input, or a quote on the last byte. *)
Definition body_outcome (l : Lexer) (r : Res Lexer) : Prop :=
  match r with
  | Ok l' =>
      input l' = input l /\ (index l < index l')%nat
      /\ (buffer_ok l -> buffer_ok l')
  | Panic =>
      ~ buffer_ok l \/ (String.length (input l) <= index l)%nat
      \/ ((index l + 1 = String.length (input l))%nat
          /\ String.get (index l) (input l) = Some chr_dquote)
  | OutOfFuel => False
  end.

(** The loop of [lex] under a sufficient budget. *)
Definition loop_outcome (l : Lexer) (r : Res Lexer) : Prop :=
  match r with
  | Ok l' => input l' = input l /\ (buffer_ok l -> buffer_ok l')
  | Panic =>
      ~ buffer_ok l \/ (String.length (input l) <= index l)%nat
      \/ String.get (String.length (input l) - 1) (input l) = Some chr_dquote
  | OutOfFuel => False
  end.

Definition is_EOF (t : Token) : bool := (Name t =? EOF)%string.

(** A token sequence as the parser expects it: the last token, and only the
    last, is the end-of-input token. *)
Fixpoint eof_last_only (ts : list Token) : bool :=
  match ts with
  | [] => false
  | [t] => is_EOF t
  | t :: r => negb (is_EOF t) && eof_last_only r
  end.

End LexSpec.

(** ** Integer literals *)

Module LitSpec.
Import golib lexer ast parser.

(** A string of decimal digits. *)
Fixpoint all_digits (s : string) : bool :=
  match s with
  | EmptyString => true
  | String c r => IsDigit c && all_digits r
  end.

(** The number a string of decimal digits denotes, after the digits read so
    far amount to [n]. *)
Fixpoint value_acc (n : Z) (s : string) : Z :=
  match s with
  | EmptyString => n
  | String c r => value_acc (10 * n + (Z.of_N (code c) - 48)) r
  end.

Definition value (s : string) : Z := value_acc 0 s.

(** A numeral as [Itoa] prints it: not empty, and no zero in front of
    another digit. *)
Definition canonical (s : string) : bool :=
  match s with
  | EmptyString => false
  | String c EmptyString => true
  | String c (String _ _) => negb (Ascii.eqb c "0")
  end.

(** The literal round trip at an input: parsing the text yields the literal
    node of the number it denotes, which renders as the text. *)
Definition literal_roundtrip (fmt_q : string -> string) (s : string) : Prop :=
  exists p,
    StartParseRepl fmt_q s = Ok p
    /\ statements p =
         [ExprStmt (tok NUM s 1 0) (Some (IntLiteral (tok NUM s 1 0) (value s)))]
    /\ Expr_String (IntLiteral (tok NUM s 1 0) (value s)) = Ok s.

(** The [%q] verb on a text of printable ASCII characters other than the
    quote and the backslash, which is all the closed examples below need. *)
Definition quote_plain (s : string) : string :=
  (String chr_dquote s ++ String chr_dquote "")%string.

End LitSpec.

(** ** Parser *)

Module ParseSpec.
Import golib lexer ast parser.

(** Nodes written on one line. *)
Definition ident_at (v : string) (r c : Z) : Expr :=
  EIdentifier (mkIdentifier (tok IDENT v r c) v).

Definition num_at (v : string) (n r c : Z) : Expr :=
  IntLiteral (tok NUM v r c) n.

(** Parsing [input] yields the one statement [a op b], an infix node with
    both operands. *)
Definition infix_of (fmt_q : string -> string) (op : string) (input : string) : Prop :=
  exists p t,
    StartParseRepl fmt_q input = Ok p
    /\ statements p =
         [ ExprStmt (tok IDENT "a" 1 0)
             (Some (InfixExpr t (Some (ident_at "a" 1 0)) op
                      (Some (ident_at "b" 1 (3 + Z.of_nat (String.length op)))))) ]
    /\ errors p = [].

(** [shifts d m]: whenever [m] returns, it has moved the depth by [d]. *)
Definition shifts {A} (d : Z) (m : M A) : Prop :=
  forall p a p', m p = Ok (a, p') -> indentLevel p' = (indentLevel p + d)%Z.

(** [keeps m]: whenever [m] returns, the depth is what it was. *)
Definition keeps {A} (m : M A) : Prop := shifts 0 m.

(** [wp m Q p]: started in [p], the method [m] returns, and its result and
    final state satisfy [Q]. *)
Definition wp {A} (m : M A) (Q : A -> Parser -> Prop) (p : Parser) : Prop :=
  exists a p', m p = Ok (a, p') /\ Q a p'.

(** A parser over the [n + 1] tokens [toks]: the cursor is on a token, and
    no prefix handler is registered for the end-of-input token. *)
Definition on_tokens (toks : list Token) (n : nat) (p : Parser) : Prop :=
  tokens p = toks /\ (index p <= n)%nat
  /\ map_get (prefixParseFns p) EOF = None.

(** From [p] to [p']: the cursor has not moved back and the depth has moved
    by [d]. *)
Definition step_by (toks : list Token) (n : nat) (d : Z) (p p' : Parser) : Prop :=
  on_tokens toks n p' /\ (index p <= index p')%nat
  /\ indentLevel p' = (indentLevel p + d)%Z.

Definition step (toks : list Token) (n : nat) (p p' : Parser) : Prop :=
  on_tokens toks n p' /\ (index p <= index p')%nat
  /\ indentLevel p' = indentLevel p.

(** Well-formed parser states, as a test: the tokens end with their only
    end-of-input token, the cursor is on a token, and the end-of-input token
    has no prefix handler. *)
Definition well_formed (p : Parser) : bool :=
  LexSpec.eof_last_only (tokens p)
  && (index p <? List.length (tokens p))%nat
  && match map_get (prefixParseFns p) EOF with
     | None => true
     | Some _ => false
     end.

(** The parser as [StartParseRepl] sets it up, over given tokens and with
    the cursor on the token [i]. *)
Definition parser_at (toks : list Token) (i : nat) : Parser :=
  registerFixes (mkParser toks i [] [] [] [] 0).

(** The tokens of a conditional with a one-statement body:
    [if x:], newline, tab, [y = 2], newline. *)
Definition if_block_tokens : list Token :=
  [ tok IF "if" 1 0; tok IDENT "x" 1 3; tok COLON ":" 1 4; tok NL NL 1 5;
    tok INDENT INDENT 2 1; tok IDENT "y" 2 5; tok lexer.EQUALS "=" 2 7;
    tok NUM "2" 2 9; tok NL NL 2 10; tok EOF "" 4 0 ].

End ParseSpec.

(** ** Words *)

Module WordSpec.
Import golib lexer.

(** The bytes of a word: ASCII letters, digits and the underscore. *)
Definition word_start (c : ascii) : bool :=
  between 65 90 c || between 97 122 c || Ascii.eqb c "_".

Definition word_byte (c : ascii) : bool := word_start c || between 48 57 c.

Fixpoint all_word_bytes (s : string) : bool :=
  match s with
  | EmptyString => true
  | String c r => word_byte c && all_word_bytes r
  end.

(** A word starts with a letter or an underscore. *)
Definition word (s : string) : bool :=
  match s with
  | EmptyString => false
  | String c r => word_start c && all_word_bytes r
  end.

(** The kind of the token of a word, read byte by byte: [k] is the kind
    after the bytes [seen], and every prefix that is a reserved word sets the
    kind anew. *)
Fixpoint kind_after (seen : string) (k : TokenType) (rest : string) : TokenType :=
  match rest with
  | EmptyString => k
  | String c r =>
      let seen := (seen ++ String c EmptyString)%string in
      kind_after seen (keywordName seen k) r
  end.

Definition word_kind (w : string) : TokenType := kind_after "" IDENT w.

(** One round of the loop over the reserved words in [lexText]. *)
Definition classify_step (t : Token) (keyword : string) : Token :=
  if Val t =? keyword
  then mkToken (keywordName (Val t) (Name t)) (Val t) (Pos t)
  else t.

End WordSpec.

(** ** What a pass leaves in place *)

Module FrameSpec.
Import golib lexer ast parser.

(** [preserves R m]: whenever [m] returns, the states before and after are
    related by [R]. *)
Definition preserves (R : Parser -> Parser -> Prop) {A} (m : M A) : Prop :=
  forall p a p', m p = Ok (a, p') -> R p p'.

(** What a pass over the tokens leaves in place: the tokens and the two
    dispatch tables are the same, the cursor has not moved back, and the
    diagnostics and the statements recorded so far are still there, in
    front of the new ones. *)
Definition frame (p p' : Parser) : Prop :=
  tokens p' = tokens p
  /\ prefixParseFns p' = prefixParseFns p
  /\ infixParseFns p' = infixParseFns p
  /\ (index p <= index p')%nat
  /\ (exists es, errors p' = errors p ++ es)
  /\ (exists ss, statements p' = statements p ++ ss).

End FrameSpec.

(** ** Syntax trees *)

Module AstSpec.
Import golib lexer ast.

(** A property of the node a field holds, if it holds one. *)
Definition on_opt {A} (P : A -> Prop) (o : option A) : Prop :=
  match o with
  | Some a => P a
  | None => True
  end.

(** Trees that [String] prints: every operand, condition, callee and
    argument is there, down to the statements of the blocks, and no
    statement is a nil [*VarStmt]. The value of an assignment and the
    expression of an expression statement may be missing, and the body of a
    [while] is not printed. *)
Fixpoint complete (e : Expr) : bool :=
  let opt (o : option Expr) : bool :=
    match o with
    | Some a => complete a
    | None => false
    end in
  match e with
  | EIdentifier _ | IntLiteral _ _ | StrLiteral _ _ => true
  | PrefixExpr _ _ x => opt x
  | InfixExpr _ l _ r => opt l && opt r
  | IfExpr _ c p f =>
      opt c && complete_block p
      && match f with
         | Some b => complete_block b
         | None => true
         end
  | CallExpr _ f args => forallb opt args && opt f
  | WhileExpr _ c _ => opt c
  end
with complete_stmt (s : Stmt) : bool :=
  match s with
  | VarStmt _ _ (Some e) | ExprStmt _ (Some e) => complete e
  | VarStmt _ _ None | ExprStmt _ None => true
  | VarStmt_nil => false
  end
with complete_block (b : BlockStmt) : bool :=
  match b with
  | mkBlockStmt _ ss => forallb complete_stmt ss
  end.

(** [String] returns on the complete trees and panics on the others. *)
Definition prints {A} (r : Res A) (c : bool) : Prop :=
  match r with
  | Ok _ => c = true
  | Panic => c = false
  | OutOfFuel => False
  end.

End AstSpec.

(** ** What the parser records *)

Module TreeSpec.
Import golib lexer ast parser.

(** Trees without a nil [*VarStmt] among their statements, down to the
    blocks of the conditionals and loops. Missing operands are allowed. *)
Fixpoint proper (e : Expr) : bool :=
  let opt (o : option Expr) : bool :=
    match o with
    | Some a => proper a
    | None => true
    end in
  match e with
  | EIdentifier _ | IntLiteral _ _ | StrLiteral _ _ => true
  | PrefixExpr _ _ x => opt x
  | InfixExpr _ l _ r => opt l && opt r
  | IfExpr _ c p f =>
      opt c && proper_block p
      && match f with
         | Some b => proper_block b
         | None => true
         end
  | CallExpr _ f args => opt f && forallb opt args
  | WhileExpr _ c b => opt c && proper_block b
  end
with proper_stmt (s : Stmt) : bool :=
  match s with
  | VarStmt _ _ (Some e) | ExprStmt _ (Some e) => proper e
  | VarStmt _ _ None | ExprStmt _ None => true
  | VarStmt_nil => false
  end
with proper_block (b : BlockStmt) : bool :=
  match b with
  | mkBlockStmt _ ss => forallb proper_stmt ss
  end.

Definition proper_opt (o : option Expr) : bool :=
  match o with
  | Some a => proper a
  | None => true
  end.

Definition proper_stmt_opt (o : option Stmt) : bool :=
  match o with
  | Some s => proper_stmt s
  | None => true
  end.

(** [yields Q m]: whatever [m] returns satisfies [Q]. *)
Definition yields {A} (Q : A -> Prop) (m : M A) : Prop :=
  forall p a p', m p = Ok (a, p') -> Q a.

(** The statements recorded in the parser are the same. *)
Definition same_statements (p p' : Parser) : Prop := statements p' = statements p.

End TreeSpec.

(** ** Evaluation *)

Module EvalSpec.
Import golib lexer ast interpreter evaluator AstSpec.

(** The range of [int64]. *)
Definition int64 (z : Z) : bool := ((- 2 ^ 63 <=? z) && (z <? 2 ^ 63))%Z.

(** The number an arithmetic expression denotes in the integers: literals
    that fit 64 bits, under the unary minus and the binary [+], [-] and [*].
    [None] for any other expression. *)
Fixpoint arith (e : Expr) : option Z :=
  match e with
  | IntLiteral _ v => if int64 v then Some v else None
  | PrefixExpr _ op (Some a) =>
      if op =? "-" then option_map Z.opp (arith a) else None
  | InfixExpr _ (Some a) op (Some b) =>
      match arith a, arith b with
      | Some x, Some y =>
          if op =? "+" then Some (x + y)%Z
          else if op =? "-" then Some (x - y)%Z
          else if op =? "*" then Some (x * y)%Z
          else None
      | _, _ => None
      end
  | _ => None
  end.

(** [relates R m]: whenever [m] returns, the environments before and after
    are related by [R]. *)
Definition relates (R : Environment -> Environment -> Prop) {A} (m : M A) : Prop :=
  forall env a env', m env = Ok (a, env') -> R env env'.

(** The names bound in the first environment are bound in the second. *)
Definition keeps_names (env env' : Environment) : Prop :=
  forall k, snd (Get env k) = true -> snd (Get env' k) = true.

(** The second environment is the first with bindings added in front. *)
Definition extends (env env' : Environment) : Prop :=
  exists new, env' = new ++ env.

Definition is_error (v : Item) : bool :=
  match v with
  | Error _ => true
  | _ => false
  end.

(** The comparisons of [evaluateIntInfixExpr]. *)
Definition comparison (op : string) : option (Z -> Z -> bool) :=
  if op =? "<" then Some Z.ltb
  else if op =? ">" then Some Z.gtb
  else if op =? "==" then Some Z.eqb
  else if op =? "!=" then Some (fun x y => negb (Z.eqb x y))
  else None.

End EvalSpec.

(** * Proofs *)

(** ** The tokenizer on every input *)

Module LexFacts.
Import golib lexer LexSpec.

Ltac lx_simpl :=
  cbn [index input line column current currentType tokens set_index set_line
       set_column set_current set_currentType set_tokens push here initLexer
       eofToken res_bind] in *.

Lemma get_lt s : forall i c, String.get i s = Some c -> (i < String.length s)%nat.
Proof.
  induction s as [|a r IH]; intros i c H; [discriminate|].
  destruct i; cbn in *; [lia|]. apply IH in H. lia.
Qed.

Lemma get_some s : forall i, (i < String.length s)%nat -> exists c, String.get i s = Some c.
Proof.
  induction s as [|a r IH]; intros i H; cbn in H; [lia|].
  destruct i; cbn; [eauto|]. apply IH. lia.
Qed.

Lemma byte_at_ok s i c : byte_at s i = Ok c -> (i < String.length s)%nat /\ String.get i s = Some c.
Proof.
  unfold byte_at. destruct (String.get i s) eqn:E; intros H; inversion H; subst.
  split; [eapply get_lt; eauto | reflexivity].
Qed.

Lemma byte_at_lt s i : (i < String.length s)%nat -> exists c, byte_at s i = Ok c.
Proof.
  intros H. destruct (get_some s i H) as [c Hc]. exists c. unfold byte_at. now rewrite Hc.
Qed.

Lemma byte_at_not_fuel s i : byte_at s i <> OutOfFuel.
Proof. unfold byte_at. destruct (String.get i s); discriminate. Qed.

(** What [peek] returns, by the position of the cursor. *)
Lemma peek_cases l :
  (index l + 1 = String.length (input l) /\ peek l = Ok (" "%char, true))%nat
  \/ (index l + 1 < String.length (input l) /\ exists c, peek l = Ok (c, false))%nat
  \/ (String.length (input l) < index l + 1 /\ peek l = Panic)%nat.
Proof.
  unfold peek. destruct (Nat.eqb_spec (index l + 1) (String.length (input l))) as [E|E].
  - left. auto.
  - destruct (Nat.lt_ge_cases (index l + 1) (String.length (input l))) as [Hlt|Hge].
    + right; left. split; [assumption|].
      destruct (byte_at_lt _ _ Hlt) as [c ->]. eexists; reflexivity.
    + right; right. split; [lia|]. unfold byte_at.
      destruct (String.get (index l + 1) (input l)) eqn:G; [|reflexivity].
      apply get_lt in G. lia.
Qed.

Lemma set_index_same l : set_index l (index l) = l.
Proof. destruct l; reflexivity. Qed.

Lemma lexString_loop_moves fuel : forall next l,
  (index l + 1 < String.length (input l))%nat ->
  (String.length (input l) <= index l + 1 + fuel)%nat ->
  moved l (lexString_loop fuel next l).
Proof.
  induction fuel as [|fuel IH]; intros next l Hlt Hfuel; [exfalso; lia|].
  cbn [lexString_loop]. destruct (Ascii.eqb next chr_dquote).
  { exists (index l). rewrite set_index_same. repeat split; lia. }
  destruct (peek_cases (set_index l (index l + 1))) as [[E ->]|[[E [c ->]]|[E _]]];
    lx_simpl.
  - exists (index l + 1)%nat. repeat split; lia.
  - destruct (IH c (set_index l (index l + 1))) as (k & -> & H1 & H2);
      lx_simpl; try lia.
    exists k. repeat split; auto; lia.
  - lia.
Qed.

Lemma lexInt_loop_moves fuel : forall next l,
  (index l + 1 < String.length (input l))%nat ->
  (String.length (input l) <= index l + 1 + fuel)%nat ->
  moved l (lexInt_loop fuel next l).
Proof.
  induction fuel as [|fuel IH]; intros next l Hlt Hfuel; [exfalso; lia|].
  cbn [lexInt_loop]. destruct (IsDigit next).
  2:{ exists (index l). rewrite set_index_same. repeat split; lia. }
  destruct (peek_cases (set_index l (index l + 1))) as [[E ->]|[[E [c ->]]|[E _]]];
    lx_simpl.
  - exists (index l + 1)%nat. repeat split; lia.
  - destruct (IH c (set_index l (index l + 1))) as (k & -> & H1 & H2);
      lx_simpl; try lia.
    exists k. repeat split; auto; lia.
  - lia.
Qed.

Lemma nextLine_loop_moves fuel : forall l,
  (index l < String.length (input l))%nat ->
  (String.length (input l) <= index l + 1 + fuel)%nat ->
  moved l (nextLine_loop fuel l).
Proof.
  induction fuel as [|fuel IH]; intros l Hlt Hfuel.
  - cbn [nextLine_loop]. destruct (byte_at_lt _ _ Hlt) as [c ->]. lx_simpl.
    destruct (Z.ltb_spec (Z.of_nat (index l)) (Z.of_nat (String.length (input l)) - 1));
      [lia|]. rewrite andb_false_r.
    exists (index l). rewrite set_index_same. repeat split; lia.
  - cbn [nextLine_loop]. destruct (byte_at_lt _ _ Hlt) as [c ->]. lx_simpl.
    destruct (negb (Ascii.eqb c chr_nl) &&
              (Z.of_nat (index l) <? Z.of_nat (String.length (input l)) - 1)%Z) eqn:E.
    + apply andb_true_iff in E as [_ E]. apply Z.ltb_lt in E.
      destruct (IH (set_index l (index l + 1))) as (k & -> & H1 & H2);
        lx_simpl; try lia.
      exists k. repeat split; auto; lia.
    + exists (index l). rewrite set_index_same. repeat split; lia.
Qed.

Lemma buffer_ok_pushed l l' t :
  tokens l' = tokens l ++ [t] -> Name t <> EOF -> noEOF (tokens l) -> buffer_ok l'.
Proof.
  intros Ht Hn Hl. split; rewrite Ht.
  - intros _. destruct (tokens l); discriminate.
  - apply Forall_app. split; [assumption|]. constructor; [assumption|constructor].
Qed.

Lemma buffer_ok_outside l l' :
  tokens l' = tokens l -> currentType l' <> TokenIdent ->
  currentType l' <> TokenKeyword -> noEOF (tokens l) -> buffer_ok l'.
Proof.
  intros Ht H1 H2 Hl. split; rewrite Ht; [|assumption].
  intros [?|?]; contradiction.
Qed.

Lemma buffer_ok_set_index l k : buffer_ok l -> buffer_ok (set_index l k).
Proof. intros H; exact H. Qed.

Lemma keywordName_not_EOF v d : d <> EOF -> keywordName v d <> EOF.
Proof.
  intros H. unfold keywordName.
  repeat match goal with |- (if ?b then _ else _) <> _ => destruct b end;
    try discriminate. assumption.
Qed.

Lemma classify_not_EOF t : Name t <> EOF -> Name (classify t) <> EOF.
Proof.
  unfold classify. generalize reserved. intros ks. revert t.
  induction ks as [|k ks IH]; intros t H; cbn [fold_left]; [assumption|].
  apply IH. destruct (Val t =? k)%string; [|assumption].
  cbn [Name]. apply keywordName_not_EOF. assumption.
Qed.

Lemma noEOF_last ts : ts <> [] -> noEOF ts -> Name (last ts zeroToken) <> EOF.
Proof.
  intros Hne H. rewrite (app_removelast_last zeroToken Hne) in H.
  apply Forall_app in H as [_ H]. inversion H; assumption.
Qed.

Lemma noEOF_removelast ts : noEOF ts -> noEOF (removelast ts).
Proof.
  intros H. destruct ts as [|t r]; [constructor|].
  rewrite (app_removelast_last zeroToken (l:=t :: r)) in H by discriminate.
  apply Forall_app in H as [H _]. assumption.
Qed.

Ltac ax_simpl :=
  cbn [index input line column current currentType tokens set_index set_line
       set_column set_current set_currentType set_tokens push here initLexer
       eofToken res_bind after lexPunct lexTab lexNL] in *.
Ltac inv_pushed :=
  let H := fresh "Hinv" in
  intros [_ H]; eapply buffer_ok_pushed;
  [reflexivity | try discriminate; try assumption | assumption].
Ltac after_ok := split; [reflexivity | split; [ax_simpl; lia | ]].

Lemma lexText_after val l : after l (~ buffer_ok l) (lexText val l).
Proof.
  unfold lexText, pop.
  destruct (currentType l =? TokenKeyword)%Z eqn:E1;
    [|destruct (currentType l =? TokenIdent)%Z eqn:E2].
  - apply Z.eqb_eq in E1. ax_simpl. destruct (tokens l) as [|t ts] eqn:Et; ax_simpl.
    + intros [H _]. apply H; auto.
    + after_ok. intros [_ H]. rewrite <- Et in *.
      eapply buffer_ok_pushed; [reflexivity| |].
      * apply classify_not_EOF. discriminate.
      * ax_simpl. apply noEOF_removelast. assumption.
  - apply Z.eqb_eq in E2. destruct (tokens l) as [|t ts] eqn:Et; ax_simpl.
    + intros [H _]. apply H; auto.
    + after_ok. intros [_ H]. rewrite <- Et in *.
      eapply buffer_ok_pushed; [reflexivity| |].
      * apply classify_not_EOF. cbn [Name]. apply noEOF_last; [|assumption].
        rewrite Et. discriminate.
      * ax_simpl. apply noEOF_removelast. assumption.
  - ax_simpl. after_ok. intros [_ H].
    eapply buffer_ok_pushed; [reflexivity| |assumption].
    apply classify_not_EOF. discriminate.
Qed.

Lemma lexString_after l :
  (index l < String.length (input l))%nat ->
  after l (index l + 1 = String.length (input l))%nat (lexString l).
Proof.
  intros Hlt. unfold lexString.
  destruct (peek_cases (set_currentType (set_index l (index l + 1)) TokenString))
    as [[E ->]|[[E [c ->]]|[E ->]]]; ax_simpl.
  - after_ok. intros [_ Hinv].
    eapply buffer_ok_pushed; [reflexivity|discriminate|assumption].
  - destruct (lexString_loop_moves (String.length (input l)) c
                (set_currentType (set_index l (index l + 1)) TokenString))
      as (k & -> & H1 & H2); ax_simpl; try lia.
    unfold slice. ax_simpl.
    destruct (Nat.leb_spec (index l + 1) (k + 1)); [|lia].
    destruct (Nat.leb_spec (k + 1) (String.length (input l))); [|lia].
    ax_simpl. cbn [andb]. ax_simpl.
    after_ok. intros [_ Hinv].
    eapply buffer_ok_pushed; [reflexivity|discriminate|assumption].
  - lia.
Qed.

Lemma lexInt_after l :
  (index l < String.length (input l))%nat -> after l False (lexInt l).
Proof.
  intros Hlt. unfold lexInt.
  destruct (peek_cases (set_currentType l TokenInt))
    as [[E ->]|[[E [c ->]]|[E ->]]]; ax_simpl.
  - destruct (byte_at_lt _ _ Hlt) as [c ->]. ax_simpl.
    after_ok. intros [_ Hinv].
    eapply buffer_ok_pushed; [reflexivity|discriminate|assumption].
  - destruct (lexInt_loop_moves (String.length (input l)) c (set_currentType l TokenInt))
      as (k & -> & H1 & H2); ax_simpl; try lia.
    unfold slice. ax_simpl.
    destruct (Nat.leb_spec (index l) (k + 1)); [|lia].
    destruct (Nat.leb_spec (k + 1) (String.length (input l))); [|lia].
    ax_simpl. cbn [andb]. ax_simpl.
    after_ok. intros [_ Hinv].
    eapply buffer_ok_pushed; [reflexivity|discriminate|assumption].
  - lia.
Qed.

Lemma nextLine_after l :
  (index l < String.length (input l))%nat -> after l False (nextLine l).
Proof.
  intros Hlt. unfold nextLine.
  destruct (nextLine_loop_moves (String.length (input l))
              (set_currentType (set_column (set_line l (line l + 1)) 0) (-1)%Z))
    as (k & Hk & H1 & H2); ax_simpl; try lia.
  rewrite Hk. ax_simpl. after_ok. intros [_ Hinv].
  apply buffer_ok_outside with l; auto; discriminate.
Qed.

Lemma lexCompound_after two twoVal adv one oneVal l :
  (index l < String.length (input l))%nat -> two <> EOF -> one <> EOF ->
  after l False (lexCompound two twoVal adv one oneVal l).
Proof.
  intros Hlt H2 H1. unfold lexCompound.
  destruct (peek_cases l) as [[E ->]|[[E [c ->]]|[E ->]]]; ax_simpl; try lia.
  - simpl (_ && _). ax_simpl. after_ok. inv_pushed.
  - destruct (Ascii.eqb c "=" && negb false); [destruct adv|]; ax_simpl;
      after_ok; inv_pushed.
Qed.

Lemma after_weaken l (P Q : Prop) r : (P -> Q) -> after l P r -> after l Q r.
Proof. destruct r; cbn; auto. Qed.

Lemma after_from l0 l1 P r :
  input l1 = input l0 -> (index l0 <= index l1)%nat -> (buffer_ok l0 -> buffer_ok l1) ->
  after l1 P r -> after l0 P r.
Proof.
  intros Hi Hx Hv. destruct r as [l2| |]; cbn; auto.
  intros (H1 & H2 & H3). split; [congruence | split; [lia | auto]].
Qed.

Lemma get_none_ge s : forall i, String.get i s = None -> (String.length s <= i)%nat.
Proof.
  induction s as [|a r IH]; intros i H; cbn; [lia|].
  destruct i; cbn in H; [discriminate|]. apply IH in H. lia.
Qed.

Lemma lex_body_outcome l : body_outcome l (lex_body l).
Proof.
  unfold lex_body. destruct (byte_at (input l) (index l)) as [c| |] eqn:Hb.
  2:{ cbn. right; left. unfold byte_at in Hb.
      destruct (String.get (index l) (input l)) eqn:G; [discriminate|].
      apply get_none_ge; assumption. }
  2:{ exfalso. eapply byte_at_not_fuel; eauto. }
  apply byte_at_ok in Hb as [Hlt Hget]. cbn [res_bind].
  set (l0 := set_current l c).
  assert (Hlt0 : (index l0 < String.length (input l0))%nat) by exact Hlt.
  match goal with
  | |- body_outcome l (res_bind ?d _) =>
      assert (Hd : after l0 (~ buffer_ok l \/ ((index l + 1 = String.length (input l))%nat
                                         /\ c = chr_dquote)) d)
  end.
  { repeat match goal with
           | |- after _ _ (if ?b then _ else _) => destruct b eqn:?
           end.
    - apply after_weaken with False; [tauto|].
      apply after_from with (lexNL l0); [reflexivity|ax_simpl; lia|inv_pushed|].
      apply nextLine_after. exact Hlt.
    - after_ok. inv_pushed.
    - apply after_weaken with False; [tauto|]. apply lexCompound_after; auto; discriminate.
    - apply after_weaken with False; [tauto|]. apply lexCompound_after; auto; discriminate.
    - apply after_weaken with False; [tauto|]. apply lexCompound_after; auto; discriminate.
    - apply after_weaken with False; [tauto|]. apply lexCompound_after; auto; discriminate.
    - after_ok. inv_pushed.
    - after_ok. inv_pushed.
    - after_ok. inv_pushed.
    - apply after_weaken with False; [tauto|]. apply lexCompound_after; auto; discriminate.
    - apply after_weaken with False; [tauto|]. apply lexCompound_after; auto; discriminate.
    - apply after_weaken with False; [tauto|]. apply lexCompound_after; auto; discriminate.
    - apply after_weaken with False; [tauto|]. apply lexCompound_after; auto; discriminate.
    - apply after_weaken with False; [tauto|]. apply lexCompound_after; auto; discriminate.
    - apply after_weaken with False; [tauto|]. apply lexCompound_after; auto; discriminate.
    - after_ok. inv_pushed.
    - eapply after_weaken; [|apply lexString_after; exact Hlt0].
      intros E. right. split; [exact E|]. apply Ascii.eqb_eq. assumption.
    - after_ok. intros [_ Hinv]. apply buffer_ok_outside with l0; auto; discriminate.
    - apply after_weaken with False; [tauto|]. apply nextLine_after. exact Hlt.
    - eapply after_weaken; [|apply lexText_after]. intros H. left. exact H.
    - apply after_weaken with False; [tauto|]. apply lexInt_after. exact Hlt.
    - eapply after_weaken; [|apply lexText_after]. intros H. left. exact H.
    - after_ok. inv_pushed. }
  destruct (_ : Res Lexer) as [l1| |]; cbn in Hd |- *.
  - destruct Hd as (H1 & H2 & H3). split; [exact H1 | split; [ax_simpl; subst l0; ax_simpl; lia | exact H3]].
  - destruct Hd as [H|[H1 H2]]; [left; exact H|]. right; right. subst c. auto.
  - exact Hd.
Qed.

Lemma lex_loop_outcome fuel : forall l,
  (String.length (input l) <= index l + fuel)%nat ->
  loop_outcome l (lex_loop (S fuel) l).
Proof.
  induction fuel as [|fuel IH]; intros l Hfuel; cbn [lex_loop];
    pose proof (lex_body_outcome l) as Hb;
    destruct (lex_body l) as [l1| |]; cbn [res_bind body_outcome loop_outcome] in *;
    try contradiction.
  - destruct Hb as (H1 & H2 & H3).
    destruct (Nat.ltb_spec (index l1) (String.length (input l1)));
      [|cbn [loop_outcome]; auto].
    exfalso. rewrite H1 in *. lia.
  - destruct Hb as [H|[H|[H1 H2]]]; auto. right; right.
    replace (String.length (input l) - 1)%nat with (index l) by lia. exact H2.
  - destruct Hb as (H1 & H2 & H3).
    destruct (Nat.ltb_spec (index l1) (String.length (input l1))) as [Hlt|Hge];
      [|cbn [loop_outcome]; auto].
    specialize (IH l1 ltac:(rewrite H1 in *; lia)).
    cbn [lex_loop] in IH.
    destruct (let? l0 := lex_body l1 in _) as [l2| |]; cbn [loop_outcome] in *.
    + destruct IH as [I1 I2]. split; [congruence|auto].
    + destruct IH as [I|[I|I]].
      * left. intros Hv. apply I. auto.
      * lia.
      * right; right. rewrite <- H1. exact I.
    + exact IH.
  - destruct Hb as [H|[H|[H1 H2]]]; auto. right; right.
    replace (String.length (input l) - 1)%nat with (index l) by lia. exact H2.
Qed.

(** With enough budget, more budget changes nothing. *)
Lemma lex_loop_more fuel : forall l extra,
  lex_loop fuel l <> OutOfFuel -> lex_loop (fuel + extra) l = lex_loop fuel l.
Proof.
  induction fuel as [|fuel IH]; intros l extra H; [cbn in H; congruence|].
  cbn [lex_loop Nat.add] in *. destruct (lex_body l) as [l1| |]; cbn [res_bind] in *;
    try reflexivity.
  destruct (index l1 <? String.length (input l1))%nat; [|reflexivity].
  apply IH. exact H.
Qed.

Lemma lex_loop_budget l fuel :
  (0 < fuel)%nat -> (String.length (input l) < index l + fuel)%nat ->
  lex_loop fuel l = lex_loop (S (String.length (input l) - index l)) l.
Proof.
  intros Hpos H.
  replace fuel with (S (String.length (input l) - index l)
                     + (fuel - S (String.length (input l) - index l)))%nat by lia.
  apply lex_loop_more.
  pose proof (lex_loop_outcome (String.length (input l) - index l) l ltac:(lia)) as Ho.
  intros E. rewrite E in Ho. exact Ho.
Qed.

Lemma buffer_ok_init s : buffer_ok (initLexer s).
Proof. split; cbn; [intros [?|?]; discriminate | constructor]. Qed.

Lemma noEOF_filter ts : noEOF ts -> filter is_EOF ts = [].
Proof.
  induction 1 as [|t ts Ht _ IH]; [reflexivity|]. cbn [filter]. unfold is_EOF at 1.
  apply String.eqb_neq in Ht. rewrite Ht. exact IH.
Qed.

(** The three possible results of [StartLex]. *)
Lemma StartLex_outcome s :
  match StartLex s with
  | Ok toks =>
      toks <> []
      /\ Name (last toks zeroToken) = EOF
      /\ List.length (filter is_EOF toks) = 1%nat
  | Panic =>
      s = "" \/ String.get (String.length s - 1) s = Some chr_dquote
  | OutOfFuel => False
  end.
Proof.
  unfold StartLex, StartLex_fuel.
  pose proof (lex_loop_outcome (String.length s) (initLexer s) ltac:(cbn; lia)) as H.
  change (String.length (input (initLexer s))) with (String.length s) in *.
  destruct (lex_loop (S (String.length s)) (initLexer s)) as [l| |]; cbn in H |- *.
  - destruct H as [_ H]. specialize (H (buffer_ok_init s)). destruct H as [_ H].
    split; [destruct (tokens l); discriminate|].
    split; [rewrite last_last; reflexivity|].
    rewrite filter_app, (noEOF_filter _ H). reflexivity.
  - destruct H as [H|[H|H]].
    + exfalso. apply H, buffer_ok_init.
    + left. destruct s; [reflexivity|cbn in H; lia].
    + right. exact H.
  - exact H.
Qed.

(** A returned sequence is a body without end-of-input token followed by
    the end-of-input token. *)
Lemma StartLex_shape s toks :
  StartLex s = Ok toks ->
  exists body e, toks = body ++ [e] /\ noEOF body /\ Name e = EOF.
Proof.
  unfold StartLex, StartLex_fuel. intros H.
  pose proof (lex_loop_outcome (String.length s) (initLexer s) ltac:(cbn; lia)) as Ho.
  destruct (lex_loop (S (String.length s)) (initLexer s)) as [l| |];
    cbn [res_bind loop_outcome] in *; try discriminate.
  inversion H; subst. exists (tokens l), (eofToken l).
  split; [reflexivity|]. split; [|reflexivity].
  destruct Ho as [_ Ho]. apply Ho, buffer_ok_init.
Qed.

Lemma eof_last_only_app body e :
  noEOF body -> Name e = EOF -> eof_last_only (body ++ [e]) = true.
Proof.
  intros Hb He. induction Hb as [|t r Ht _ IH].
  - cbn. unfold is_EOF. rewrite He. reflexivity.
  - change ((t :: r) ++ [e]) with (t :: (r ++ [e])).
    destruct (r ++ [e]) as [|t' r'] eqn:E; [destruct r; discriminate|].
    change (negb (is_EOF t) && eof_last_only (t' :: r') = true).
    rewrite IH. unfold is_EOF. apply String.eqb_neq in Ht. rewrite Ht. reflexivity.
Qed.

(** The budget of [StartLex_fuel] does not matter once it exceeds the
    length of the input. *)
Lemma StartLex_fuel_enough s fuel :
  (String.length s < fuel)%nat -> StartLex_fuel fuel s = StartLex s.
Proof.
  intros H. unfold StartLex, StartLex_fuel.
  rewrite (lex_loop_budget (initLexer s) fuel) by (cbn; lia).
  cbn [input index initLexer]. rewrite Nat.sub_0_r. reflexivity.
Qed.

End LexFacts.

(** ** Integer literals: from text to node and back *)

Module LitFacts.
Import golib lexer ast parser LitSpec.
#[local] Open Scope string_scope.

Lemma digit_cases c :
  IsDigit c = true ->
  c = "0"%char \/ c = "1"%char \/ c = "2"%char \/ c = "3"%char \/ c = "4"%char
  \/ c = "5"%char \/ c = "6"%char \/ c = "7"%char \/ c = "8"%char \/ c = "9"%char.
Proof.
  destruct c as [b0 b1 b2 b3 b4 b5 b6 b7].
  destruct b0, b1, b2, b3, b4, b5, b6, b7; intros H; try discriminate H;
    auto 10.
Qed.

Lemma digit_range c : IsDigit c = true -> (48 <= Z.of_N (code c) <= 57)%Z.
Proof.
  unfold IsDigit, between. rewrite andb_true_iff, !N.leb_le. lia.
Qed.

Lemma digit_not_underscore c : IsDigit c = true -> Ascii.eqb c "_" = false.
Proof.
  intros H. destruct (Ascii.eqb c "_") eqn:E; [|reflexivity].
  apply Ascii.eqb_eq in E. subst c. discriminate H.
Qed.

Lemma value_acc_mono s : forall n, all_digits s = true -> (0 <= n)%Z -> (n <= value_acc n s)%Z.
Proof.
  induction s as [|c r IH]; intros n Hd Hn; cbn [value_acc].
  - lia.
  - cbn [all_digits] in Hd. apply andb_true_iff in Hd as [Hc Hr].
    apply digit_range in Hc.
    specialize (IH (10 * n + (Z.of_N (code c) - 48))%Z Hr). lia.
Qed.

Lemma parse_digits_decimal s : forall n,
  all_digits s = true -> (0 <= n)%Z -> (value_acc n s < 2 ^ 63)%Z ->
  parse_digits true 10 s n = Some (value_acc n s, false).
Proof.
  induction s as [|c r IH]; intros n Hd Hn Hv; cbn [parse_digits value_acc].
  - reflexivity.
  - cbn [all_digits] in Hd. apply andb_true_iff in Hd as [Hc Hr].
    cbn [value_acc] in Hv.
    rewrite (digit_not_underscore c Hc). cbn [andb].
    change (between 48 57 c) with (IsDigit c). rewrite Hc.
    pose proof (digit_range c Hc) as Hrange.
    pose proof (value_acc_mono r (10 * n + (Z.of_N (code c) - 48))%Z Hr) as Hm.
    set (d := (Z.of_N (code c) - 48)%Z) in *.
    assert (Hmax : (maxUint64 / 10 + 1 = 1844674407370955162)%Z) by reflexivity.
    assert (Hpow : (2 ^ 64 = 18446744073709551616)%Z) by reflexivity.
    assert (Hpow' : (2 ^ 63 = 9223372036854775808)%Z) by reflexivity.
    assert (Hmx : (maxUint64 = 18446744073709551615)%Z) by reflexivity.
    destruct (d >=? 10)%Z eqn:E1; [apply Z.geb_le in E1; lia|].
    rewrite Hmax.
    destruct (n >=? _)%Z eqn:E2; [apply Z.geb_le in E2; lia|].
    rewrite Hpow.
    rewrite (Z.mod_small (n * 10)) by lia.
    rewrite Z.mod_small by lia.
    destruct (_ <? _)%Z eqn:E3; [apply Z.ltb_lt in E3; lia|].
    destruct (_ >? _)%Z eqn:E4; [apply Z.gtb_lt in E4; lia|].
    cbn [orb]. replace (n * 10 + d)%Z with (10 * n + d)%Z by lia.
    apply IH; auto; lia.
Qed.

Lemma has_underscore_digits s : all_digits s = true -> has_underscore s = false.
Proof.
  unfold has_underscore.
  induction s as [|c r IH]; cbn [list_ascii_of_string existsb all_digits];
    intros H; [reflexivity|].
  apply andb_true_iff in H as [Hc Hr].
  rewrite Ascii.eqb_sym, (digit_not_underscore c Hc). auto.
Qed.

Lemma ParseInt0_decimal s :
  all_digits s = true -> canonical s = true -> (value s < 2 ^ 63)%Z ->
  ParseInt0 s = Some (value s).
Proof.
  intros Hd Hc Hv. destruct s as [|c r]; [discriminate Hc|].
  destruct r as [|c1 r1].
  - (* one digit *)
    cbn [all_digits] in Hd. rewrite andb_true_r in Hd.
    destruct (digit_cases c Hd) as [?|[?|[?|[?|[?|[?|[?|[?|[?|?]]]]]]]]]; subst c; reflexivity.
  - cbn [canonical] in Hc. apply negb_true_iff in Hc.
    pose proof Hd as Hd'. cbn [all_digits] in Hd'. apply andb_true_iff in Hd' as [Hc0 _].
    assert (Hplus : Ascii.eqb c "+" = false).
    { destruct (Ascii.eqb c "+") eqn:E; [|reflexivity].
      apply Ascii.eqb_eq in E; subst c; discriminate Hc0. }
    assert (Hminus : Ascii.eqb c "-" = false).
    { destruct (Ascii.eqb c "-") eqn:E; [|reflexivity].
      apply Ascii.eqb_eq in E; subst c; discriminate Hc0. }
    unfold ParseInt0. rewrite Hplus, Hminus. cbn [orb negb andb].
    unfold ParseUint0. rewrite Hc.
    unfold value in *.
    rewrite (parse_digits_decimal _ 0%Z Hd) by (auto; lia).
    rewrite (has_underscore_digits _ Hd). cbn [andb].
    destruct (_ >=? _)%Z eqn:E; [apply Z.geb_le in E; lia|]. reflexivity.
Qed.

Lemma append_nil_r (s : string) : s ++ "" = s.
Proof. induction s; cbn; congruence. Qed.

Lemma append_assoc (a b c : string) : (a ++ b) ++ c = a ++ (b ++ c).
Proof. induction a; cbn; congruence. Qed.

Lemma digit_char c :
  IsDigit c = true -> ascii_of_N (48 + Z.to_N (Z.of_N (code c) - 48)) = c.
Proof.
  intros H. apply digit_range in H.
  replace (48 + Z.to_N (Z.of_N (code c) - 48))%N with (code c) by lia.
  apply ascii_N_embedding.
Qed.

Lemma decimal_one_digit fuel c :
  IsDigit c = true ->
  decimal (S fuel) (Z.of_N (code c) - 48) = String c "".
Proof.
  intros H. pose proof (digit_range c H) as Hr. cbn [decimal].
  rewrite Z.mod_small by lia. rewrite (digit_char c H).
  destruct (_ <? 10)%Z eqn:E; [reflexivity|]. apply Z.ltb_ge in E. lia.
Qed.

Lemma decimal_snoc fuel n c :
  IsDigit c = true -> (0 < n)%Z ->
  decimal (S fuel) (10 * n + (Z.of_N (code c) - 48)) = decimal fuel n ++ String c "".
Proof.
  intros H Hn. pose proof (digit_range c H) as Hr. cbn [decimal].
  destruct (_ <? 10)%Z eqn:E; [apply Z.ltb_lt in E; lia|].
  replace ((10 * n + (Z.of_N (code c) - 48)) / 10)%Z with n
    by (apply Z.div_unique with (Z.of_N (code c) - 48)%Z; lia).
  replace ((10 * n + (Z.of_N (code c) - 48)) mod 10)%Z with (Z.of_N (code c) - 48)%Z
    by (apply Z.mod_unique with n; lia).
  rewrite (digit_char c H). reflexivity.
Qed.

Lemma decimal_value_acc r : forall fuel n,
  all_digits r = true -> (0 < n)%Z ->
  decimal (fuel + String.length r) (value_acc n r) = decimal fuel n ++ r.
Proof.
  induction r as [|c r IH]; intros fuel n Hd Hn; cbn [String.length value_acc].
  - rewrite Nat.add_0_r, append_nil_r. reflexivity.
  - cbn [all_digits] in Hd. apply andb_true_iff in Hd as [Hc Hr].
    pose proof (digit_range c Hc).
    replace (fuel + S (String.length r))%nat with (S fuel + String.length r)%nat by lia.
    rewrite IH by (auto; lia).
    rewrite decimal_snoc by auto. rewrite append_assoc. reflexivity.
Qed.

Lemma value_acc_lower r : forall n,
  all_digits r = true -> (0 <= n)%Z ->
  (n * 10 ^ Z.of_nat (String.length r) <= value_acc n r)%Z.
Proof.
  induction r as [|c r IH]; intros n Hd Hn; cbn [String.length value_acc].
  - cbn. lia.
  - cbn [all_digits] in Hd. apply andb_true_iff in Hd as [Hc Hr].
    pose proof (digit_range c Hc).
    specialize (IH (10 * n + (Z.of_N (code c) - 48))%Z Hr ltac:(lia)).
    rewrite Nat2Z.inj_succ, Z.pow_succ_r by lia.
    assert (0 <= 10 ^ Z.of_nat (String.length r))%Z by (apply Z.pow_nonneg; lia).
    nia.
Qed.

Lemma Itoa_decimal s :
  all_digits s = true -> canonical s = true -> (value s < 2 ^ 63)%Z ->
  Itoa (value s) = s.
Proof.
  intros Hd Hc Hv. destruct s as [|c r]; [discriminate Hc|].
  pose proof Hd as Hd'. cbn [all_digits] in Hd'. apply andb_true_iff in Hd' as [Hc0 Hr].
  pose proof (digit_range c Hc0) as Hrange.
  unfold value in *. cbn [value_acc] in *. rewrite Z.mul_0_r, Z.add_0_l in *.
  pose proof (value_acc_mono r (Z.of_N (code c) - 48)%Z Hr ltac:(lia)) as Hm.
  unfold Itoa. destruct (_ <? 0)%Z eqn:E; [apply Z.ltb_lt in E; lia|].
  destruct r as [|c1 r1].
  - cbn [value_acc]. apply decimal_one_digit; auto.
  - cbn [canonical] in Hc. apply negb_true_iff in Hc.
    assert (Hpos : (0 < Z.of_N (code c) - 48)%Z).
    { assert (Z.of_N (code c) <> 48%Z); [|lia].
      intros Heq. assert (H48 : N_of_ascii c = 48%N) by (unfold code in Heq; lia).
      assert (Hc' : c = ascii_of_N 48)
        by (rewrite <- H48; symmetry; apply ascii_N_embedding).
      subst c. discriminate Hc. }
    set (r := String c1 r1) in *.
    pose proof (value_acc_lower r (Z.of_N (code c) - 48)%Z Hr ltac:(lia)) as Hlow.
    assert (Hlen : (String.length r < 19)%nat).
    { destruct (Nat.lt_ge_cases (String.length r) 19) as [|Hge]; [assumption|].
      assert (10 ^ 19 <= 10 ^ Z.of_nat (String.length r))%Z
        by (apply Z.pow_le_mono_r; lia).
      assert ((2 ^ 63 < 10 ^ 19)%Z) by reflexivity. nia. }
    replace 20%nat with ((20 - String.length r) + String.length r)%nat by lia.
    rewrite decimal_value_acc by auto.
    replace (20 - String.length r)%nat with (S (19 - String.length r)) by lia.
    rewrite decimal_one_digit by auto. reflexivity.
Qed.

(** Lexing a digit string. *)
Import lexer LexFacts.

Lemma digit_neq c x : IsDigit c = true -> IsDigit x = false -> Ascii.eqb c x = false.
Proof.
  intros Hc Hx. destruct (Ascii.eqb c x) eqn:E; [|reflexivity].
  apply Ascii.eqb_eq in E. congruence.
Qed.

Lemma digit_not_space c : IsDigit c = true -> IsSpace c = false.
Proof.
  intros H. destruct (digit_cases c H) as [?|[?|[?|[?|[?|[?|[?|[?|[?|?]]]]]]]]]; subst c; reflexivity.
Qed.

Lemma digit_rune c : IsDigit c = true -> string_of_rune c = String c "".
Proof.
  intros H. destruct (digit_cases c H) as [?|[?|[?|[?|[?|[?|[?|[?|[?|?]]]]]]]]]; subst c; reflexivity.
Qed.

Lemma ReplaceAll_step c t :
  Ascii.eqb c " " = false ->
  ReplaceAll_4sp_tab (String c t) = String c (ReplaceAll_4sp_tab t).
Proof.
  intros H. destruct t as [|c1 [|c2 [|c3 r]]]; try reflexivity.
  change (ReplaceAll_4sp_tab (String c (String c1 (String c2 (String c3 r)))))
    with (if Ascii.eqb c " " && Ascii.eqb c1 " " && Ascii.eqb c2 " " && Ascii.eqb c3 " "
          then String chr_tab (ReplaceAll_4sp_tab r)
          else String c (ReplaceAll_4sp_tab (String c1 (String c2 (String c3 r))))).
  rewrite H. reflexivity.
Qed.

Lemma ReplaceAll_digits s : all_digits s = true -> ReplaceAll_4sp_tab s = s.
Proof.
  induction s as [|c r IH]; intros H; [reflexivity|].
  cbn [all_digits] in H. apply andb_true_iff in H as [Hc Hr].
  rewrite ReplaceAll_step by (apply digit_neq; auto).
  rewrite IH; auto.
Qed.

Lemma substring_all s : substring 0 (String.length s) s = s.
Proof. induction s; cbn; congruence. Qed.

Lemma lex_body_digit l c :
  byte_at (input l) (index l) = Ok c -> IsDigit c = true ->
  (currentType l =? TokenIdent)%Z = false ->
  (currentType l =? TokenKeyword)%Z = false ->
  lex_body l =
  let? l' := lexInt (set_current l c) in
  Ok (set_column (set_index l' (index l' + 1)) (column l' + 1)).
Proof.
  intros Hb Hc H1 H2. unfold lex_body. rewrite Hb. cbn [res_bind].
  rewrite !(digit_neq c _ Hc) by reflexivity.
  rewrite (digit_not_space c Hc), Hc. cbn [orb].
  change (currentType (set_current l c)) with (currentType l).
  rewrite H1, H2. reflexivity.
Qed.

Lemma lexInt_loop_digits fuel : forall l next,
  (forall i ch, (index l < i)%nat -> String.get i (input l) = Some ch -> IsDigit ch = true) ->
  String.get (index l + 1) (input l) = Some next ->
  (String.length (input l) <= index l + 1 + fuel)%nat ->
  lexInt_loop fuel next l = Ok (set_index l (String.length (input l) - 1)).
Proof.
  induction fuel as [|fuel IH]; intros l next Hall Hget Hlen.
  - apply get_lt in Hget. lia.
  - pose proof (get_lt _ _ _ Hget) as Hlt.
    cbn [lexInt_loop]. rewrite (Hall (index l + 1)%nat next ltac:(lia) Hget).
    unfold peek. change (input (set_index l (index l + 1))) with (input l).
    change (index (set_index l (index l + 1))) with (index l + 1)%nat.
    destruct (Nat.eqb_spec (index l + 1 + 1) (String.length (input l))) as [E|E].
    + cbn [res_bind]. f_equal. f_equal. lia.
    + destruct (get_some (input l) (index l + 1 + 1) ltac:(lia)) as [c' Hc'].
      unfold byte_at. rewrite Hc'. cbn [res_bind].
      rewrite IH.
      * reflexivity.
      * intros i ch Hi. apply Hall. unfold set_index in Hi; cbn [index] in Hi. lia.
      * exact Hc'.
      * unfold set_index; cbn [index input]. lia.
Qed.

Lemma all_digits_get s : all_digits s = true ->
  forall i ch, String.get i s = Some ch -> IsDigit ch = true.
Proof.
  induction s as [|c r IH]; intros H i ch Hg; [discriminate|].
  cbn [all_digits] in H. apply andb_true_iff in H as [Hc Hr].
  destruct i; cbn in Hg; [congruence|]. eauto.
Qed.

Lemma StartLex_digits s :
  all_digits s = true -> s <> "" ->
  StartLex s = Ok [tok NUM s 1 0; tok EOF "" 2 0].
Proof.
  intros Hd Hne. destruct s as [|c r]; [congruence|].
  pose proof Hd as Hd'. cbn [all_digits] in Hd'. apply andb_true_iff in Hd' as [Hc Hr].
  unfold StartLex, StartLex_fuel. cbn [lex_loop].
  rewrite (lex_body_digit _ c) by (auto; reflexivity).
  unfold lexInt, peek.
  destruct r as [|c1 r1].
  - cbn. rewrite (digit_rune c Hc). reflexivity.
  - set (s := String c (String c1 r1)) in *.
    lx_simpl.
    change (0 + 1 =? String.length s)%nat with false.
    change (byte_at s (0 + 1)) with (Ok (A:=ascii) c1). lx_simpl.
    rewrite lexInt_loop_digits.
    + lx_simpl. unfold slice.
      replace (String.length s - 1 + 1)%nat with (String.length s) by (cbn; lia).
      rewrite Nat.leb_refl. cbn [Nat.leb andb]. rewrite Nat.sub_0_r, substring_all.
      lx_simpl.
      replace (String.length s - 1 + 1)%nat with (String.length s) by (cbn; lia).
      rewrite Nat.ltb_irrefl. reflexivity.
    + intros i ch _. apply all_digits_get. exact Hd.
    + reflexivity.
    + cbn. lia.
Qed.

Import parser.

(** Running the parser step by step on a state whose tokens are known. *)
Lemma bind_run {A B} (m : M A) (k : A -> M B) p a p1 r :
  m p = Ok (a, p1) -> k a p1 = r -> bind m k p = r.
Proof. intros H1 H2. unfold bind. rewrite H1. exact H2. Qed.

Lemma parseIntLiteral_some fmt_q p t v :
  current p = Ok (t, p) -> ParseInt0 (Val t) = Some v ->
  parseIntLiteral fmt_q p = Ok (Some (IntLiteral t v), p).
Proof.
  intros Hc Hv. unfold parseIntLiteral.
  eapply bind_run; [exact Hc|]. eapply bind_run; [exact Hc|].
  rewrite Hv. reflexivity.
Qed.

Ltac run H :=
  cbv beta;
  lazymatch goal with
  | |- bind _ _ _ = _ => eapply bind_run; [run H | run H]
  | |- parseIntLiteral _ _ = _ =>
      eapply parseIntLiteral_some; [vm_compute; reflexivity | exact H]
  | |- (if ?b then _ else _) _ = _ =>
      let b' := eval vm_compute in b in change b with b'; cbv iota; run H
  | |- (match ?x with _ => _ end) _ = _ =>
      let x' := eval vm_compute in x in change x with x'; cbv iota; run H
  | |- parse _ _ = _ => unfold parse; run H
  | |- parse_loop _ _ _ _ = _ => cbn [parse_loop]; run H
  | |- parseStmt _ _ = _ => unfold parseStmt; run H
  | |- parseExprStmt _ _ = _ => unfold parseExprStmt; run H
  | |- parseExpr _ _ _ _ = _ => cbn [parseExpr]; run H
  | |- parseExpr_body _ _ _ _ = _ => unfold parseExpr_body; run H
  | |- call_prefix _ _ _ _ = _ => cbn [call_prefix]; run H
  | |- parseExpr_loop _ _ _ _ _ = _ => cbn [parseExpr_loop]; run H
  | |- _ => vm_compute; reflexivity
  end.

Lemma parse_num_token fmt_q s v :
  ParseInt0 s = Some v ->
  exists p,
    parse fmt_q
      (registerFixes (mkParser [tok NUM s 1 0; tok EOF "" 2 0] 0 [] [] [] [] 0))
    = Ok ([ExprStmt (tok NUM s 1 0) (Some (IntLiteral (tok NUM s 1 0) v))], p)
    /\ statements p = [ExprStmt (tok NUM s 1 0) (Some (IntLiteral (tok NUM s 1 0) v))]
    /\ errors p = [].
Proof.
  intros H. eexists. split.
  - run H.
  - split; reflexivity.
Qed.

Lemma literal_roundtrip_canonical fmt_q s :
  all_digits s = true -> canonical s = true -> (value s < 2 ^ 63)%Z ->
  literal_roundtrip fmt_q s.
Proof.
  intros Hd Hc Hv. unfold literal_roundtrip, StartParseRepl.
  rewrite (ReplaceAll_digits s Hd).
  rewrite (StartLex_digits s Hd) by (intros ->; discriminate Hc).
  destruct (parse_num_token fmt_q s (value s) (ParseInt0_decimal s Hd Hc Hv))
    as (p & Hp & Hs & He).
  cbn [res_bind List.length Nat.eqb]. rewrite Hp. cbn [res_bind].
  exists p. repeat split; auto.
  cbn [Expr_String]. rewrite (Itoa_decimal s Hd Hc Hv). reflexivity.
Qed.

End LitFacts.

(** ** The indentation depth across the parser *)

Module DepthFacts.
Import lexer ast parser ParseSpec.

Lemma shifts_ret {A} (a : A) : keeps (ret a).
Proof. intros p a' p' H. inversion H; subst. lia. Qed.

Lemma shifts_bind {A B} d1 d2 d (m : M A) (k : A -> M B) :
  d = (d1 + d2)%Z -> shifts d1 m -> (forall a, shifts d2 (k a)) ->
  shifts d (bind m k).
Proof.
  intros -> Hm Hk p b p'. unfold bind.
  destruct (m p) as [[a p1]| |] eqn:E; try discriminate.
  intros H. apply Hm in E. apply Hk in H. lia.
Qed.

Lemma keeps_bind {A B} (m : M A) (k : A -> M B) :
  keeps m -> (forall a, keeps (k a)) -> keeps (bind m k).
Proof. apply shifts_bind. reflexivity. Qed.

Lemma keeps_out_of_fuel {A} : keeps (@out_of_fuel A).
Proof. intros p a p' H. discriminate. Qed.

Lemma keeps_get : keeps get.
Proof. intros p a p' H. inversion H; subst. lia. Qed.

Lemma shifts_modify d f :
  (forall p, indentLevel (f p) = (indentLevel p + d)%Z) -> shifts d (modify f).
Proof. intros Hf p a p' H. inversion H; subst. apply Hf. Qed.

Lemma keeps_token_at i : keeps (token_at i).
Proof.
  intros p a p'. unfold token_at. destruct (nth_error _ _); intros H;
    inversion H; subst. lia.
Qed.

Create HintDb keeps.
#[local] Hint Resolve shifts_ret keeps_out_of_fuel keeps_get keeps_token_at : keeps.

(** One step through a monadic term: binds, conditionals and matches. *)
Ltac keeps_step :=
  match goal with
  | |- keeps (bind _ _) => apply keeps_bind; [| intros ?]
  | |- keeps (if ?b then _ else _) => destruct b
  | |- keeps (match ?x with _ => _ end) => destruct x
  | |- keeps (modify _) => apply shifts_modify; intros; simpl; lia
  | |- keeps _ => solve [auto with keeps]
  end.
Ltac keeps_auto := repeat keeps_step.

Lemma keeps_current : keeps current.
Proof. unfold current. keeps_auto. Qed.
#[local] Hint Resolve keeps_current : keeps.

Lemma keeps_end : keeps end_.
Proof. unfold end_. keeps_auto. Qed.
#[local] Hint Resolve keeps_end : keeps.

Lemma keeps_peek : keeps peek.
Proof. unfold peek. keeps_auto. Qed.
#[local] Hint Resolve keeps_peek : keeps.

Lemma keeps_next : keeps next.
Proof. unfold next. keeps_auto. Qed.
#[local] Hint Resolve keeps_next : keeps.

Lemma keeps_checkCurrent t : keeps (checkCurrent t).
Proof. unfold checkCurrent. keeps_auto. Qed.

Lemma keeps_checkPeek t : keeps (checkPeek t).
Proof. unfold checkPeek. keeps_auto. Qed.
#[local] Hint Resolve keeps_checkCurrent keeps_checkPeek : keeps.

Lemma keeps_peekError t : keeps (peekError t).
Proof. unfold peekError. keeps_auto. Qed.
#[local] Hint Resolve keeps_peekError : keeps.

Lemma keeps_expectCurrent t : keeps (expectCurrent t).
Proof. unfold expectCurrent. keeps_auto. Qed.

Lemma keeps_expectPeek t : keeps (expectPeek t).
Proof. unfold expectPeek. keeps_auto. Qed.
#[local] Hint Resolve keeps_expectCurrent keeps_expectPeek : keeps.

Lemma keeps_currentPrec : keeps currentPrec.
Proof. unfold currentPrec. keeps_auto. Qed.

Lemma keeps_peekPrec : keeps peekPrec.
Proof. unfold peekPrec. keeps_auto. Qed.

Lemma keeps_budget : keeps budget.
Proof. unfold budget. keeps_auto. Qed.
#[local] Hint Resolve keeps_currentPrec keeps_peekPrec keeps_budget : keeps.

Lemma keeps_skip_while cond fuel : keeps cond -> keeps (skip_while cond fuel).
Proof.
  intros Hc. induction fuel as [|fuel IH]; simpl; keeps_auto.
Qed.
#[local] Hint Resolve keeps_skip_while : keeps.

Section Handlers.

Variable fmt_q : string -> string.
Variable parseExpr_rec : Z -> M (option Expr).
Hypothesis keeps_rec : forall prec, keeps (parseExpr_rec prec).
#[local] Hint Resolve keeps_rec : keeps.

Lemma keeps_parseIdent : keeps parseIdent.
Proof. unfold parseIdent. keeps_auto. Qed.

Lemma keeps_parseIntLiteral : keeps (parseIntLiteral fmt_q).
Proof. unfold parseIntLiteral. keeps_auto. Qed.

Lemma keeps_parseStrLiteral : keeps parseStrLiteral.
Proof. unfold parseStrLiteral. keeps_auto. Qed.

Lemma keeps_parsePrefixExpr : keeps (parsePrefixExpr parseExpr_rec).
Proof. unfold parsePrefixExpr. keeps_auto. Qed.

Lemma keeps_parseInfixExpr l : keeps (parseInfixExpr parseExpr_rec l).
Proof. unfold parseInfixExpr. keeps_auto. Qed.

Lemma keeps_parseGroupingExpr : keeps (parseGroupingExpr parseExpr_rec).
Proof. unfold parseGroupingExpr. keeps_auto. Qed.

Lemma keeps_parseCallArgs_loop fuel args :
  keeps (parseCallArgs_loop parseExpr_rec fuel args).
Proof.
  revert args. induction fuel as [|fuel IH]; intros args; simpl; keeps_auto.
Qed.
#[local] Hint Resolve keeps_parseCallArgs_loop : keeps.

Lemma keeps_parseCallArgs : keeps (parseCallArgs parseExpr_rec).
Proof. unfold parseCallArgs. keeps_auto. Qed.
#[local] Hint Resolve keeps_parseCallArgs : keeps.

Lemma keeps_parseCallExpr fn : keeps (parseCallExpr parseExpr_rec fn).
Proof. unfold parseCallExpr. keeps_auto. Qed.

Lemma keeps_parseVarStmt : keeps (parseVarStmt parseExpr_rec).
Proof. unfold parseVarStmt. keeps_auto. apply keeps_skip_while. keeps_auto. Qed.

Lemma keeps_parseExprStmt : keeps (parseExprStmt parseExpr_rec).
Proof. unfold parseExprStmt. keeps_auto. Qed.
#[local] Hint Resolve keeps_parseVarStmt keeps_parseExprStmt : keeps.

Lemma keeps_parseStmt : keeps (parseStmt parseExpr_rec).
Proof. unfold parseStmt. keeps_auto. Qed.
#[local] Hint Resolve keeps_parseStmt : keeps.

Lemma keeps_parseBlockStmt_loop fuel stmts :
  keeps (parseBlockStmt_loop parseExpr_rec fuel stmts).
Proof.
  revert stmts. induction fuel as [|fuel IH]; intros stmts; simpl; keeps_auto;
    try apply IH; apply keeps_skip_while; keeps_auto.
Qed.

(** The depth goes up by one before the statements of the block and down by
    one after them; nothing in between moves it. *)
Lemma keeps_parseBlockStmt : keeps (parseBlockStmt parseExpr_rec).
Proof.
  unfold parseBlockStmt.
  do 4 (apply keeps_bind; [auto with keeps | intros ?]).
  apply (shifts_bind 1 (-1)); [reflexivity | |intros ?].
  { apply shifts_modify. intros; simpl; lia. }
  apply (shifts_bind 0 (-1)); [reflexivity | apply keeps_current |intros ?].
  apply (shifts_bind 0 (-1)); [reflexivity | apply keeps_parseBlockStmt_loop |intros ?].
  apply (shifts_bind (-1) 0); [reflexivity | | intros ?; apply shifts_ret].
  apply shifts_modify. intros; simpl; lia.
Qed.
#[local] Hint Resolve keeps_parseBlockStmt : keeps.

Lemma keeps_parseIfExpr : keeps (parseIfExpr parseExpr_rec).
Proof. unfold parseIfExpr. keeps_auto. Qed.

Lemma keeps_parseWhileExpr : keeps (parseWhileExpr parseExpr_rec).
Proof. unfold parseWhileExpr. keeps_auto. Qed.

Lemma keeps_call_prefix fn : keeps (call_prefix fmt_q parseExpr_rec fn).
Proof.
  destruct fn; simpl;
    auto using keeps_parseIdent, keeps_parseIntLiteral, keeps_parseStrLiteral,
      keeps_parsePrefixExpr, keeps_parseGroupingExpr, keeps_parseIfExpr,
      keeps_parseWhileExpr.
Qed.

Lemma keeps_call_infix fn l : keeps (call_infix parseExpr_rec fn l).
Proof.
  destruct fn; simpl; auto using keeps_parseInfixExpr, keeps_parseCallExpr.
Qed.
#[local] Hint Resolve keeps_call_prefix keeps_call_infix : keeps.

Lemma keeps_parseExpr_loop fuel prec left :
  keeps (parseExpr_loop parseExpr_rec fuel prec left).
Proof.
  revert left. induction fuel as [|fuel IH]; intros left; simpl; keeps_auto.
Qed.
#[local] Hint Resolve keeps_parseExpr_loop : keeps.

Lemma keeps_parseExpr_body prec : keeps (parseExpr_body fmt_q parseExpr_rec prec).
Proof. unfold parseExpr_body. keeps_auto. Qed.

End Handlers.

Lemma keeps_parseExpr fmt_q fuel prec : keeps (parseExpr fmt_q fuel prec).
Proof.
  revert prec. induction fuel as [|fuel IH]; intros prec; simpl.
  - apply keeps_out_of_fuel.
  - apply keeps_parseExpr_body. exact IH.
Qed.

End DepthFacts.

(** ** The parser returns on every well-formed token sequence *)

Module ReturnFacts.
Import golib ast parser LexSpec ParseSpec.
#[local] Open Scope parser_scope.

Lemma wp_ret {A} (a : A) (Q : A -> Parser -> Prop) p : Q a p -> wp (ret a) Q p.
Proof. intros H. exists a, p. auto. Qed.

Lemma wp_bind {A B} (m : M A) (k : A -> M B) (Q : B -> Parser -> Prop) p :
  wp m (fun a p' => wp (k a) Q p') p -> wp (bind m k) Q p.
Proof.
  intros (a & p1 & E & b & p2 & E2 & H). exists b, p2. unfold bind. rewrite E. auto.
Qed.

Lemma wp_mono {A} (m : M A) (Q Q' : A -> Parser -> Prop) p :
  wp m Q p -> (forall a p', Q a p' -> Q' a p') -> wp m Q' p.
Proof. intros (a & p1 & E & H) HQ. exists a, p1. auto. Qed.

Lemma wp_get Q p : Q p p -> wp get Q p.
Proof. intros H. exists p, p. auto. Qed.

Lemma wp_modify f (Q : unit -> Parser -> Prop) p : Q tt (f p) -> wp (modify f) Q p.
Proof. intros H. exists tt, (f p). auto. Qed.

(** A cursor of the parser over a well-formed token sequence: [n + 1]
    tokens, of which the last one, and only it, is the end-of-input token. *)
Section Tokens.

Variable toks : list lexer.Token.
Variable n : nat.
Hypothesis toks_length : List.length toks = S n.
Hypothesis toks_eof : forall i t,
  nth_error toks i = Some t -> ((lexer.Name t =? lexer.EOF)%string = true <-> i = n).

#[local] Notation Inv := (on_tokens toks n).
#[local] Notation step := (ParseSpec.step toks n).
#[local] Notation step_by := (ParseSpec.step_by toks n).

Lemma step_refl p : Inv p -> step p p.
Proof. intros H. repeat split; try apply H; lia. Qed.

Lemma step_trans p1 p2 p3 : step p1 p2 -> step p2 p3 -> step p1 p3.
Proof. intros (A1 & A2 & A3) (B1 & B2 & B3). repeat split; try apply B1; lia. Qed.

Ltac inv_tac :=
  repeat match goal with
         | H : step _ _ |- _ => destruct H as (? & ? & ?)
         | H : Inv _ |- _ => destruct H as (? & ? & ?)
         | H : _ /\ _ |- _ => destruct H
         end;
  subst; unfold ParseSpec.step, on_tokens; cbn [tokens index indentLevel prefixParseFns
                                set_index set_errors set_statements set_indentLevel];
  repeat split; try assumption; try lia.

Lemma token_at_in i p :
  tokens p = toks -> (i <= n)%nat ->
  exists t, nth_error toks i = Some t /\ token_at i p = Ok (t, p).
Proof.
  intros Ht Hi. destruct (nth_error toks i) as [t|] eqn:E.
  - exists t. split; [reflexivity|]. unfold token_at. rewrite Ht, E. reflexivity.
  - apply nth_error_None in E. lia.
Qed.

Lemma wp_current (Q : lexer.Token -> Parser -> Prop) p :
  Inv p -> (forall t, nth_error toks (index p) = Some t -> Q t p) -> wp current Q p.
Proof.
  intros (Ht & Hi & Hm) HQ. destruct (token_at_in (index p) p Ht Hi) as (t & E & Et).
  exists t, p. split; [|auto]. unfold current, bind, get. exact Et.
Qed.

Lemma wp_end (Q : bool -> Parser -> Prop) p :
  Inv p -> (forall b, (b = true <-> index p = n) -> Q b p) -> wp end_ Q p.
Proof.
  intros Hv HQ. unfold end_. apply wp_bind. apply wp_current; [assumption|].
  intros t Ht. apply wp_ret. apply HQ. apply toks_eof. assumption.
Qed.

Lemma wp_peek (Q : lexer.Token -> Parser -> Prop) p :
  Inv p ->
  (forall t, (index p = n -> t = lexer.zeroToken) -> Q t p) -> wp peek Q p.
Proof.
  intros Hv HQ. unfold peek. apply wp_bind. apply wp_end; [assumption|].
  intros [|] Hb; cbn [negb].
  - apply wp_ret. apply HQ. reflexivity.
  - apply wp_bind. apply wp_get.
    assert (index p <> n) by (intros E; apply Hb in E; discriminate).
    destruct Hv as (Ht & Hi & Hm).
    destruct (token_at_in (index p + 1) p Ht ltac:(lia)) as (t & E & Et).
    exists t, p. split; [exact Et|]. apply HQ. intros; contradiction.
Qed.

Lemma wp_next (Q : unit -> Parser -> Prop) p :
  Inv p ->
  (forall p', step p p' -> ((index p < n)%nat -> (index p < index p')%nat) -> Q tt p') ->
  wp next Q p.
Proof.
  intros Hv HQ. unfold next. apply wp_bind. apply wp_end; [assumption|].
  intros [|] Hb; cbn [negb].
  - apply wp_ret. apply HQ; [apply step_refl; assumption|].
    intros Hlt. assert (index p = n) by (apply Hb; reflexivity). lia.
  - assert (index p <> n) by (intros E; apply Hb in E; discriminate).
    apply wp_modify. apply HQ; [inv_tac|]. cbn. lia.
Qed.

Lemma wp_checkCurrent t (Q : bool -> Parser -> Prop) p :
  Inv p -> (forall b, (b = true -> (index p < n)%nat) -> Q b p) ->
  wp (checkCurrent t) Q p.
Proof.
  intros Hv HQ. unfold checkCurrent. apply wp_bind. apply wp_end; [assumption|].
  intros [|] Hb.
  - apply wp_ret. apply HQ. discriminate.
  - assert (index p <> n) by (intros E; apply Hb in E; discriminate).
    apply wp_bind. apply wp_current; [assumption|]. intros c _.
    apply wp_ret. apply HQ. intros _. destruct Hv as (_ & ? & _). lia.
Qed.

Lemma wp_checkPeek t (Q : bool -> Parser -> Prop) p :
  Inv p -> (forall b, (b = true -> (index p < n)%nat) -> Q b p) ->
  wp (checkPeek t) Q p.
Proof.
  intros Hv HQ. unfold checkPeek. apply wp_bind. apply wp_end; [assumption|].
  intros [|] Hb.
  - apply wp_ret. apply HQ. discriminate.
  - assert (index p <> n) by (intros E; apply Hb in E; discriminate).
    apply wp_bind. apply wp_peek; [assumption|]. intros c _.
    apply wp_ret. apply HQ. intros _. destruct Hv as (_ & ? & _). lia.
Qed.

Lemma wp_peekError t (Q : unit -> Parser -> Prop) p :
  Inv p -> (forall p', step p p' -> Q tt p') -> wp (peekError t) Q p.
Proof.
  intros Hv HQ. unfold peekError.
  apply wp_bind. apply wp_peek; [assumption|]. intros pk _.
  apply wp_bind. apply wp_peek; [assumption|]. intros pk' _.
  apply wp_modify. apply HQ. inv_tac.
Qed.

Lemma wp_expectCurrent t (Q : bool -> Parser -> Prop) p :
  Inv p -> (forall b p', step p p' -> Q b p') -> wp (expectCurrent t) Q p.
Proof.
  intros Hv HQ. unfold expectCurrent.
  apply wp_bind. apply wp_checkCurrent; [assumption|]. intros [|] _.
  - apply wp_bind. apply wp_next; [assumption|]. intros p' Hs _.
    apply wp_ret. auto.
  - apply wp_ret. apply HQ. apply step_refl. assumption.
Qed.

Lemma wp_expectPeek t (Q : bool -> Parser -> Prop) p :
  Inv p -> (forall b p', step p p' -> Q b p') -> wp (expectPeek t) Q p.
Proof.
  intros Hv HQ. unfold expectPeek.
  apply wp_bind. apply wp_checkPeek; [assumption|]. intros [|] _.
  - apply wp_bind. apply wp_next; [assumption|]. intros p' Hs _.
    apply wp_ret. auto.
  - apply wp_bind. apply wp_peekError; [assumption|]. intros p' Hs.
    apply wp_ret. auto.
Qed.

Lemma prec_of_ge t : (LOWEST <= prec_of t)%Z.
Proof.
  unfold prec_of, precedence. cbn [map_get].
  repeat match goal with
         | |- context [if ?b then _ else _] => destruct b; [cbv; discriminate|]
         end.
  cbv; discriminate.
Qed.

Lemma wp_currentPrec (Q : Z -> Parser -> Prop) p :
  Inv p -> (forall z, (LOWEST <= z)%Z -> Q z p) -> wp currentPrec Q p.
Proof.
  intros Hv HQ. unfold currentPrec. apply wp_bind. apply wp_current; [assumption|].
  intros c _. apply wp_ret. apply HQ. apply prec_of_ge.
Qed.

Lemma wp_peekPrec (Q : Z -> Parser -> Prop) p :
  Inv p -> (forall z, ((LOWEST < z)%Z -> (index p < n)%nat) -> Q z p) ->
  wp peekPrec Q p.
Proof.
  intros Hv HQ. unfold peekPrec. apply wp_bind. apply wp_peek; [assumption|].
  intros c Hc. apply wp_ret. apply HQ. intros Hz.
  destruct (Nat.eq_dec (index p) n) as [E|E].
  - rewrite (Hc E) in Hz. cbv in Hz. discriminate.
  - destruct Hv as (_ & ? & _). lia.
Qed.

Lemma wp_budget (Q : nat -> Parser -> Prop) p :
  Inv p -> Q (S n) p -> wp budget Q p.
Proof.
  intros (Ht & _) HQ. unfold budget. apply wp_bind, wp_get, wp_ret.
  rewrite Ht, toks_length. exact HQ.
Qed.

Lemma wp_skip_while cond fuel : forall (Q : unit -> Parser -> Prop) p,
  (forall (Q : bool -> Parser -> Prop) p,
      Inv p -> (forall b, (b = true -> (index p < n)%nat) -> Q b p) -> wp cond Q p) ->
  Inv p -> (n <= index p + fuel)%nat ->
  (forall p', step p p' -> Q tt p') ->
  wp (skip_while cond fuel) Q p.
Proof.
  induction fuel as [|fuel IH]; intros Q p Hc Hv Hf HQ; cbn [skip_while];
    apply wp_bind; apply Hc; try assumption; intros [|] Hb;
    try (apply wp_ret; apply HQ; apply step_refl; assumption).
  - specialize (Hb eq_refl). exfalso. lia.
  - specialize (Hb eq_refl).
    apply wp_bind. apply wp_next; [assumption|]. intros p' Hs Hadv.
    apply IH; [assumption|apply Hs| |].
    + specialize (Hadv Hb). lia.
    + intros p'' Hs'. apply HQ. eapply step_trans; eauto.
Qed.

Section Handlers.

Variable fmt_q : string -> string.
Variable parseExpr_rec : Z -> M (option Expr).

(** The recursive calls return from every cursor position at or after
    [lo]. *)
Variable lo : nat.
Hypothesis rec_returns : forall prec (Q : option Expr -> Parser -> Prop) p,
  Inv p -> (lo <= index p)%nat -> (LOWEST <= prec)%Z ->
  (forall e p', step p p' -> Q e p') ->
  wp (parseExpr_rec prec) Q p.

Ltac done := apply wp_ret; eauto using step_refl, step_trans.

Lemma wp_parseIdent (Q : option Expr -> Parser -> Prop) p :
  Inv p -> (forall e p', step p p' -> Q e p') -> wp parseIdent Q p.
Proof.
  intros Hv HQ. unfold parseIdent.
  apply wp_bind, wp_current; [assumption|]. intros t _.
  apply wp_bind, wp_current; [assumption|]. intros c _. done.
Qed.

Lemma wp_parseStrLiteral (Q : option Expr -> Parser -> Prop) p :
  Inv p -> (forall e p', step p p' -> Q e p') -> wp parseStrLiteral Q p.
Proof.
  intros Hv HQ. unfold parseStrLiteral.
  apply wp_bind, wp_current; [assumption|]. intros t _.
  apply wp_bind, wp_current; [assumption|]. intros c _. done.
Qed.

Lemma wp_parseIntLiteral (Q : option Expr -> Parser -> Prop) p :
  Inv p -> (forall e p', step p p' -> Q e p') -> wp (parseIntLiteral fmt_q) Q p.
Proof.
  intros Hv HQ. unfold parseIntLiteral.
  apply wp_bind, wp_current; [assumption|]. intros t _.
  apply wp_bind, wp_current; [assumption|]. intros c _.
  destruct (ParseInt0 (lexer.Val c)); [done|].
  apply wp_bind, wp_current; [assumption|]. intros c' _.
  apply wp_bind, wp_modify. apply wp_ret. apply HQ. inv_tac.
Qed.

Lemma wp_parsePrefixExpr (Q : option Expr -> Parser -> Prop) p :
  Inv p -> (index p < n)%nat -> (lo <= S (index p))%nat ->
  (forall e p', step p p' -> Q e p') -> wp (parsePrefixExpr parseExpr_rec) Q p.
Proof.
  intros Hv Hlt Hlo HQ. unfold parsePrefixExpr.
  apply wp_bind, wp_current; [assumption|]. intros t _.
  apply wp_bind, wp_current; [assumption|]. intros c _.
  apply wp_bind, wp_next; [assumption|]. intros p1 H1 A1. specialize (A1 Hlt).
  apply wp_bind, rec_returns; [apply H1|lia|cbv; discriminate|]. intros e p2 H2.
  done.
Qed.

Lemma wp_parseInfixExpr l (Q : option Expr -> Parser -> Prop) p :
  Inv p -> (lo <= index p)%nat ->
  (forall e p', step p p' -> Q e p') -> wp (parseInfixExpr parseExpr_rec l) Q p.
Proof.
  intros Hv Hlo HQ. unfold parseInfixExpr.
  apply wp_bind, wp_current; [assumption|]. intros t _.
  apply wp_bind, wp_current; [assumption|]. intros c _.
  apply wp_bind, wp_currentPrec; [assumption|]. intros prec Hprec.
  apply wp_bind, wp_next; [assumption|]. intros p1 H1 _.
  apply wp_bind, rec_returns; [apply H1|destruct H1 as (_ & ? & _); lia|assumption|].
  intros e p2 H2. done.
Qed.

Lemma wp_parseGroupingExpr (Q : option Expr -> Parser -> Prop) p :
  Inv p -> (index p < n)%nat -> (lo <= S (index p))%nat ->
  (forall e p', step p p' -> Q e p') -> wp (parseGroupingExpr parseExpr_rec) Q p.
Proof.
  intros Hv Hlt Hlo HQ. unfold parseGroupingExpr.
  apply wp_bind, wp_next; [assumption|]. intros p1 H1 A1. specialize (A1 Hlt).
  apply wp_bind, rec_returns; [apply H1|lia|cbv; discriminate|]. intros e p2 H2.
  apply wp_bind, wp_expectPeek; [apply H2|]. intros b p3 H3.
  destruct b; cbn [negb]; done.
Qed.

Lemma wp_parseCallArgs_loop fuel : forall args (Q : list (option Expr) -> Parser -> Prop) p,
  Inv p -> (lo <= index p)%nat -> (n <= index p + fuel)%nat ->
  (forall a p', step p p' -> Q a p') ->
  wp (parseCallArgs_loop parseExpr_rec fuel args) Q p.
Proof.
  induction fuel as [|fuel IH]; intros args Q p Hv Hlo Hf HQ; cbn [parseCallArgs_loop];
    apply wp_bind, wp_checkPeek; try assumption; intros [|] Hb; try done.
  - specialize (Hb eq_refl). exfalso. lia.
  - specialize (Hb eq_refl).
    apply wp_bind, wp_next; [assumption|]. intros p1 H1 A1. specialize (A1 Hb).
    apply wp_bind, wp_next; [apply H1|]. intros p2 H2 _.
    assert (H12 : step p p2) by eauto using step_trans.
    apply wp_bind, rec_returns;
      [apply H2|destruct H2 as (_ & ? & _); lia|cbv; discriminate|].
    intros e p3 H3.
    apply IH; [apply H3| | |].
    + destruct H2 as (_ & ? & _), H3 as (_ & ? & _). lia.
    + destruct H2 as (_ & ? & _), H3 as (_ & ? & _). lia.
    + intros a p4 H4. apply HQ. eauto using step_trans.
Qed.

Lemma wp_parseCallArgs (Q : list (option Expr) -> Parser -> Prop) p :
  Inv p -> (lo <= index p)%nat ->
  (forall a p', step p p' -> Q a p') -> wp (parseCallArgs parseExpr_rec) Q p.
Proof.
  intros Hv Hlo HQ. unfold parseCallArgs.
  apply wp_bind, wp_checkPeek; [assumption|]. intros [|] _.
  - apply wp_bind, wp_next; [assumption|]. intros p1 H1 _. done.
  - apply wp_bind, wp_next; [assumption|]. intros p1 H1 _.
    apply wp_bind, rec_returns;
      [apply H1|destruct H1 as (_ & ? & _); lia|cbv; discriminate|].
    intros e p2 H2.
    apply wp_bind, wp_budget; [apply H2|].
    apply wp_bind, wp_parseCallArgs_loop; [apply H2| | |].
    + destruct H1 as (_ & ? & _), H2 as (_ & ? & _). lia.
    + lia.
    + intros args p3 H3.
      apply wp_bind, wp_expectPeek; [apply H3|]. intros b p4 H4.
      destruct b; cbn [negb]; apply wp_ret; apply HQ; eauto using step_trans.
Qed.

Lemma wp_parseCallExpr fn (Q : option Expr -> Parser -> Prop) p :
  Inv p -> (lo <= index p)%nat ->
  (forall e p', step p p' -> Q e p') -> wp (parseCallExpr parseExpr_rec fn) Q p.
Proof.
  intros Hv Hlo HQ. unfold parseCallExpr.
  apply wp_bind, wp_current; [assumption|]. intros t _.
  apply wp_bind, wp_parseCallArgs; [assumption|assumption|]. intros a p1 H1. done.
Qed.

Lemma wp_parseVarStmt (Q : option Stmt -> Parser -> Prop) p :
  Inv p -> (lo <= index p)%nat ->
  (forall s p', step p p' -> Q s p') -> wp (parseVarStmt parseExpr_rec) Q p.
Proof.
  intros Hv Hlo HQ. unfold parseVarStmt.
  apply wp_bind, wp_current; [assumption|]. intros t _.
  apply wp_bind, wp_current; [assumption|]. intros t1 _.
  apply wp_bind, wp_current; [assumption|]. intros t2 _.
  apply wp_bind, wp_expectPeek; [assumption|]. intros b p1 H1.
  destruct b; cbn [negb]; [|done].
  apply wp_bind, wp_next; [apply H1|]. intros p2 H2 _.
  apply wp_bind, rec_returns;
    [apply H2|destruct H1 as (_ & ? & _), H2 as (_ & ? & _); lia|cbv; discriminate|].
  intros e p3 H3.
  apply wp_bind, wp_budget; [apply H3|].
  apply wp_bind, wp_skip_while; [|apply H3|lia|].
  - intros Q' p' Hv' HQ'.
    apply wp_bind, wp_checkCurrent; [assumption|]. intros [|] _; cbn [negb].
    + apply wp_ret. apply HQ'. discriminate.
    + apply wp_bind, wp_end; [assumption|]. intros e' He'.
      apply wp_ret. apply HQ'. destruct e'; cbn [negb]; [discriminate|].
      intros _. destruct Hv' as (_ & ? & _).
      assert (index p' <> n) by (intros E; apply He' in E; discriminate). lia.
  - intros p4 H4. apply wp_ret, HQ. eauto using step_trans.
Qed.

Lemma wp_parseExprStmt (Q : Stmt -> Parser -> Prop) p :
  Inv p -> (lo <= index p)%nat ->
  (forall s p', step p p' -> Q s p') -> wp (parseExprStmt parseExpr_rec) Q p.
Proof.
  intros Hv Hlo HQ. unfold parseExprStmt.
  apply wp_bind, wp_current; [assumption|]. intros t _.
  apply wp_bind, rec_returns; [assumption|assumption|cbv; discriminate|].
  intros e p1 H1. done.
Qed.

Lemma wp_parseStmt (Q : option Stmt -> Parser -> Prop) p :
  Inv p -> (lo <= index p)%nat ->
  (forall s p', step p p' -> Q s p') -> wp (parseStmt parseExpr_rec) Q p.
Proof.
  intros Hv Hlo HQ. unfold parseStmt.
  apply wp_bind, wp_current; [assumption|]. intros c _.
  destruct (lexer.Name c =? lexer.IDENT)%string.
  - apply wp_bind, wp_peek; [assumption|]. intros pk _.
    destruct (lexer.Name pk =? lexer.EQUALS)%string.
    + apply wp_bind, wp_parseVarStmt; [assumption|assumption|]. intros s p1 H1. done.
    + apply wp_bind, wp_parseExprStmt; [assumption|assumption|]. intros s p1 H1. done.
  - destruct (lexer.Name c =? lexer.NL)%string; [done|].
    apply wp_bind, wp_parseExprStmt; [assumption|assumption|]. intros s p1 H1. done.
Qed.

Lemma wp_parseBlockStmt_loop fuel : forall stmts (Q : list Stmt -> Parser -> Prop) p,
  Inv p -> (lo <= index p)%nat -> (n <= index p + fuel)%nat ->
  (forall s p', step p p' -> Q s p') ->
  wp (parseBlockStmt_loop parseExpr_rec fuel stmts) Q p.
Proof.
  induction fuel as [|fuel IH]; intros stmts Q p Hv Hlo Hf HQ;
    cbn [parseBlockStmt_loop];
    apply wp_bind, wp_get; apply wp_bind, wp_current; try assumption; intros c _;
    apply wp_bind;
    (apply wp_mono with
       (Q := fun (e : bool) p' => p' = p /\ (e = true -> (index p < n)%nat));
     [ destruct (4 * indentLevel p <=? lexer.GetCol c)%Z;
       [ apply wp_bind, wp_end; [assumption|]; intros e He; apply wp_ret;
         split; [reflexivity|]; destruct e; cbn [negb]; [discriminate|];
         intros _; destruct Hv as (_ & ? & _);
         assert (index p <> n) by (intros E; apply He in E; discriminate); lia
       | apply wp_ret; split; [reflexivity|discriminate] ]
     | ]);
    intros [|] p' [-> Hb]; try done.
  - specialize (Hb eq_refl). exfalso. lia.
  - specialize (Hb eq_refl).
    apply wp_bind, wp_parseStmt; [assumption|assumption|]. intros s p1 H1.
    apply wp_bind, wp_next; [apply H1|]. intros p2 H2 A2.
    apply wp_bind, wp_budget; [apply H2|].
    apply wp_bind, wp_skip_while; [|apply H2|lia|].
    + intros Q' q Hq HQ'.
      apply wp_bind, wp_checkCurrent; [assumption|]. intros [|] Hnl.
      * apply wp_ret. auto.
      * apply wp_checkCurrent; assumption.
    + intros p3 H3.
      assert (H13 : step p p3) by eauto using step_trans.
      apply IH; [apply H3| | |].
      * destruct H13 as (_ & ? & _). lia.
      * destruct H1 as (_ & ? & _), H2 as (I2 & ? & _), H3 as (_ & ? & _).
        destruct I2 as (_ & ? & _).
        destruct (Nat.eq_dec (index p1) n); [lia|]. specialize (A2 ltac:(lia)). lia.
      * intros s' p4 H4. apply HQ. eauto using step_trans.
Qed.

Lemma wp_parseBlockStmt (Q : BlockStmt -> Parser -> Prop) p :
  Inv p -> (lo <= index p)%nat ->
  (forall b p', step p p' -> Q b p') -> wp (parseBlockStmt parseExpr_rec) Q p.
Proof.
  intros Hv Hlo HQ. unfold parseBlockStmt.
  apply wp_bind, wp_next; [assumption|]. intros p1 H1 _.
  apply wp_bind, wp_budget; [apply H1|].
  apply wp_bind, wp_skip_while; [intros; apply wp_checkPeek; assumption|apply H1|lia|].
  intros p2 H2.
  apply wp_bind, wp_next; [apply H2|]. intros p3 H3 _.
  assert (H03 : step p p3) by eauto using step_trans.
  apply wp_bind, wp_modify.
  set (p4 := set_indentLevel p3 (indentLevel p3 + 1)).
  assert (H4 : step_by 1 p p4).
  { destruct H03 as ((? & ? & ?) & ? & ?). repeat split; cbn; auto; lia. }
  apply wp_bind, wp_current; [apply H4|]. intros t _.
  apply wp_bind, wp_parseBlockStmt_loop; [apply H4| | |].
  - destruct H4 as (_ & ? & _). lia.
  - lia.
  - intros stmts p5 H5.
    apply wp_bind, wp_modify. apply wp_ret, HQ.
    destruct H4 as (_ & ? & ?), H5 as ((? & ? & ?) & ? & ?).
    repeat split; cbn; auto; lia.
Qed.

Lemma wp_parseIfExpr (Q : option Expr -> Parser -> Prop) p :
  Inv p -> (index p < n)%nat -> (lo <= S (index p))%nat ->
  (forall e p', step p p' -> Q e p') -> wp (parseIfExpr parseExpr_rec) Q p.
Proof.
  intros Hv Hlt Hlo HQ. unfold parseIfExpr.
  apply wp_bind, wp_current; [assumption|]. intros t _.
  apply wp_bind, wp_next; [assumption|]. intros p1 H1 A1. specialize (A1 Hlt).
  apply wp_bind, rec_returns; [apply H1|lia|cbv; discriminate|]. intros c p2 H2.
  assert (H02 : step p p2) by eauto using step_trans.
  apply wp_bind, wp_expectPeek; [apply H2|]. intros b p3 H3.
  assert (H03 : step p p3) by eauto using step_trans.
  destruct b; cbn [negb]; [|done].
  apply wp_bind, wp_expectPeek; [apply H3|]. intros b p4 H4.
  assert (H04 : step p p4) by eauto using step_trans.
  destruct b; cbn [negb]; [|done].
  assert (L4 : (lo <= index p4)%nat).
  { destruct H2 as (_ & ? & _), H3 as (_ & ? & _), H4 as (_ & ? & _). lia. }
  apply wp_bind, wp_parseBlockStmt; [apply H4|exact L4|]. intros pass p5 H5.
  assert (H05 : step p p5) by eauto using step_trans.
  apply wp_bind, wp_expectCurrent; [apply H5|]. intros b p6 H6.
  assert (H06 : step p p6) by eauto using step_trans.
  destruct b; cbn [negb]; [|done].
  apply wp_bind, wp_parseBlockStmt; [apply H6| |].
  - destruct H5 as (_ & ? & _), H6 as (_ & ? & _). lia.
  - intros fail p7 H7. done.
Qed.

Lemma wp_parseWhileExpr (Q : option Expr -> Parser -> Prop) p :
  Inv p -> (index p < n)%nat -> (lo <= S (index p))%nat ->
  (forall e p', step p p' -> Q e p') -> wp (parseWhileExpr parseExpr_rec) Q p.
Proof.
  intros Hv Hlt Hlo HQ. unfold parseWhileExpr.
  apply wp_bind, wp_current; [assumption|]. intros t _.
  apply wp_bind, wp_next; [assumption|]. intros p1 H1 A1. specialize (A1 Hlt).
  apply wp_bind, rec_returns; [apply H1|lia|cbv; discriminate|]. intros c p2 H2.
  assert (H02 : step p p2) by eauto using step_trans.
  apply wp_bind, wp_expectPeek; [apply H2|]. intros b p3 H3.
  assert (H03 : step p p3) by eauto using step_trans.
  destruct b; cbn [negb]; [|done].
  apply wp_bind, wp_expectPeek; [apply H3|]. intros b p4 H4.
  assert (H04 : step p p4) by eauto using step_trans.
  destruct b; cbn [negb]; [|done].
  apply wp_bind, wp_parseBlockStmt; [apply H4| |].
  - destruct H2 as (_ & ? & _), H3 as (_ & ? & _), H4 as (_ & ? & _). lia.
  - intros body p5 H5. done.
Qed.

Lemma wp_call_prefix fn (Q : option Expr -> Parser -> Prop) p :
  Inv p -> (index p < n)%nat -> (lo <= S (index p))%nat ->
  (forall e p', step p p' -> Q e p') ->
  wp (call_prefix fmt_q parseExpr_rec fn) Q p.
Proof.
  intros Hv Hlt Hlo HQ. destruct fn; cbn [call_prefix].
  - apply wp_parseIdent; assumption.
  - apply wp_parseIntLiteral; assumption.
  - apply wp_parseStrLiteral; assumption.
  - apply wp_parsePrefixExpr; assumption.
  - apply wp_parseGroupingExpr; assumption.
  - apply wp_parseIfExpr; assumption.
  - apply wp_parseWhileExpr; assumption.
Qed.

Lemma wp_call_infix fn l (Q : option Expr -> Parser -> Prop) p :
  Inv p -> (lo <= index p)%nat ->
  (forall e p', step p p' -> Q e p') ->
  wp (call_infix parseExpr_rec fn l) Q p.
Proof.
  intros Hv Hlo HQ. destruct fn; cbn [call_infix].
  - apply wp_parseInfixExpr; assumption.
  - apply wp_parseCallExpr; assumption.
Qed.

Lemma wp_parseExpr_loop fuel : forall prec left (Q : option Expr -> Parser -> Prop) p,
  Inv p -> (LOWEST <= prec)%Z -> (lo <= S (index p))%nat -> (n <= index p + fuel)%nat ->
  (forall e p', step p p' -> Q e p') ->
  wp (parseExpr_loop parseExpr_rec fuel prec left) Q p.
Proof.
  induction fuel as [|fuel IH]; intros prec left Q p Hv Hprec Hlo Hf HQ;
    cbn [parseExpr_loop];
    apply wp_bind, wp_checkCurrent; try assumption; intros nl _;
    apply wp_bind;
    (apply wp_mono with
       (Q := fun (go : bool) p' => p' = p /\ (go = true -> (index p < n)%nat));
     [ destruct nl; cbn [negb];
       [ apply wp_ret; split; [reflexivity|discriminate]
       | apply wp_bind, wp_peekPrec; [assumption|]; intros pp Hpp; apply wp_ret;
         split; [reflexivity|]; intros Hgo; apply Z.ltb_lt in Hgo; apply Hpp; lia ]
     | ]);
    intros [|] p' [-> Hgo]; try done;
    specialize (Hgo eq_refl);
    apply wp_bind, wp_peek; try assumption; intros pk _;
    apply wp_bind, wp_get;
    destruct (map_get (infixParseFns p) (lexer.Name pk)) as [fn|]; try done.
  - exfalso. lia.
  - apply wp_bind, wp_next; [assumption|]. intros p1 H1 A1. specialize (A1 Hgo).
    apply wp_bind, wp_call_infix; [apply H1|lia|]. intros e p2 H2.
    apply IH; [apply H2|assumption| | |].
    + destruct H2 as (_ & ? & _). lia.
    + destruct H2 as (_ & ? & _). lia.
    + intros e' p3 H3. apply HQ. eauto using step_trans.
Qed.

Lemma wp_parseExpr_body prec (Q : option Expr -> Parser -> Prop) p :
  Inv p -> (LOWEST <= prec)%Z -> (lo <= S (index p))%nat ->
  (forall e p', step p p' -> Q e p') ->
  wp (parseExpr_body fmt_q parseExpr_rec prec) Q p.
Proof.
  intros Hv Hprec Hlo HQ. unfold parseExpr_body.
  apply wp_bind, wp_current; [assumption|]. intros c Hc.
  apply wp_bind, wp_get.
  destruct (map_get (prefixParseFns p) (lexer.Name c)) as [pre|] eqn:Hpre; [|done].
  assert (Hlt : (index p < n)%nat).
  { destruct Hv as (_ & Hi & Hm).
    destruct (Nat.eq_dec (index p) n) as [E|E]; [|lia]. exfalso.
    apply (toks_eof _ _ Hc) in E. apply String.eqb_eq in E.
    rewrite E, Hm in Hpre. discriminate. }
  apply wp_bind, wp_call_prefix; [assumption|assumption|assumption|]. intros left p1 H1.
  apply wp_bind, wp_budget; [apply H1|].
  apply wp_parseExpr_loop; [apply H1|assumption| | |].
  - destruct H1 as (_ & ? & _). lia.
  - lia.
  - intros e p2 H2. apply HQ. eauto using step_trans.
Qed.

End Handlers.

(** [parseExpr] returns whenever its budget exceeds the number of tokens
    after the cursor. *)
Lemma wp_parseExpr fmt_q fuel : forall prec (Q : option Expr -> Parser -> Prop) p,
  Inv p -> (LOWEST <= prec)%Z -> (n < index p + fuel)%nat ->
  (forall e p', step p p' -> Q e p') ->
  wp (parseExpr fmt_q fuel prec) Q p.
Proof.
  induction fuel as [|fuel IH]; intros prec Q p Hv Hprec Hf HQ.
  - destruct Hv as (_ & ? & _). lia.
  - cbn [parseExpr]. apply wp_parseExpr_body with (lo := S (index p)); auto.
    intros prec' Q' p' Hv' Hlo' Hprec' HQ'. apply IH; auto. lia.
Qed.

Lemma wp_parse_loop fmt_q depth fuel : forall (Q : unit -> Parser -> Prop) p,
  Inv p -> (n < depth)%nat -> (n <= index p + fuel)%nat ->
  (forall p', Inv p' -> Q tt p') ->
  wp (parse_loop fmt_q depth fuel) Q p.
Proof.
  induction fuel as [|fuel IH]; intros Q p Hv Hd Hf HQ; cbn [parse_loop];
    apply wp_bind, wp_end; try assumption; intros [|] He; cbn [negb];
    try (apply wp_ret; solve [auto]);
    assert (Hne : index p <> n) by (intros E; apply He in E; discriminate).
  - exfalso. destruct Hv as (_ & ? & _). lia.
  - apply wp_bind, (wp_parseStmt (parseExpr fmt_q depth) (index p)); [|assumption|lia|].
    { intros prec Q' p' Hv' Hlo' Hprec' HQ'. apply wp_parseExpr; auto. lia. }
    intros s p1 H1.
    apply wp_bind.
    apply wp_mono with (Q := fun (_ : unit) p' => step p p').
    { destruct s; [apply wp_modify|apply wp_ret; assumption].
      destruct H1 as ((? & ? & ?) & ? & ?). repeat split; cbn; auto. }
    intros _ p2 H2.
    apply wp_bind, wp_next; [apply H2|]. intros p3 H3 A3.
    apply IH; [apply H3|assumption| |assumption].
    destruct H2 as (I2 & ? & _), H3 as (_ & ? & _). destruct I2 as (_ & ? & _).
    destruct (Nat.eq_dec (index p2) n); [lia|]. specialize (A3 ltac:(lia)). lia.
Qed.

Lemma wp_parse fmt_q (Q : list Stmt -> Parser -> Prop) p :
  Inv p -> (forall s p', Inv p' -> Q s p') -> wp (parse fmt_q) Q p.
Proof.
  intros Hv HQ. unfold parse.
  apply wp_bind, wp_budget; [assumption|].
  apply wp_bind, wp_parse_loop; [assumption|lia|lia|]. intros p1 H1.
  apply wp_bind, wp_get. apply wp_ret. auto.
Qed.

End Tokens.

Lemma eof_last_only_spec ts :
  eof_last_only ts = true ->
  exists n, List.length ts = S n
            /\ forall i t, nth_error ts i = Some t ->
                 ((lexer.Name t =? lexer.EOF)%string = true <-> i = n).
Proof.
  induction ts as [|t r IH]; [discriminate|].
  destruct r as [|t' r'].
  - cbn [eof_last_only]. intros H. exists 0%nat. split; [reflexivity|].
    intros [|i] u Hu; cbn in Hu.
    + inversion Hu; subst. tauto.
    + destruct i; discriminate.
  - intros H. change (negb (lexer.Name t =? lexer.EOF)%string
                       && eof_last_only (t' :: r') = true) in H.
    apply andb_true_iff in H as [Ht Hr]. apply negb_true_iff in Ht.
    destruct (IH Hr) as (m & Hm & Hall). exists (S m). split; [cbn in *; lia|].
    intros [|i] u Hu.
    + cbn in Hu. inversion Hu; subst. rewrite Ht. split; [discriminate|lia].
    + cbn [nth_error] in Hu. rewrite (Hall i u Hu). lia.
Qed.

Lemma well_formed_Inv p :
  well_formed p = true ->
  exists n, List.length (tokens p) = S n
            /\ (forall i t, nth_error (tokens p) i = Some t ->
                 ((lexer.Name t =? lexer.EOF)%string = true <-> i = n))
            /\ on_tokens (tokens p) n p.
Proof.
  unfold well_formed. rewrite !andb_true_iff. intros [[H1 H2] H3].
  destruct (eof_last_only_spec _ H1) as (n & Hn & Hall).
  exists n. split; [assumption|]. split; [assumption|].
  apply Nat.ltb_lt in H2.
  repeat split; [lia|]. destruct (map_get _ _); [discriminate|reflexivity].
Qed.

Lemma parseBlockStmt_returns fmt_q fuel p :
  well_formed p = true -> (List.length (tokens p) <= fuel)%nat ->
  exists b p',
    parseBlockStmt (parseExpr fmt_q fuel) p = Ok (b, p')
    /\ indentLevel p' = indentLevel p.
Proof.
  intros Hwf Hfuel. destruct (well_formed_Inv p Hwf) as (n & Hn & Hall & Hv).
  apply (wp_parseBlockStmt (tokens p) n Hn Hall (parseExpr fmt_q fuel) (index p));
    [|assumption|lia|].
  - intros prec Q p' Hv' Hlo Hprec HQ.
    apply (wp_parseExpr (tokens p) n Hn Hall); auto. lia.
  - intros b p' H. apply H.
Qed.

End ReturnFacts.

(** ** Runs of the tokenizer *)

Section LexerRuns.
Import golib lexer LexSpec.

(** A quote that is the last byte of the input makes [lexString] peek two
    bytes past the end: a second way for [StartLex] to panic. *)
Lemma StartLex_trailing_quote_panics :
  StartLex dq = Panic
  /\ StartLex ("x = " ++ dq ++ "a" ++ dq ++ dq)%string = Panic.
Proof. split; reflexivity. Qed.

(** Apart from the empty input and an input that ends with a quote,
    [StartLex] returns, and what it returns ends with its only end-of-input
    token. *)
Lemma StartLex_returns s :
  s <> "" -> String.get (String.length s - 1) s <> Some chr_dquote ->
  exists toks,
    StartLex s = Ok toks
    /\ toks <> []
    /\ Name (last toks zeroToken) = EOF
    /\ List.length (filter is_EOF toks) = 1%nat.
Proof.
  intros Hne Hq. pose proof (LexFacts.StartLex_outcome s) as H.
  destruct (StartLex s) as [toks| |].
  - exists toks. auto.
  - destruct H; contradiction.
  - contradiction.
Qed.

(** The keyword retraction fails through the digit path of [lex] as well. *)
Lemma lex_keyword_extended_by_digit :
  StartLex "in2" = Ok [tok IN "in2" 1 0; tok EOF "" 2 0].
Proof. reflexivity. Qed.

(** A keyword on its own is classified. *)
Lemma lex_keyword_alone :
  StartLex "if" = Ok [tok IF "if" 1 0; tok EOF "" 2 0].
Proof. reflexivity. Qed.

(** The sibling path of [lexString]: with exactly one byte after the opening
    quote the token is [ILLEGAL], at the position of the quote. *)
Lemma lexString_unterminated_one_byte :
  StartLex ("x " ++ dq ++ "a")%string
  = Ok [tok IDENT "x" 1 0; tok ILLEGAL "" 1 2; tok EOF "" 2 0].
Proof. reflexivity. Qed.

Lemma lexString_terminated :
  StartLex (dq ++ "ab" ++ dq)%string = Ok [tok STRING "ab" 1 0; tok EOF "" 2 0].
Proof. reflexivity. Qed.

End LexerRuns.

(** ** Runs of the parser *)

Section ParserRuns.
Import golib lexer ast parser LexSpec ParseSpec.

Variable fmt_q : string -> string.

(** The text [a != b] is tokenized as [a], [!=], [=], [b] (the case for the
    exclamation mark does not step over the second byte), so the infix node
    of [!=] has no right operand. *)
Lemma parse_not_equal_has_no_right_operand :
  exists p,
    StartParseRepl fmt_q "a != b" = Ok p
    /\ statements p =
         [ ExprStmt (tok IDENT "a" 1 0)
             (Some (InfixExpr (tok NOTEQ "!=" 1 2) (Some (ident_at "a" 1 0)) "!=" None));
           ExprStmt (tok IDENT "b" 1 5) (Some (ident_at "b" 1 5)) ].
Proof. eexists. split; [vm_compute; reflexivity|]. reflexivity. Qed.

(** The operators whose handler is registered do combine both operands. *)
Lemma parse_registered_infix_operators :
  infix_of fmt_q "==" "a == b" /\ infix_of fmt_q "+" "a + b"
  /\ infix_of fmt_q "-" "a - b" /\ infix_of fmt_q "*" "a * b"
  /\ infix_of fmt_q "/" "a / b" /\ infix_of fmt_q "+=" "a += b"
  /\ infix_of fmt_q "-=" "a -= b" /\ infix_of fmt_q "*=" "a *= b"
  /\ infix_of fmt_q "/=" "a /= b" /\ infix_of fmt_q "<=" "a <= b"
  /\ infix_of fmt_q ">" "a > b" /\ infix_of fmt_q ">=" "a >= b"
  /\ infix_of fmt_q "and" "a and b".
Proof.
  repeat split; eexists; eexists;
    (split; [vm_compute; reflexivity | split; reflexivity]).
Qed.

(** Call application: [a(b)] is a call node whose callee is [a]. *)
Lemma parse_call_is_infix :
  exists p,
    StartParseRepl fmt_q "a(b)" = Ok p
    /\ statements p =
         [ ExprStmt (tok IDENT "a" 1 0)
             (Some (CallExpr (tok LEFTPAREN "(" 1 1) (Some (ident_at "a" 1 0))
                      [Some (ident_at "b" 1 2)])) ].
Proof. eexists. split; [vm_compute; reflexivity|]. reflexivity. Qed.

(** A conditional with a one-statement body: the block holds that statement
    and the depth is back to zero after the pass. *)
Lemma parse_if_block :
  exists p,
    StartParseRepl fmt_q ("if x:" ++ nl ++ tab ++ "y = 2" ++ nl)%string = Ok p
    /\ tokens p = if_block_tokens
    /\ statements p =
         [ ExprStmt (tok IF "if" 1 0)
             (Some (IfExpr (tok IF "if" 1 0) (Some (ident_at "x" 1 3))
                      (mkBlockStmt (tok IDENT "y" 2 5)
                         [ VarStmt (tok IDENT "y" 2 5)
                             (mkIdentifier (tok IDENT "y" 2 5) "y")
                             (Some (num_at "2" 2 2 9)) ])
                      None)) ]
    /\ errors p = []
    /\ indentLevel p = 0%Z.
Proof. eexists. split; [vm_compute; reflexivity|]. repeat split. Qed.

(** Whenever the tokenizer returns, the parser returns as well: no panic
    and no exhausted budget on any token sequence the tokenizer produces. *)
Lemma StartParseRepl_returns input toks :
  StartLex (ReplaceAll_4sp_tab input) = Ok toks ->
  exists p, StartParseRepl fmt_q input = Ok p /\ tokens p = toks.
Proof.
  intros H. unfold StartParseRepl. rewrite H. cbn [res_bind].
  destruct (LexFacts.StartLex_shape _ _ H) as (body & e & -> & Hb & He).
  pose proof (LexFacts.eof_last_only_app body e Hb He) as Hwf.
  destruct (ReturnFacts.eof_last_only_spec _ Hwf) as (n & Hn & Hall).
  rewrite Hn. cbn [Nat.eqb].
  set (p0 := registerFixes (mkParser (body ++ [e]) 0 [] [] [] [] 0)).
  assert (Hv : on_tokens (body ++ [e]) n p0).
  { repeat split; cbn; lia. }
  destruct (ReturnFacts.wp_parse (body ++ [e]) n Hn Hall fmt_q
              (fun _ p' => on_tokens (body ++ [e]) n p') p0 Hv ltac:(auto))
    as (stmts & p1 & E & H1).
  rewrite E. cbn [res_bind]. exists p1. split; [reflexivity|]. apply H1.
Qed.

End ParserRuns.

(** ** The tokenizer on words *)

Module WordFacts.
Import golib lexer LexSpec WordSpec LexFacts.
#[local] Open Scope string_scope.

(** Reserved words and the kind. *)
Lemma keywordName_cases v k :
  (In v reserved /\ keywordName v k <> IDENT /\ forall k', keywordName v k' = keywordName v k)
  \/ (~ In v reserved /\ keywordName v k = k).
Proof.
  unfold keywordName, reserved.
  destruct (String.eqb_spec v "if") as [->|N1]; [left; cbn; intuition discriminate|].
  destruct (String.eqb_spec v "elif") as [->|N2]; [left; cbn; intuition discriminate|].
  destruct (String.eqb_spec v "else") as [->|N3]; [left; cbn; intuition discriminate|].
  destruct (String.eqb_spec v "while") as [->|N4]; [left; cbn; intuition discriminate|].
  destruct (String.eqb_spec v "for") as [->|N5]; [left; cbn; intuition discriminate|].
  destruct (String.eqb_spec v "in") as [->|N6]; [left; cbn; intuition discriminate|].
  destruct (String.eqb_spec v "print") as [->|N7]; [left; cbn; intuition discriminate|].
  destruct (String.eqb_spec v "int") as [->|N8]; [left; cbn; intuition discriminate|].
  destruct (String.eqb_spec v "str") as [->|N9]; [left; cbn; intuition discriminate|].
  destruct (String.eqb_spec v "and") as [->|N10]; [left; cbn; intuition discriminate|].
  destruct (String.eqb_spec v "or") as [->|N11]; [left; cbn; intuition discriminate|].
  right. split; [|reflexivity]. cbn. intuition congruence.
Qed.

Lemma keywordName_idem v k : keywordName v (keywordName v k) = keywordName v k.
Proof.
  destruct (keywordName_cases v (keywordName v k)) as [(_ & _ & H)|(_ & H)];
    [symmetry; apply H | exact H].
Qed.

Lemma fold_classify_step ks : forall n v p,
  fold_left classify_step ks (mkToken n v p) =
  mkToken (if existsb (String.eqb v) ks then keywordName v n else n) v p.
Proof.
  induction ks as [|kw ks IH]; intros n v p; [reflexivity|].
  cbn [fold_left existsb]. unfold classify_step at 2. cbn [Val Name Pos].
  destruct (String.eqb_spec v kw) as [E|E]; cbn [orb]; rewrite IH; [|reflexivity].
  destruct (existsb _ ks); [rewrite keywordName_idem|]; reflexivity.
Qed.

Lemma classify_keywordName t :
  classify t = mkToken (keywordName (Val t) (Name t)) (Val t) (Pos t).
Proof.
  destruct t as [n v p]. change (classify (mkToken n v p))
    with (fold_left classify_step reserved (mkToken n v p)).
  rewrite fold_classify_step. cbn [Val Name Pos]. f_equal.
  destruct (existsb (String.eqb v) reserved) eqn:E; [reflexivity|].
  destruct (keywordName_cases v n) as [(H & _)|(_ & H)]; [|symmetry; exact H].
  assert (existsb (String.eqb v) reserved = true); [|congruence].
  apply existsb_exists. exists v. split; [exact H|apply String.eqb_refl].
Qed.

Lemma word_byte_neq c x : word_byte c = true -> word_byte x = false -> Ascii.eqb c x = false.
Proof.
  intros Hc Hx. destruct (Ascii.eqb c x) eqn:E; [|reflexivity].
  apply Ascii.eqb_eq in E. congruence.
Qed.

Lemma word_byte_facts c :
  word_byte c = true ->
  IsSpace c = false /\ string_of_rune c = String c ""
  /\ (IsDigit c = false -> IsLetter c || Ascii.eqb c "_" = true)
  /\ (word_start c = true -> IsDigit c = false).
Proof.
  destruct c as [[] [] [] [] [] [] [] []]; intros H; vm_compute in H;
    try discriminate H; vm_compute; repeat split; congruence.
Qed.

Lemma lex_body_word l c :
  byte_at (input l) (index l) = Ok c -> word_byte c = true ->
  (IsDigit c = true -> currentType l = TokenIdent) ->
  lex_body l =
  let? l' := lexText (String c "") (set_current l c) in
  Ok (set_column (set_index l' (index l' + 1)) (column l' + 1)).
Proof.
  intros Hb Hc Hd. unfold lex_body. rewrite Hb. cbn [res_bind].
  destruct (word_byte_facts c Hc) as (Hs & Hr & Hl & _).
  rewrite !(word_byte_neq c _ Hc) by reflexivity.
  rewrite Hs, Hr. cbn [orb].
  change (currentType (set_current l c)) with (currentType l).
  destruct (IsDigit c) eqn:E.
  - rewrite (Hd eq_refl). reflexivity.
  - rewrite (Hl eq_refl). reflexivity.
Qed.

Lemma get_app_here seen c r : String.get (String.length seen) (seen ++ String c r) = Some c.
Proof. induction seen as [|a s IH]; [reflexivity|exact IH]. Qed.

Lemma length_app (a b : string) : String.length (a ++ b) = (String.length a + String.length b)%nat.
Proof. induction a as [|c a IH]; cbn; [reflexivity|]. rewrite IH. reflexivity. Qed.

Lemma app_snoc (a : string) c r : (a ++ String c "") ++ r = a ++ String c r.
Proof. induction a as [|x a IH]; cbn; [reflexivity|]. rewrite IH. reflexivity. Qed.

Lemma lex_loop_word : forall rest seen k pos l fuel,
  all_word_bytes rest = true -> rest <> "" ->
  input l = seen ++ rest -> index l = String.length seen ->
  currentType l = TokenIdent -> tokens l = [mkToken k seen pos] ->
  (String.length rest <= fuel)%nat ->
  exists l',
    lex_loop fuel l = Ok l'
    /\ tokens l' = [mkToken (kind_after seen k rest) (seen ++ rest) pos]
    /\ line l' = line l.
Proof.
  induction rest as [|c r IH]; intros seen k pos l fuel Hw Hne Hin Hix Hty Htk Hf;
    [congruence|].
  cbn [all_word_bytes] in Hw. apply andb_true_iff in Hw as [Hc Hr].
  destruct fuel as [|fuel]; [cbn in Hf; lia|]. cbn [lex_loop].
  assert (Hb : byte_at (input l) (index l) = Ok c).
  { unfold byte_at. rewrite Hin, Hix, get_app_here. reflexivity. }
  rewrite (lex_body_word l c Hb Hc (fun _ => Hty)).
  unfold lexText. change (currentType (set_current l c)) with (currentType l).
  rewrite Hty. change ((TokenIdent =? TokenKeyword)%Z) with false.
  change ((TokenIdent =? TokenIdent)%Z) with true. cbv iota.
  unfold pop. change (tokens (set_current l c)) with (tokens l). rewrite Htk.
  cbn [last removelast res_bind Name Val Pos]. rewrite classify_keywordName.
  cbn [Name Val Pos]. lx_simpl. rewrite Hin, Hix, length_app. cbn [String.length].
  destruct r as [|c' r'].
  - rewrite (proj2 (Nat.ltb_ge _ _)) by (cbn; lia).
    eexists. split; [reflexivity|]. lx_simpl. cbn [kind_after app]. split; reflexivity.
  - rewrite (proj2 (Nat.ltb_lt _ _)) by (cbn; lia).
    match goal with |- exists l', lex_loop fuel ?l1 = _ /\ _ =>
      destruct (IH (seen ++ String c "") (keywordName (seen ++ String c "") k) pos l1 fuel)
        as (l' & E & Ht & Hl)
    end; try assumption; try discriminate; lx_simpl; try reflexivity;
      try (rewrite Hin, app_snoc; reflexivity);
      try (rewrite length_app; reflexivity);
      try (cbn in Hf |- *; lia).
    exists l'. split; [exact E|]. split; [|exact Hl].
    rewrite Ht, app_snoc. reflexivity.
Qed.

Lemma StartLex_word w :
  word w = true -> StartLex w = Ok [tok (word_kind w) w 1 0; tok EOF "" 2 0].
Proof.
  destruct w as [|c r]; [discriminate|]. cbn [word]. intros H.
  apply andb_true_iff in H as [Hc Hr].
  assert (Hwb : word_byte c = true) by (unfold word_byte; rewrite Hc; reflexivity).
  destruct (word_byte_facts c Hwb) as (_ & _ & _ & Hnd). specialize (Hnd Hc).
  unfold StartLex, StartLex_fuel. cbn [lex_loop].
  rewrite (lex_body_word (initLexer (String c r)) c eq_refl Hwb) by (intros E; congruence).
  unfold lexText. lx_simpl.
  change ((0 =? TokenKeyword)%Z) with false. change ((0 =? TokenIdent)%Z) with false.
  cbv iota. lx_simpl. rewrite classify_keywordName. cbn [Name Val Pos].
  destruct r as [|c' r'].
  - reflexivity.
  - change (0 + 1 <? String.length (String c (String c' r')))%nat with true. cbv iota.
    match goal with |- context [lex_loop ?f ?l1] =>
      destruct (lex_loop_word (String c' r') (String c "") (keywordName (String c "") IDENT)
                  (mkPos 1 0) l1 f) as (l' & E & Ht & Hl)
    end; try assumption; try discriminate; try reflexivity; [cbn; lia|].
    rewrite E. lx_simpl. rewrite Ht. unfold eofToken. rewrite Hl. reflexivity.
Qed.

Lemma prefix_app a b : String.prefix a (a ++ b) = true.
Proof.
  induction a as [|c a IH]; cbn; [destruct b; reflexivity|].
  destruct (ascii_dec c c); [exact IH|congruence].
Qed.

Lemma prefix_split a : forall w, String.prefix a w = true -> exists q, w = a ++ q.
Proof.
  induction a as [|c a IH]; intros w H; [exists w; reflexivity|].
  destruct w as [|d w]; [discriminate|]. cbn in H.
  destruct (ascii_dec c d) as [->|]; [|discriminate].
  destruct (IH w H) as [q ->]. exists q. reflexivity.
Qed.

Lemma kind_after_IDENT : forall rest seen k,
  kind_after seen k rest = IDENT
  <-> (k = IDENT
       /\ forall p q, rest = p ++ q -> p <> "" -> ~ In (seen ++ p) reserved).
Proof.
  induction rest as [|c r IH]; intros seen k; cbn [kind_after].
  - split; [intros ->; split; [reflexivity|]|tauto].
    intros [|] q; [congruence|discriminate].
  - rewrite IH. split.
    + intros [Hk Hr].
      destruct (keywordName_cases (seen ++ String c "") k) as [(_ & Hn & _)|(Hn & E)];
        [contradiction|].
      split; [congruence|]. intros [|c0 p] q Hpq Hne; [congruence|].
      cbn in Hpq. inversion Hpq; subst c0 r.
      destruct p as [|c1 p]; [exact Hn|].
      rewrite <- app_snoc. apply (Hr (String c1 p) q); [reflexivity|discriminate].
    + intros [-> Hr].
      assert (Hn : ~ In (seen ++ String c "") reserved)
        by (apply (Hr (String c "") r); [reflexivity|discriminate]).
      destruct (keywordName_cases (seen ++ String c "") IDENT) as [(Hi & _)|(_ & E)];
        [contradiction|].
      split; [exact E|]. intros p q -> Hne. rewrite app_snoc.
      apply (Hr (String c p) q); [reflexivity|discriminate].
Qed.

Lemma word_kind_IDENT w :
  word_kind w = IDENT <-> forall kw, In kw reserved -> String.prefix kw w = false.
Proof.
  unfold word_kind. rewrite kind_after_IDENT. split.
  - intros [_ H] kw Hkw. destruct (String.prefix kw w) eqn:E; [|reflexivity].
    destruct (prefix_split kw w E) as [q ->]. exfalso.
    apply (H kw q eq_refl); [|exact Hkw]. intros ->. cbn in Hkw.
    intuition discriminate.
  - intros H. split; [reflexivity|]. intros p q -> _ Hin.
    specialize (H p Hin). rewrite prefix_app in H. discriminate.
Qed.

End WordFacts.

(** ** The cursor after a pass *)

Module CursorFacts.
Import golib ast parser LexSpec ParseSpec ReturnFacts.
#[local] Open Scope parser_scope.

Section Tokens.

Variable toks : list lexer.Token.
Variable n : nat.
Hypothesis toks_length : List.length toks = S n.
Hypothesis toks_eof : forall i t,
  nth_error toks i = Some t -> ((lexer.Name t =? lexer.EOF)%string = true <-> i = n).

(** The loop of [parse] stops on the end-of-input token, at the depth it
    started from. *)
Lemma wp_parse_loop_end fmt_q depth fuel : forall (Q : unit -> Parser -> Prop) p,
  on_tokens toks n p -> (n < depth)%nat -> (n <= index p + fuel)%nat ->
  (forall p', step toks n p p' -> index p' = n -> Q tt p') ->
  wp (parse_loop fmt_q depth fuel) Q p.
Proof.
  induction fuel as [|fuel IH]; intros Q p Hv Hd Hf HQ; cbn [parse_loop];
    apply wp_bind, (wp_end toks n toks_length toks_eof); try assumption;
    intros [|] He; cbn [negb];
    try (apply wp_ret; apply HQ; [apply step_refl; assumption | apply He; reflexivity]);
    assert (Hne : index p <> n) by (intros E; apply He in E; discriminate).
  - exfalso. destruct Hv as (_ & ? & _). lia.
  - apply wp_bind,
      (wp_parseStmt toks n toks_length toks_eof (parseExpr fmt_q depth) (index p));
      [|assumption|lia|].
    { intros prec Q' p' Hv' Hlo' Hprec' HQ'.
      apply (wp_parseExpr toks n toks_length toks_eof); auto. lia. }
    intros s p1 H1.
    apply wp_bind.
    apply wp_mono with (Q := fun (_ : unit) p' => step toks n p p').
    { destruct s; [apply wp_modify|apply wp_ret; assumption].
      destruct H1 as ((? & ? & ?) & ? & ?). repeat split; cbn; auto. }
    intros _ p2 H2.
    apply wp_bind, (wp_next toks n toks_length toks_eof); [apply H2|].
    intros p3 H3 A3.
    apply IH; [apply H3|assumption| |].
    + destruct H2 as (I2 & ? & _), H3 as (_ & ? & _). destruct I2 as (_ & ? & _).
      destruct (Nat.eq_dec (index p2) n); [lia|]. specialize (A3 ltac:(lia)). lia.
    + intros p4 H4 E4. apply HQ; [|exact E4].
      destruct H2 as (_ & ? & ?), H3 as (_ & ? & ?), H4 as (? & ? & ?).
      repeat split; try assumption; try lia; apply H4.
Qed.

Lemma wp_parse_end fmt_q (Q : list Stmt -> Parser -> Prop) p :
  on_tokens toks n p ->
  (forall p', step toks n p p' -> index p' = n -> Q (statements p') p') ->
  wp (parse fmt_q) Q p.
Proof.
  intros Hv HQ. unfold parse.
  apply wp_bind, (wp_budget toks n toks_length); [assumption|].
  apply wp_bind, wp_parse_loop_end; [assumption|lia|lia|]. intros p1 H1 E1.
  apply wp_bind, wp_get. apply wp_ret. auto.
Qed.

End Tokens.

End CursorFacts.

(** ** The parser: what a pass leaves in place *)

Module FrameFacts.
Import golib lexer ast parser FrameSpec.
#[local] Open Scope parser_scope.

Section Relation.

Variable R : Parser -> Parser -> Prop.
Hypothesis R_refl : forall p, R p p.
Hypothesis R_trans : forall p1 p2 p3, R p1 p2 -> R p2 p3 -> R p1 p3.
Hypothesis R_next : forall p, R p (set_index p (index p + 1)).
Hypothesis R_error : forall p e, R p (set_errors p (errors p ++ [e])).
Hypothesis R_indent : forall p z, R p (set_indentLevel p z).

Lemma pres_ret {A} (a : A) : preserves R (ret a).
Proof. intros p a' p' H. inversion H; subst. apply R_refl. Qed.

Lemma pres_bind {A B} (m : M A) (k : A -> M B) :
  preserves R m -> (forall a, preserves R (k a)) -> preserves R (bind m k).
Proof.
  intros Hm Hk p b p'. unfold bind.
  destruct (m p) as [[a p1]| |] eqn:E; try discriminate.
  intros H. eapply R_trans; [eapply Hm; eauto | eapply Hk; eauto].
Qed.

Lemma pres_out_of_fuel {A} : preserves R (@out_of_fuel A).
Proof. intros p a p' H. discriminate. Qed.

Lemma pres_get : preserves R get.
Proof. intros p a p' H. inversion H; subst. apply R_refl. Qed.

Lemma pres_modify f : (forall p, R p (f p)) -> preserves R (modify f).
Proof. intros Hf p a p' H. inversion H; subst. apply Hf. Qed.

Lemma pres_token_at i : preserves R (token_at i).
Proof.
  intros p a p'. unfold token_at. destruct (nth_error _ _); intros H;
    inversion H; subst. apply R_refl.
Qed.

Create HintDb pres.
#[local] Hint Resolve pres_ret pres_out_of_fuel pres_get pres_token_at : pres.

Ltac pres_step :=
  match goal with
  | |- preserves R (bind _ _) => apply pres_bind; [| intros ?]
  | |- preserves R (if ?b then _ else _) => destruct b
  | |- preserves R (match ?x with _ => _ end) => destruct x
  | |- preserves R (modify _) =>
      apply pres_modify; intros;
      first [apply R_next | apply R_error | apply R_indent]
  | |- preserves R _ => solve [auto with pres]
  end.
Ltac pres_auto := repeat pres_step.

Lemma pres_current : preserves R current.
Proof. unfold current. pres_auto. Qed.
#[local] Hint Resolve pres_current : pres.

Lemma pres_end : preserves R end_.
Proof. unfold end_. pres_auto. Qed.
#[local] Hint Resolve pres_end : pres.

Lemma pres_peek : preserves R peek.
Proof. unfold peek. pres_auto. Qed.
#[local] Hint Resolve pres_peek : pres.

Lemma pres_next : preserves R next.
Proof. unfold next. pres_auto. Qed.
#[local] Hint Resolve pres_next : pres.

Lemma pres_checkCurrent t : preserves R (checkCurrent t).
Proof. unfold checkCurrent. pres_auto. Qed.

Lemma pres_checkPeek t : preserves R (checkPeek t).
Proof. unfold checkPeek. pres_auto. Qed.
#[local] Hint Resolve pres_checkCurrent pres_checkPeek : pres.

Lemma pres_peekError t : preserves R (peekError t).
Proof. unfold peekError. pres_auto. Qed.
#[local] Hint Resolve pres_peekError : pres.

Lemma pres_expectCurrent t : preserves R (expectCurrent t).
Proof. unfold expectCurrent. pres_auto. Qed.

Lemma pres_expectPeek t : preserves R (expectPeek t).
Proof. unfold expectPeek. pres_auto. Qed.
#[local] Hint Resolve pres_expectCurrent pres_expectPeek : pres.

Lemma pres_currentPrec : preserves R currentPrec.
Proof. unfold currentPrec. pres_auto. Qed.

Lemma pres_peekPrec : preserves R peekPrec.
Proof. unfold peekPrec. pres_auto. Qed.

Lemma pres_budget : preserves R budget.
Proof. unfold budget. pres_auto. Qed.
#[local] Hint Resolve pres_currentPrec pres_peekPrec pres_budget : pres.

Lemma pres_skip_while cond fuel : preserves R cond -> preserves R (skip_while cond fuel).
Proof.
  intros Hc. induction fuel as [|fuel IH]; simpl; pres_auto.
Qed.
#[local] Hint Resolve pres_skip_while : pres.

Section Handlers.

Variable fmt_q : string -> string.
Variable parseExpr_rec : Z -> M (option Expr).
Hypothesis pres_rec : forall prec, preserves R (parseExpr_rec prec).
#[local] Hint Resolve pres_rec : pres.

Lemma pres_parseIdent : preserves R parseIdent.
Proof. unfold parseIdent. pres_auto. Qed.

Lemma pres_parseIntLiteral : preserves R (parseIntLiteral fmt_q).
Proof. unfold parseIntLiteral. pres_auto. Qed.

Lemma pres_parseStrLiteral : preserves R parseStrLiteral.
Proof. unfold parseStrLiteral. pres_auto. Qed.

Lemma pres_parsePrefixExpr : preserves R (parsePrefixExpr parseExpr_rec).
Proof. unfold parsePrefixExpr. pres_auto. Qed.

Lemma pres_parseInfixExpr l : preserves R (parseInfixExpr parseExpr_rec l).
Proof. unfold parseInfixExpr. pres_auto. Qed.

Lemma pres_parseGroupingExpr : preserves R (parseGroupingExpr parseExpr_rec).
Proof. unfold parseGroupingExpr. pres_auto. Qed.

Lemma pres_parseCallArgs_loop fuel args :
  preserves R (parseCallArgs_loop parseExpr_rec fuel args).
Proof.
  revert args. induction fuel as [|fuel IH]; intros args; simpl; pres_auto.
Qed.
#[local] Hint Resolve pres_parseCallArgs_loop : pres.

Lemma pres_parseCallArgs : preserves R (parseCallArgs parseExpr_rec).
Proof. unfold parseCallArgs. pres_auto. Qed.
#[local] Hint Resolve pres_parseCallArgs : pres.

Lemma pres_parseCallExpr fn : preserves R (parseCallExpr parseExpr_rec fn).
Proof. unfold parseCallExpr. pres_auto. Qed.

Lemma pres_parseVarStmt : preserves R (parseVarStmt parseExpr_rec).
Proof. unfold parseVarStmt. pres_auto. apply pres_skip_while. pres_auto. Qed.

Lemma pres_parseExprStmt : preserves R (parseExprStmt parseExpr_rec).
Proof. unfold parseExprStmt. pres_auto. Qed.
#[local] Hint Resolve pres_parseVarStmt pres_parseExprStmt : pres.

Lemma pres_parseStmt : preserves R (parseStmt parseExpr_rec).
Proof. unfold parseStmt. pres_auto. Qed.
#[local] Hint Resolve pres_parseStmt : pres.

Lemma pres_parseBlockStmt_loop fuel stmts :
  preserves R (parseBlockStmt_loop parseExpr_rec fuel stmts).
Proof.
  revert stmts. induction fuel as [|fuel IH]; intros stmts; simpl; pres_auto;
    try apply IH; apply pres_skip_while; pres_auto.
Qed.
#[local] Hint Resolve pres_parseBlockStmt_loop : pres.

Lemma pres_parseBlockStmt : preserves R (parseBlockStmt parseExpr_rec).
Proof. unfold parseBlockStmt. pres_auto. Qed.
#[local] Hint Resolve pres_parseBlockStmt : pres.

Lemma pres_parseIfExpr : preserves R (parseIfExpr parseExpr_rec).
Proof. unfold parseIfExpr. pres_auto. Qed.

Lemma pres_parseWhileExpr : preserves R (parseWhileExpr parseExpr_rec).
Proof. unfold parseWhileExpr. pres_auto. Qed.

Lemma pres_call_prefix fn : preserves R (call_prefix fmt_q parseExpr_rec fn).
Proof.
  destruct fn; simpl;
    auto using pres_parseIdent, pres_parseIntLiteral, pres_parseStrLiteral,
      pres_parsePrefixExpr, pres_parseGroupingExpr, pres_parseIfExpr,
      pres_parseWhileExpr.
Qed.

Lemma pres_call_infix fn l : preserves R (call_infix parseExpr_rec fn l).
Proof.
  destruct fn; simpl; auto using pres_parseInfixExpr, pres_parseCallExpr.
Qed.
#[local] Hint Resolve pres_call_prefix pres_call_infix : pres.

Lemma pres_parseExpr_loop fuel prec left :
  preserves R (parseExpr_loop parseExpr_rec fuel prec left).
Proof.
  revert left. induction fuel as [|fuel IH]; intros left; simpl; pres_auto.
Qed.
#[local] Hint Resolve pres_parseExpr_loop : pres.

Lemma pres_parseExpr_body prec : preserves R (parseExpr_body fmt_q parseExpr_rec prec).
Proof. unfold parseExpr_body. pres_auto. Qed.

End Handlers.

Lemma pres_parseExpr fmt_q fuel prec : preserves R (parseExpr fmt_q fuel prec).
Proof.
  revert prec. induction fuel as [|fuel IH]; intros prec; simpl.
  - apply pres_out_of_fuel.
  - apply pres_parseExpr_body. exact IH.
Qed.

Hypothesis R_statement : forall p s, R p (set_statements p (statements p ++ [s])).

Lemma pres_parse_loop fmt_q depth fuel : preserves R (parse_loop fmt_q depth fuel).
Proof.
  induction fuel as [|fuel IH]; simpl.
  - apply pres_bind; [apply pres_end|]. intros [|]; simpl;
      [apply pres_ret|apply pres_out_of_fuel].
  - apply pres_bind; [apply pres_end|]. intros [|]; simpl; [apply pres_ret|].
    apply pres_bind; [apply pres_parseStmt, pres_parseExpr|]. intros s.
    apply pres_bind.
    { destruct s; [apply pres_modify; intros; apply R_statement|apply pres_ret]. }
    intros _. apply pres_bind; [apply pres_next|]. intros _. exact IH.
Qed.

Lemma pres_parse fmt_q : preserves R (parse fmt_q).
Proof.
  unfold parse. apply pres_bind; [apply pres_budget|]. intros n.
  apply pres_bind; [apply pres_parse_loop|]. intros _.
  apply pres_bind; [apply pres_get|]. intros p. apply pres_ret.
Qed.

End Relation.

Lemma frame_refl p : frame p p.
Proof.
  repeat split; auto; [exists []|exists []]; rewrite app_nil_r; reflexivity.
Qed.

Lemma frame_trans p1 p2 p3 : frame p1 p2 -> frame p2 p3 -> frame p1 p3.
Proof.
  intros (A1 & A2 & A3 & A4 & (e1 & A5) & (s1 & A6))
         (B1 & B2 & B3 & B4 & (e2 & B5) & (s2 & B6)).
  repeat split; try congruence; try lia.
  - exists (e1 ++ e2). rewrite B5, A5, app_assoc. reflexivity.
  - exists (s1 ++ s2). rewrite B6, A6, app_assoc. reflexivity.
Qed.

Lemma frame_parse fmt_q : preserves frame (parse fmt_q).
Proof.
  apply pres_parse.
  - apply frame_refl.
  - apply frame_trans.
  - intros p. repeat split; cbn; try lia; exists []; rewrite app_nil_r; reflexivity.
  - intros p e. repeat split; cbn; try lia; [exists [e]|exists []];
      rewrite ?app_nil_r; reflexivity.
  - intros p z. repeat split; cbn; try lia; exists []; rewrite app_nil_r; reflexivity.
  - intros p s. repeat split; cbn; try lia; [exists []|exists [s]];
      rewrite ?app_nil_r; reflexivity.
Qed.

Lemma frame_parseExpr fmt_q fuel prec : preserves frame (parseExpr fmt_q fuel prec).
Proof.
  apply pres_parseExpr.
  - apply frame_refl.
  - apply frame_trans.
  - intros p. repeat split; cbn; try lia; exists []; rewrite app_nil_r; reflexivity.
  - intros p e. repeat split; cbn; try lia; [exists [e]|exists []];
      rewrite ?app_nil_r; reflexivity.
  - intros p z. repeat split; cbn; try lia; exists []; rewrite app_nil_r; reflexivity.
Qed.

End FrameFacts.

(** ** Syntax trees *)

Module AstFacts.
Import golib lexer ast AstSpec.

(** *** Induction on the three families of nodes *)

Section Induction.

Variables (P : Expr -> Prop) (Q : Stmt -> Prop) (B : BlockStmt -> Prop).

Hypothesis H_ident : forall i, P (EIdentifier i).
Hypothesis H_int : forall t v, P (IntLiteral t v).
Hypothesis H_str : forall t v, P (StrLiteral t v).
Hypothesis H_prefix : forall t op x, on_opt P x -> P (PrefixExpr t op x).
Hypothesis H_infix : forall t l op r, on_opt P l -> on_opt P r -> P (InfixExpr t l op r).
Hypothesis H_if : forall t c p f, on_opt P c -> B p -> on_opt B f -> P (IfExpr t c p f).
Hypothesis H_call : forall t f args, on_opt P f -> Forall (on_opt P) args -> P (CallExpr t f args).
Hypothesis H_while : forall t c b, on_opt P c -> B b -> P (WhileExpr t c b).
Hypothesis H_var : forall t i v, on_opt P v -> Q (VarStmt t i v).
Hypothesis H_var_nil : Q VarStmt_nil.
Hypothesis H_expr : forall t e, on_opt P e -> Q (ExprStmt t e).
Hypothesis H_block : forall t ss, Forall Q ss -> B (mkBlockStmt t ss).

Fixpoint Expr_induction (e : Expr) : P e :=
  let opt (o : option Expr) : on_opt P o :=
    match o return on_opt P o with
    | Some a => Expr_induction a
    | None => I
    end in
  match e return P e with
  | EIdentifier i => H_ident i
  | IntLiteral t v => H_int t v
  | StrLiteral t v => H_str t v
  | PrefixExpr t op x => H_prefix t op x (opt x)
  | InfixExpr t l op r => H_infix t l op r (opt l) (opt r)
  | IfExpr t c p f =>
      H_if t c p f (opt c) (BlockStmt_induction p)
        (match f return on_opt B f with
         | Some b => BlockStmt_induction b
         | None => I
         end)
  | CallExpr t f args =>
      H_call t f args (opt f)
        ((fix go (l : list (option Expr)) : Forall (on_opt P) l :=
            match l return Forall (on_opt P) l with
            | [] => Forall_nil _
            | a :: r => Forall_cons a (opt a) (go r)
            end) args)
  | WhileExpr t c b => H_while t c b (opt c) (BlockStmt_induction b)
  end
with Stmt_induction (s : Stmt) : Q s :=
  match s return Q s with
  | VarStmt t i v =>
      H_var t i v
        (match v return on_opt P v with
         | Some a => Expr_induction a
         | None => I
         end)
  | VarStmt_nil => H_var_nil
  | ExprStmt t e =>
      H_expr t e
        (match e return on_opt P e with
         | Some a => Expr_induction a
         | None => I
         end)
  end
with BlockStmt_induction (b : BlockStmt) : B b :=
  match b return B b with
  | mkBlockStmt t ss =>
      H_block t ss
        ((fix go (l : list Stmt) : Forall Q l :=
            match l return Forall Q l with
            | [] => Forall_nil _
            | s :: r => Forall_cons s (Stmt_induction s) (go r)
            end) ss)
  end.

Lemma ast_induction : (forall e, P e) /\ (forall s, Q s) /\ (forall b, B b).
Proof.
  split; [exact Expr_induction | split; [exact Stmt_induction | exact BlockStmt_induction]].
Qed.

End Induction.

End AstFacts.

(** ** The evaluator *)

Module EvalFacts.
Import golib lexer ast interpreter evaluator AstSpec AstFacts EvalSpec.

(** *** 64-bit arithmetic *)

Lemma wrap64_range z : int64 (wrap64 z) = true.
Proof.
  unfold int64, wrap64.
  pose proof (Z.mod_pos_bound (z + 2 ^ 63) (2 ^ 64) ltac:(lia)).
  apply andb_true_iff. split; [apply Z.leb_le|apply Z.ltb_lt]; lia.
Qed.

Lemma wrap64_small z : int64 z = true -> wrap64 z = z.
Proof.
  unfold int64, wrap64. intros H. apply andb_true_iff in H as [H1 H2].
  apply Z.leb_le in H1. apply Z.ltb_lt in H2.
  rewrite Z.mod_small by lia. lia.
Qed.

Lemma wrap64_shift z k : wrap64 (z + k * 2 ^ 64) = wrap64 z.
Proof.
  unfold wrap64. replace (z + k * 2 ^ 64 + 2 ^ 63)%Z with (z + 2 ^ 63 + k * 2 ^ 64)%Z by ring.
  rewrite Z_mod_plus_full. reflexivity.
Qed.

Lemma wrap64_spec z : exists k, wrap64 z = (z + k * 2 ^ 64)%Z.
Proof.
  exists (- ((z + 2 ^ 63) / 2 ^ 64))%Z. unfold wrap64.
  rewrite Z.mod_eq by lia. ring.
Qed.

Lemma wrap64_congruent z : ((wrap64 z - z) mod 2 ^ 64 = 0)%Z.
Proof.
  destruct (wrap64_spec z) as [k ->].
  replace (z + k * 2 ^ 64 - z)%Z with (k * 2 ^ 64)%Z by ring.
  apply Z_mod_mult.
Qed.

Lemma wrap64_opp z : wrap64 (- wrap64 z) = wrap64 (- z).
Proof.
  destruct (wrap64_spec z) as [k ->].
  replace (- (z + k * 2 ^ 64))%Z with (- z + (- k) * 2 ^ 64)%Z by ring.
  apply wrap64_shift.
Qed.

Lemma wrap64_add x y : wrap64 (wrap64 x + wrap64 y) = wrap64 (x + y).
Proof.
  destruct (wrap64_spec x) as [k ->], (wrap64_spec y) as [k' ->].
  replace (x + k * 2 ^ 64 + (y + k' * 2 ^ 64))%Z with (x + y + (k + k') * 2 ^ 64)%Z by ring.
  apply wrap64_shift.
Qed.

Lemma wrap64_sub x y : wrap64 (wrap64 x - wrap64 y) = wrap64 (x - y).
Proof.
  destruct (wrap64_spec x) as [k ->], (wrap64_spec y) as [k' ->].
  replace (x + k * 2 ^ 64 - (y + k' * 2 ^ 64))%Z with (x - y + (k - k') * 2 ^ 64)%Z by ring.
  apply wrap64_shift.
Qed.

Lemma wrap64_mul x y : wrap64 (wrap64 x * wrap64 y) = wrap64 (x * y).
Proof.
  destruct (wrap64_spec x) as [k ->], (wrap64_spec y) as [k' ->].
  replace ((x + k * 2 ^ 64) * (y + k' * 2 ^ 64))%Z
    with (x * y + (x * k' + k * y + k * k' * 2 ^ 64) * 2 ^ 64)%Z by ring.
  apply wrap64_shift.
Qed.

(** *** Arithmetic expressions *)

Section Evaluator.

Variable Sprintf_verbs : string -> string.

Notation Evaluate_Expr := (Evaluate_Expr Sprintf_verbs).
Notation Evaluate_Stmt := (Evaluate_Stmt Sprintf_verbs).
Notation Evaluate_BlockStmt := (Evaluate_BlockStmt Sprintf_verbs).
Notation Evaluate_Program := (Evaluate_Program Sprintf_verbs).

Lemma Evaluate_arith : forall e z env,
  arith e = Some z -> Evaluate_Expr e env = Ok (Some (Int (wrap64 z)), env).
Proof.
  intros e.
  apply (Expr_induction
           (fun e => forall z env, arith e = Some z ->
                     Evaluate_Expr e env = Ok (Some (Int (wrap64 z)), env))
           (fun _ => True) (fun _ => True)); clear e; try (intros; exact I);
    try (intros; discriminate).
  - intros t v z env H. cbn [arith] in H.
    destruct (int64 v) eqn:E; [|discriminate]. inversion H; subst z.
    rewrite (wrap64_small _ E). reflexivity.
  - intros t op [a|] IH z env H; [|discriminate]. cbn [arith on_opt] in *.
    destruct (String.eqb_spec op "-") as [->|]; [|discriminate].
    destruct (arith a) as [x|]; [|discriminate]. inversion H; subst z.
    cbn [evaluator.Evaluate_Expr]. unfold Evaluate_nilable at 1.
    rewrite (IH x env eq_refl). cbn. rewrite wrap64_opp. reflexivity.
  - intros t [a|] op [b|] IHa IHb z env H; try discriminate. cbn [arith on_opt] in *.
    destruct (arith a) as [x|]; [|discriminate].
    destruct (arith b) as [y|]; [|discriminate].
    cbn [evaluator.Evaluate_Expr]. unfold Evaluate_nilable at 1 2.
    rewrite (IHa x env eq_refl). cbn [res_bind Type_].
    change (INT =? ERR) with false. cbv iota.
    rewrite (IHb y env eq_refl). cbn [res_bind Type_].
    change (INT =? ERR) with false. cbv iota.
    unfold evaluateInfixExpr. cbn [res_bind Type_].
    change (INT =? INT) with true. cbn [andb]. unfold evaluateIntInfixExpr.
    destruct (String.eqb_spec op "+") as [->|];
      [inversion H; subst z; cbn [res_bind]; rewrite wrap64_add; reflexivity|].
    destruct (String.eqb_spec op "-") as [->|];
      [inversion H; subst z; cbn [res_bind]; rewrite wrap64_sub; reflexivity|].
    destruct (String.eqb_spec op "*") as [->|];
      [inversion H; subst z; cbn [res_bind]; rewrite wrap64_mul; reflexivity|].
    discriminate.
Qed.

(** *** What evaluation does to the environment *)

Section Relation.

Variable R : Environment -> Environment -> Prop.
Hypothesis R_refl : forall env, R env env.
Hypothesis R_trans : forall e1 e2 e3, R e1 e2 -> R e2 e3 -> R e1 e3.
Hypothesis R_store : forall env k v, R env ((k, v) :: env).

Ltac step E :=
  match goal with
  | H : res_bind ?m _ = Ok _ |- _ =>
      let x := fresh "x" in
      destruct m as [x| |] eqn:E; cbn [res_bind] in H; [|discriminate H ..]
  end.

Lemma relates_nilable Ev o :
  on_opt (fun e => relates R (Ev e)) o -> relates R (Evaluate_nilable Ev o).
Proof.
  intros H env a env' E. destruct o as [e|]; cbn in *.
  - eapply H; eauto.
  - inversion E; subst. apply R_refl.
Qed.

Lemma relates_evaluateStmts_loop Ev ss :
  Forall (fun s => relates R (Ev s)) ss ->
  forall result, relates R (evaluateStmts_loop Ev ss result).
Proof.
  induction 1 as [|s ss Hs _ IH]; intros result env a env' E; cbn [evaluateStmts_loop] in E.
  - inversion E; subst. apply R_refl.
  - step E1. destruct x as [r1 env1]. apply Hs in E1. apply IH in E. eauto.
Qed.

Lemma relates_evaluateExprs_loop Ev l :
  Forall (fun o => relates R (Ev o)) l ->
  forall result, relates R (evaluateExprs_loop Ev l result).
Proof.
  induction 1 as [|o l Ho _ IH]; intros result env a env' E; cbn [evaluateExprs_loop] in E.
  - inversion E; subst. apply R_refl.
  - step E1. destruct x as [r1 env1]. apply Ho in E1. step E2.
    destruct (x =? ERR).
    + inversion E; subst. exact E1.
    + apply IH in E. eauto.
Qed.

Lemma relates_Evaluate :
  (forall e, relates R (Evaluate_Expr e))
  /\ (forall s, relates R (Evaluate_Stmt s))
  /\ (forall b, relates R (Evaluate_BlockStmt b)).
Proof.
  apply ast_induction.
  - intros i env a env' E. inversion E; subst. apply R_refl.
  - intros t v env a env' E. inversion E; subst. apply R_refl.
  - intros t v env a env' E. inversion E; subst. apply R_refl.
  - intros t op x Hx env a env' E. cbn [evaluator.Evaluate_Expr] in E.
    step E1. destruct x0 as [v env1]. apply (relates_nilable _ _ Hx) in E1.
    step E2. destruct (x0 =? ERR); [inversion E; subst; exact E1|].
    step E3. inversion E; subst. exact E1.
  - intros t l op r Hl Hr env a env' E. cbn [evaluator.Evaluate_Expr] in E.
    step E1. destruct x as [v env1]. apply (relates_nilable _ _ Hl) in E1.
    step E2. destruct (x =? ERR); [inversion E; subst; exact E1|].
    step E3. destruct x0 as [v2 env2]. apply (relates_nilable _ _ Hr) in E3.
    step E4. destruct (x0 =? ERR); [inversion E; subst; eauto|].
    step E5. inversion E; subst. eauto.
  - intros t c p f Hc Hp Hf env a env' E. cbn [evaluator.Evaluate_Expr] in E.
    unfold evaluateIfExpr in E.
    step E1. destruct x as [v env1]. apply (relates_nilable _ _ Hc) in E1.
    destruct (isTrue v); [apply Hp in E; eauto|].
    destruct f as [fb|]; [apply Hf in E; eauto|].
    inversion E; subst. exact E1.
  - intros t f args Hf Hargs env a env' E. cbn [evaluator.Evaluate_Expr] in E.
    step E1. destruct x as [v env1]. apply (relates_nilable _ _ Hf) in E1.
    step E2. destruct (x =? ERR); [inversion E; subst; exact E1|].
    step E3. destruct x0 as [vs env2]. unfold evaluateExprs in E3.
    apply (relates_evaluateExprs_loop (Evaluate_nilable Evaluate_Expr)) in E3.
    + step E4. destruct x0; inversion E; subst; eauto.
    + eapply Forall_impl; [|exact Hargs]. intros o Ho. apply relates_nilable, Ho.
  - intros t c b _ _ env a env' E. inversion E; subst. apply R_refl.
  - intros t i v Hv env a env' E. cbn [evaluator.Evaluate_Stmt] in E.
    step E1. destruct x as [v1 env1]. apply (relates_nilable _ _ Hv) in E1.
    step E2. destruct (x =? ERR); cbn [Store] in E; inversion E; subst; eauto.
  - intros env a env' E. discriminate E.
  - intros t e He env a env' E. cbn [evaluator.Evaluate_Stmt] in E.
    apply (relates_nilable _ _ He) in E. exact E.
  - intros t ss Hss env a env' E. cbn [evaluator.Evaluate_BlockStmt] in E.
    apply (relates_evaluateStmts_loop Evaluate_Stmt ss Hss) in E. exact E.
Qed.

End Relation.

Lemma extends_Evaluate :
  (forall e, relates extends (Evaluate_Expr e))
  /\ (forall s, relates extends (Evaluate_Stmt s))
  /\ (forall b, relates extends (Evaluate_BlockStmt b)).
Proof.
  apply relates_Evaluate.
  - intros env. exists []. reflexivity.
  - intros e1 e2 e3 [n1 ->] [n2 ->]. exists (n2 ++ n1). apply app_assoc.
  - intros env k v. exists [(k, v)]. reflexivity.
Qed.

Lemma extends_keeps_names env env' : extends env env' -> keeps_names env env'.
Proof.
  intros [new ->] k H. induction new as [|[k' v] new IH]; [exact H|].
  cbn [app Get]. destruct (k' =? k); [reflexivity|exact IH].
Qed.

Lemma extends_evaluateStmts ss : forall result,
  relates extends (evaluateStmts_loop Evaluate_Stmt ss result).
Proof.
  apply relates_evaluateStmts_loop.
  - intros env. exists []. reflexivity.
  - intros e1 e2 e3 [n1 ->] [n2 ->]. exists (n2 ++ n1). apply app_assoc.
  - apply Forall_forall. intros s _. apply extends_Evaluate.
Qed.

(** *** Items *)

Lemma Type_ERR v : Type_ v = Ok ERR -> exists m, v = Some (Error m).
Proof. destruct v as [[]|]; try discriminate. eauto. Qed.

Lemma Type_is_error v t :
  Type_ (Some v) = Ok t -> (t =? ERR) = is_error v.
Proof. destruct v; intros H; inversion H; reflexivity. Qed.

(** *** Statements in a row *)

Lemma evaluateStmts_loop_app Ev a : forall b result env,
  evaluateStmts_loop Ev (a ++ b) result env
  = let? (r1, env1) := evaluateStmts_loop Ev a result env in
    evaluateStmts_loop Ev b r1 env1.
Proof.
  induction a as [|s a IH]; intros b result env; [reflexivity|].
  cbn [app evaluateStmts_loop]. destruct (Ev s env) as [[r1 env1]| |]; cbn [res_bind];
    [apply IH|reflexivity..].
Qed.

Lemma evaluateStmts_loop_result Ev b : b <> [] -> forall r1 r2 env,
  evaluateStmts_loop Ev b r1 env = evaluateStmts_loop Ev b r2 env.
Proof.
  destruct b as [|s b]; [congruence|]. intros _ r1 r2 env. reflexivity.
Qed.

End Evaluator.

End EvalFacts.

(** ** Printing the trees *)

Module StringFacts.
Import golib lexer ast AstSpec AstFacts.

Lemma prints_bind {A B} (r : Res A) c (k : A -> Res B) c' :
  prints r c -> (forall s, prints (k s) c') -> prints (res_bind r k) (c && c').
Proof.
  destruct r as [s| |]; cbn; intros H Hk; subst; [apply Hk|reflexivity|contradiction].
Qed.

Lemma prints_last {A B} (r : Res A) c (k : A -> B) :
  prints r c -> prints (res_bind r (fun s => Ok (k s))) c.
Proof. destruct r; cbn; auto. Qed.

Lemma prints_opt o :
  on_opt (fun e => prints (Expr_String e) (complete e)) o ->
  prints (match o with Some e' => Expr_String e' | None => Panic end)
         (match o with Some a => complete a | None => false end).
Proof. destruct o; cbn; auto. Qed.

Lemma prints_String :
  (forall e, prints (Expr_String e) (complete e))
  /\ (forall s, prints (Stmt_String s) (complete_stmt s))
  /\ (forall b, prints (BlockStmt_String b) (complete_block b)).
Proof.
  apply ast_induction.
  - reflexivity.
  - reflexivity.
  - reflexivity.
  - intros t op x Hx. cbn [Expr_String complete].
    apply prints_last, (prints_opt x Hx).
  - intros t l op r Hl Hr. cbn [Expr_String complete].
    apply prints_bind; [apply (prints_opt l Hl)|]. intros sl.
    apply prints_last, (prints_opt r Hr).
  - intros t c p f Hc Hp Hf. cbn [Expr_String complete]. rewrite <- andb_assoc.
    apply prints_bind; [apply (prints_opt c Hc)|]. intros sc.
    apply prints_bind; [exact Hp|]. intros sp.
    destruct f as [b|]; [|reflexivity].
    apply prints_last, Hf.
  - intros t f args Hf Hargs. cbn [Expr_String complete].
    apply prints_bind.
    + induction Hargs as [|a r Ha _ IH]; [reflexivity|]. cbn [forallb].
      apply prints_bind; [apply (prints_opt a Ha)|]. intros sa.
      apply prints_last, IH.
    + intros sargs. apply prints_last, (prints_opt f Hf).
  - intros t c b Hc _. cbn [Expr_String complete].
    apply prints_last, (prints_opt c Hc).
  - intros t i [e|] Hv; cbn [Stmt_String complete_stmt]; [|reflexivity].
    apply prints_last, Hv.
  - reflexivity.
  - intros t [e|] He; cbn [Stmt_String complete_stmt]; [exact He|reflexivity].
  - intros t ss Hss. cbn [BlockStmt_String complete_block].
    induction Hss as [|s r Hs _ IH]; [reflexivity|]. cbn [forallb].
    apply prints_bind; [exact Hs|]. intros s1. apply prints_last, IH.
Qed.

Lemma prints_Program p : prints (Program_String p) (forallb complete_stmt p).
Proof.
  induction p as [|s r IH]; [reflexivity|]. cbn [Program_String forallb].
  apply prints_bind; [apply prints_String|]. intros s1. apply prints_last, IH.
Qed.

End StringFacts.

(** ** The statements the parser records *)

Module TreeFacts.
Import golib lexer ast parser FrameSpec TreeSpec.
#[local] Open Scope parser_scope.

Lemma yields_any {A} (m : M A) : yields (fun _ => True) m.
Proof. intros p a p' _. exact I. Qed.

Lemma yields_ret {A} (Q : A -> Prop) a : Q a -> yields Q (ret a).
Proof. intros H p a' p' E. inversion E; subst. exact H. Qed.

Lemma yields_bind {A B} (P : A -> Prop) (Q : B -> Prop) (m : M A) (k : A -> M B) :
  yields P m -> (forall a, P a -> yields Q (k a)) -> yields Q (bind m k).
Proof.
  intros Hm Hk p b p'. unfold bind.
  destruct (m p) as [[a p1]| |] eqn:E; try discriminate.
  intros H. eapply Hk; eauto.
Qed.

Lemma yields_out_of_fuel {A} (Q : A -> Prop) : yields Q (@out_of_fuel A).
Proof. intros p a p' H. discriminate. Qed.

(** The methods that only read the parser. *)
Lemma current_reads p c p' : current p = Ok (c, p') -> p' = p.
Proof.
  unfold current, bind, get, token_at. destruct (nth_error _ _); intros H; inversion H.
  reflexivity.
Qed.

Lemma end_reads p e p' :
  end_ p = Ok (e, p') -> p' = p /\ exists c, current p = Ok (c, p).
Proof.
  unfold end_, bind. destruct (current p) as [[c p1]| |] eqn:E; try discriminate.
  apply current_reads in E as E'. subst p1. intros H. inversion H; subst. eauto.
Qed.

Lemma peek_reads p pk p' : peek p = Ok (pk, p') -> p' = p.
Proof.
  unfold peek, bind. destruct (end_ p) as [[e p1]| |] eqn:E; try discriminate.
  apply end_reads in E as [-> _]. destruct e; cbn [negb ret].
  - intros H. inversion H. reflexivity.
  - unfold get, token_at. destruct (nth_error _ _); intros H; inversion H. reflexivity.
Qed.

Section Handlers.

Variable fmt_q : string -> string.
Variable parseExpr_rec : Z -> M (option Expr).
Hypothesis yields_rec : forall prec, yields (fun o => proper_opt o = true) (parseExpr_rec prec).

Create HintDb yields.

Ltac y_bind :=
  eapply yields_bind;
  [ first [ apply yields_rec | solve [eauto 2 with yields nocore] | apply yields_any ]
  | intros ? ? ].

Tactic Notation "y_bind" "as" ident(x) ident(H) :=
  eapply yields_bind;
  [ first [ apply yields_rec | solve [eauto 2 with yields nocore] | apply yields_any ]
  | intros x H ].

Ltac y_step :=
  match goal with
  | |- yields _ (bind _ _) => y_bind
  | |- yields _ (if ?b then _ else _) => destruct b
  | |- yields _ (match ?x with _ => _ end) => destruct x
  | |- yields _ out_of_fuel => apply yields_out_of_fuel
  | |- yields _ (ret _) =>
      apply yields_ret; cbn [proper proper_opt proper_stmt proper_stmt_opt proper_block];
      rewrite ?andb_true_iff; auto
  end.
Ltac y_auto := repeat y_step.

Notation yields_expr := (yields (fun o => proper_opt o = true)).

Lemma yields_parseIdent : yields_expr parseIdent.
Proof. unfold parseIdent. y_auto. Qed.

Lemma yields_parseIntLiteral : yields_expr (parseIntLiteral fmt_q).
Proof. unfold parseIntLiteral. y_auto. Qed.

Lemma yields_parseStrLiteral : yields_expr parseStrLiteral.
Proof. unfold parseStrLiteral. y_auto. Qed.

Lemma yields_parsePrefixExpr : yields_expr (parsePrefixExpr parseExpr_rec).
Proof. unfold parsePrefixExpr. y_auto. Qed.

Lemma yields_parseInfixExpr l :
  proper_opt l = true -> yields_expr (parseInfixExpr parseExpr_rec l).
Proof. intros Hl. unfold parseInfixExpr. y_auto. Qed.

Lemma yields_parseGroupingExpr : yields_expr (parseGroupingExpr parseExpr_rec).
Proof. unfold parseGroupingExpr. y_auto. Qed.

Lemma yields_parseCallArgs_loop fuel : forall args,
  forallb proper_opt args = true ->
  yields (fun l => forallb proper_opt l = true) (parseCallArgs_loop parseExpr_rec fuel args).
Proof.
  induction fuel as [|fuel IH]; intros args Ha; cbn [parseCallArgs_loop]; y_auto.
  apply IH. rewrite forallb_app, Ha. cbn. rewrite andb_true_r. assumption.
Qed.

Lemma yields_parseCallArgs :
  yields (fun l => forallb proper_opt l = true) (parseCallArgs parseExpr_rec).
Proof.
  unfold parseCallArgs. y_bind. destruct a; [y_auto|].
  y_bind. y_bind. y_bind.
  eapply yields_bind.
  - apply yields_parseCallArgs_loop. cbn. rewrite andb_true_r. assumption.
  - intros args Hargs. y_auto.
Qed.
#[local] Hint Resolve yields_parseCallArgs : yields.

Lemma yields_parseCallExpr fn :
  proper_opt fn = true -> yields_expr (parseCallExpr parseExpr_rec fn).
Proof.
  intros Hf. unfold parseCallExpr. y_bind. y_bind as args Hargs.
  apply yields_ret. cbn [proper_opt proper]. fold proper_opt.
  rewrite Hargs. destruct fn; cbn in *; rewrite ?Hf; reflexivity.
Qed.

Lemma yields_parseVarStmt :
  yields (fun o => proper_stmt_opt o = true) (parseVarStmt parseExpr_rec).
Proof. unfold parseVarStmt. y_auto. Qed.

Lemma yields_parseExprStmt :
  yields (fun s => proper_stmt s = true) (parseExprStmt parseExpr_rec).
Proof. unfold parseExprStmt. y_auto. Qed.
#[local] Hint Resolve yields_parseExprStmt : yields.

(** [parseVarStmt] is called with the assignment sign ahead, so its test
    for that sign cannot fail: it does not return the nil pointer. *)
Lemma parseVarStmt_not_nil p pk p1 r p2 :
  peek p = Ok (pk, p1) -> (Name pk =? lexer.EQUALS)%string = true ->
  parseVarStmt parseExpr_rec p1 = Ok (r, p2) -> r <> None.
Proof.
  intros Hpk Hn. apply peek_reads in Hpk as Hp. subst p1.
  assert (He : end_ p = Ok (false, p)).
  { unfold peek, bind in Hpk. destruct (end_ p) as [[e pe]| |] eqn:E; try discriminate.
    apply end_reads in E as E'. destruct E' as [-> _].
    destruct e; [|reflexivity]. cbn in Hpk. inversion Hpk; subst pk. discriminate Hn. }
  destruct (end_reads _ _ _ He) as (_ & c & Hc).
  unfold parseVarStmt, bind. do 3 (rewrite Hc; cbv beta iota).
  unfold expectPeek, checkPeek, bind. rewrite He; cbv beta iota.
  rewrite Hpk; cbv beta iota delta [ret]. rewrite Hn; cbv beta iota delta [negb].
  destruct (next p) as [[u pn]| |]; cbn [ret]; try discriminate.
  destruct (next pn) as [[u' pn']| |]; try discriminate.
  destruct (parseExpr_rec LOWEST pn') as [[v pv]| |]; try discriminate.
  destruct (budget pv) as [[n pb]| |]; try discriminate.
  destruct (skip_while _ n pb) as [[u2 ps]| |]; try discriminate.
  intros H. inversion H. discriminate.
Qed.

Lemma yields_parseStmt :
  yields (fun o => proper_stmt_opt o = true) (parseStmt parseExpr_rec).
Proof.
  intros p o p'. unfold parseStmt, bind.
  destruct (current p) as [[c pc]| |] eqn:Ec; try discriminate.
  apply current_reads in Ec as Hpc. subst pc.
  assert (X : forall q o' q',
             (match parseExprStmt parseExpr_rec q with
              | Ok (s, q1) => ret (Some s) q1
              | Panic => Panic
              | OutOfFuel => OutOfFuel
              end) = Ok (o', q') -> proper_stmt_opt o' = true).
  { intros q o' q' H.
    destruct (parseExprStmt parseExpr_rec q) as [[s q1]| |] eqn:E; try discriminate.
    inversion H; subst. exact (yields_parseExprStmt _ _ _ E). }
  destruct (Name c =? IDENT)%string.
  - destruct (peek p) as [[pk p1]| |] eqn:Epk; try discriminate.
    destruct (Name pk =? lexer.EQUALS)%string eqn:En; [|apply X].
    destruct (parseVarStmt parseExpr_rec p1) as [[s p2]| |] eqn:Ev; try discriminate.
    intros H. inversion H; subst.
    pose proof (parseVarStmt_not_nil _ _ _ _ _ Epk En Ev) as Hs.
    pose proof (yields_parseVarStmt _ _ _ Ev) as Hp.
    destruct s; [exact Hp|congruence].
  - destruct (Name c =? NL)%string; [|apply X].
    intros H. inversion H. reflexivity.
Qed.
#[local] Hint Resolve yields_parseStmt : yields.

Lemma yields_parseBlockStmt_loop fuel : forall stmts,
  forallb proper_stmt stmts = true ->
  yields (fun l => forallb proper_stmt l = true)
         (parseBlockStmt_loop parseExpr_rec fuel stmts).
Proof.
  induction fuel as [|fuel IH]; intros stmts Hs; cbn [parseBlockStmt_loop].
  - y_auto.
  - y_bind. y_bind. y_bind as e He. destruct e; [|y_auto].
    y_bind as stmt Hstmt. y_bind. y_bind. y_bind. apply IH.
    destruct stmt as [s|]; [|exact Hs].
    rewrite forallb_app, Hs. cbn in *. rewrite Hstmt. reflexivity.
Qed.

Lemma yields_parseBlockStmt :
  yields (fun b => proper_block b = true) (parseBlockStmt parseExpr_rec).
Proof.
  unfold parseBlockStmt. do 6 y_bind.
  eapply yields_bind; [apply yields_parseBlockStmt_loop; reflexivity|].
  intros stmts Hs. y_bind. apply yields_ret. exact Hs.
Qed.
#[local] Hint Resolve yields_parseBlockStmt : yields.

Lemma yields_parseIfExpr : yields_expr (parseIfExpr parseExpr_rec).
Proof.
  unfold parseIfExpr. y_bind. y_bind. y_bind as cond Hc. y_bind. destruct a1; [|y_auto].
  y_bind. destruct a1; [|y_auto]. y_bind as pass Hp. y_bind. destruct a1.
  - y_bind as fail Hf. apply yields_ret. cbn [proper_opt proper]. fold (proper_opt cond).
    rewrite Hc, Hp, Hf. reflexivity.
  - apply yields_ret. cbn [proper_opt proper]. fold (proper_opt cond).
    rewrite Hc, Hp. reflexivity.
Qed.

Lemma yields_parseWhileExpr : yields_expr (parseWhileExpr parseExpr_rec).
Proof.
  unfold parseWhileExpr. y_bind. y_bind. y_bind as cond Hc. y_bind. destruct a1; [|y_auto].
  y_bind. destruct a1; [|y_auto]. y_bind as body Hb.
  apply yields_ret. cbn [proper_opt proper]. fold (proper_opt cond).
  rewrite Hc, Hb. reflexivity.
Qed.

Lemma yields_call_prefix fn : yields_expr (call_prefix fmt_q parseExpr_rec fn).
Proof.
  destruct fn; cbn [call_prefix];
    auto using yields_parseIdent, yields_parseIntLiteral, yields_parseStrLiteral,
      yields_parsePrefixExpr, yields_parseGroupingExpr, yields_parseIfExpr,
      yields_parseWhileExpr.
Qed.

Lemma yields_call_infix fn l :
  proper_opt l = true -> yields_expr (call_infix parseExpr_rec fn l).
Proof.
  intros Hl. destruct fn; cbn [call_infix];
    auto using yields_parseInfixExpr, yields_parseCallExpr.
Qed.

Lemma yields_parseExpr_loop fuel prec : forall left,
  proper_opt left = true ->
  yields_expr (parseExpr_loop parseExpr_rec fuel prec left).
Proof.
  induction fuel as [|fuel IH]; intros left Hl; cbn [parseExpr_loop].
  - y_auto.
  - y_bind. y_bind. destruct a0; [|y_auto]. y_bind. y_bind.
    destruct (map_get _ _) as [fn|]; [|y_auto]. y_bind.
    eapply yields_bind; [apply yields_call_infix; exact Hl|]. intros l' Hl'.
    apply IH. exact Hl'.
Qed.

Lemma yields_parseExpr_body prec :
  yields_expr (parseExpr_body fmt_q parseExpr_rec prec).
Proof.
  unfold parseExpr_body. y_bind. y_bind.
  destruct (map_get _ _) as [pre|]; [|y_auto].
  eapply yields_bind; [apply yields_call_prefix|]. intros l Hl. y_bind.
  apply yields_parseExpr_loop. exact Hl.
Qed.

End Handlers.

Lemma yields_parseExpr fmt_q fuel : forall prec,
  yields (fun o => proper_opt o = true) (parseExpr fmt_q fuel prec).
Proof.
  induction fuel as [|fuel IH]; intros prec; cbn [parseExpr].
  - apply yields_out_of_fuel.
  - apply yields_parseExpr_body. exact IH.
Qed.

(** The handlers below [parse] leave the recorded statements alone. *)
Lemma same_statements_parseStmt fmt_q depth :
  preserves same_statements (parseStmt (parseExpr fmt_q depth)).
Proof.
  apply FrameFacts.pres_parseStmt; unfold same_statements; try reflexivity;
    try congruence.
  intros prec. apply FrameFacts.pres_parseExpr; unfold same_statements;
    try reflexivity; congruence.
Qed.

Lemma same_statements_end_ : preserves same_statements end_.
Proof.
  intros p a p' H. apply end_reads in H as [-> _]. reflexivity.
Qed.

Lemma same_statements_next : preserves same_statements next.
Proof.
  intros p a p'. unfold next, bind.
  destruct (end_ p) as [[e p1]| |] eqn:E; try discriminate.
  apply end_reads in E as [-> _]. destruct e; cbn; intros H; inversion H; reflexivity.
Qed.

Lemma parse_loop_proper fmt_q depth fuel : forall p u p',
  forallb proper_stmt (statements p) = true ->
  parse_loop fmt_q depth fuel p = Ok (u, p') ->
  forallb proper_stmt (statements p') = true.
Proof.
  induction fuel as [|fuel IH]; intros p u p' Hp; cbn [parse_loop]; unfold bind.
  - destruct (end_ p) as [[e p1]| |] eqn:E; try discriminate.
    apply same_statements_end_ in E. destruct e; cbn; [|discriminate].
    intros H. inversion H; subst. rewrite E. exact Hp.
  - destruct (end_ p) as [[e p1]| |] eqn:E; try discriminate.
    apply same_statements_end_ in E. destruct e; cbn [negb].
    { intros H. inversion H; subst. rewrite E. exact Hp. }
    destruct (parseStmt (parseExpr fmt_q depth) p1) as [[s p2]| |] eqn:Es; try discriminate.
    pose proof (yields_parseStmt _ (yields_parseExpr fmt_q depth) _ _ _ Es) as Hs.
    apply same_statements_parseStmt in Es.
    destruct (match s with
              | Some s0 => modify (fun p0 => set_statements p0 (statements p0 ++ [s0]))
              | None => ret tt
              end p2) as [[u3 p3]| |] eqn:Em; try discriminate.
    assert (H3 : forallb proper_stmt (statements p3) = true).
    { destruct s as [s|]; inversion Em; subst; cbn.
      - rewrite forallb_app, Es, E, Hp. cbn in *. rewrite Hs. reflexivity.
      - rewrite Es, E. exact Hp. }
    destruct (next p3) as [[u4 p4]| |] eqn:En; try discriminate.
    apply same_statements_next in En. apply IH. rewrite En. exact H3.
Qed.

Lemma parse_proper fmt_q p stmts p' :
  forallb proper_stmt (statements p) = true ->
  parse fmt_q p = Ok (stmts, p') ->
  forallb proper_stmt stmts = true /\ stmts = statements p'.
Proof.
  intros Hp H.
  change (parse fmt_q p)
    with (match parse_loop fmt_q (List.length (tokens p)) (List.length (tokens p)) p with
          | Ok (_, p1) => Ok (statements p1, p1)
          | Panic => Panic
          | OutOfFuel => OutOfFuel
          end) in H.
  destruct (parse_loop fmt_q (List.length (tokens p)) (List.length (tokens p)) p)
    as [[u p1]| |] eqn:E; try discriminate.
  inversion H; subst. split; [|reflexivity].
  eapply parse_loop_proper; eauto.
Qed.

End TreeFacts.

(** ** Names in error messages *)

Module NameFacts.
Import golib lexer ast interpreter evaluator WordSpec.

Lemma has_percent_word_bytes w :
  all_word_bytes w = true -> has_percent w = false.
Proof.
  unfold has_percent. induction w as [|c r IH]; intros H; [reflexivity|].
  cbn [all_word_bytes] in H. apply andb_true_iff in H as [Hc Hr].
  cbn [list_ascii_of_string existsb]. rewrite (IH Hr), orb_false_r.
  rewrite Ascii.eqb_sym. apply WordFacts.word_byte_neq; [exact Hc|reflexivity].
Qed.

Lemma word_all_word_bytes w : word w = true -> all_word_bytes w = true.
Proof.
  destruct w as [|c r]; [discriminate|]. cbn [word all_word_bytes].
  intros H. apply andb_true_iff in H as [Hc Hr]. unfold word_byte.
  rewrite Hc, Hr. reflexivity.
Qed.

End NameFacts.

(** * The claims *)

Section Claims.
Import golib lexer ast parser LexSpec LitSpec ParseSpec.

(** C1: on the empty input the first, untested, iteration of [lex] reads
    [l.input[0]]: [StartLex] panics instead of returning a sequence that ends
    with the end-of-input token. *)
Theorem StartLex_empty_input_panics : StartLex "" = Panic.
Proof. reflexivity. Qed.

(** C2: lexing [iffy] yields one token whose text is [iffy] and whose kind
    is still the keyword kind [IF]: [currentType] is never set to
    [TokenKeyword], so the branch of [lexText] that would restore [IDENT]
    is not taken. *)
Theorem lex_iffy_keeps_keyword_kind :
  StartLex "iffy" = Ok [tok IF "iffy" 1 0; tok EOF "" 2 0].
Proof. reflexivity. Qed.

(** C3: the relational operator [<] has a precedence but no infix handler;
    parsing [a < b] stops after the left operand and yields three separate
    expression statements, none of them an infix node. *)
Theorem parse_less_than_has_no_infix_node : forall fmt_q,
  exists p,
    StartParseRepl fmt_q "a < b" = Ok p
    /\ statements p =
         [ ExprStmt (tok IDENT "a" 1 0) (Some (ident_at "a" 1 0));
           ExprStmt (tok LESS "<" 1 2) None;
           ExprStmt (tok IDENT "b" 1 4) (Some (ident_at "b" 1 4)) ]
    /\ map_get precedence LESS = Some GTLT
    /\ map_get (infixParseFns p) LESS = None.
Proof. intros. eexists. split; [vm_compute; reflexivity|]. repeat split. Qed.

(** C4: [a = 1 + 2 * 3] is a binding of [a] to the tree (1 + (2 * 3)): the
    product is the right operand of the sum. *)
Theorem parse_binding_precedence : forall fmt_q,
  exists p,
    StartParseRepl fmt_q "a = 1 + 2 * 3" = Ok p
    /\ statements p =
         [ VarStmt (tok IDENT "a" 1 0) (mkIdentifier (tok IDENT "a" 1 0) "a")
             (Some (InfixExpr (tok ADD "+" 1 6)
                      (Some (num_at "1" 1 1 4)) "+"
                      (Some (InfixExpr (tok MULT "*" 1 10)
                               (Some (num_at "2" 2 1 8)) "*"
                               (Some (num_at "3" 3 1 12)))))) ]
    /\ errors p = []
    /\ Program_String (statements p) = Ok "a a = (1 + (2 * 3))".
Proof. intros. eexists. split; [vm_compute; reflexivity|]. repeat split. Qed.

(** C5: an unterminated string of two or more bytes is emitted as a
    [STRING] token that runs to the end of the input, not as an [ILLEGAL]
    token. *)
Theorem lexString_unterminated_yields_string :
  StartLex (dq ++ "ab")%string = Ok [tok STRING "ab" 1 0; tok EOF "" 2 0].
Proof. reflexivity. Qed.

(** C6: [if x] followed by a newline does not panic; the pass records
    exactly one diagnostic and returns the statement sequence, here the one
    expression statement of the malformed construct (its expression is
    nil). Statements before and after the construct are kept as well. *)
Theorem parse_if_without_colon : forall fmt_q,
  (exists p,
      StartParseRepl fmt_q ("if x" ++ nl)%string = Ok p
      /\ errors p =
           ["error at line 1, column 4: expected next token to be :, got NEWLINE instead"]
      /\ statements p = [ExprStmt (tok IF "if" 1 0) None])
  /\ (exists p,
      StartParseRepl fmt_q ("a = 1" ++ nl ++ "if x" ++ nl ++ "b = 2" ++ nl)%string
      = Ok p
      /\ List.length (errors p) = 1%nat
      /\ statements p =
           [ VarStmt (tok IDENT "a" 1 0) (mkIdentifier (tok IDENT "a" 1 0) "a")
               (Some (num_at "1" 1 1 4));
             ExprStmt (tok IF "if" 2 1) None;
             VarStmt (tok IDENT "b" 3 1) (mkIdentifier (tok IDENT "b" 3 1) "b")
               (Some (num_at "2" 2 3 5)) ]).
Proof.
  intros. split; eexists; (split; [vm_compute; reflexivity|]); repeat split.
Qed.

(** C7, as amended: for every canonical decimal numeral (digits only, no
    zero in front of another digit) that denotes a number below 2^63,
    parsing the text yields the integer literal node of that number, and the
    node renders as the text. *)
Theorem parse_integer_literal_roundtrip : forall fmt_q s,
  all_digits s = true -> canonical s = true -> (value s < 2 ^ 63)%Z ->
  literal_roundtrip fmt_q s.
Proof. intros. apply LitFacts.literal_roundtrip_canonical; assumption. Qed.

(** C8: the call [f(1, 2)] has the two arguments 1 and 2, in this order;
    the call [f()] has none. *)
Theorem parse_call_arguments : forall fmt_q,
  (exists p,
      StartParseRepl fmt_q "f(1, 2)" = Ok p
      /\ statements p =
           [ ExprStmt (tok IDENT "f" 1 0)
               (Some (CallExpr (tok LEFTPAREN "(" 1 1) (Some (ident_at "f" 1 0))
                        [Some (num_at "1" 1 1 2); Some (num_at "2" 2 1 5)])) ]
      /\ errors p = [])
  /\ (exists p,
      StartParseRepl fmt_q "f()" = Ok p
      /\ statements p =
           [ ExprStmt (tok IDENT "f" 1 0)
               (Some (CallExpr (tok LEFTPAREN "(" 1 1) (Some (ident_at "f" 1 0)) [])) ]
      /\ errors p = []).
Proof.
  intros. split; eexists; (split; [vm_compute; reflexivity|]); repeat split.
Qed.

(** C10: [parseBlockStmt] leaves the indentation depth as it found it,
    whenever it returns, and so does [parseStmt], the body of its loop; on a
    well-formed parser state (the tokens end with their only end-of-input
    token, the cursor is on a token) and with a budget of one nested
    [parseExpr] per token, [parseBlockStmt] does return. *)
Theorem parseBlockStmt_restores_indentLevel : forall fmt_q fuel p,
  (forall b p',
      parseBlockStmt (parseExpr fmt_q fuel) p = Ok (b, p') ->
      indentLevel p' = indentLevel p)
  /\ (forall s p',
      parseStmt (parseExpr fmt_q fuel) p = Ok (s, p') ->
      indentLevel p' = indentLevel p)
  /\ (well_formed p = true -> (List.length (tokens p) <= fuel)%nat ->
      exists b p',
        parseBlockStmt (parseExpr fmt_q fuel) p = Ok (b, p')
        /\ indentLevel p' = indentLevel p).
Proof.
  intros fmt_q fuel p. split; [|split].
  - intros b p' H.
    pose proof (DepthFacts.keeps_parseBlockStmt (parseExpr fmt_q fuel)
                  (DepthFacts.keeps_parseExpr fmt_q fuel) p b p' H) as E.
    rewrite E. apply Z.add_0_r.
  - intros s p' H.
    pose proof (DepthFacts.keeps_parseStmt (parseExpr fmt_q fuel)
                  (DepthFacts.keeps_parseExpr fmt_q fuel) p s p' H) as E.
    rewrite E. apply Z.add_0_r.
  - apply ReturnFacts.parseBlockStmt_returns.
Qed.

End Claims.

(** * Instances *)

Section Instances.
Import golib lexer ast parser LexSpec LitSpec ParseSpec.

(** C7 at the largest 64-bit integer. *)
Lemma parse_integer_literal_roundtrip_witness :
  literal_roundtrip quote_plain "9223372036854775807".
Proof.
  apply (parse_integer_literal_roundtrip quote_plain "9223372036854775807");
    reflexivity.
Defined.

(** C7 does not hold for every string of decimal digits: [010] is read in
    base 8, and 2^63 does not fit the node. *)
Lemma parse_integer_literal_not_every_digit_string :
  (all_digits "010" = true /\ ~ literal_roundtrip quote_plain "010")
  /\ (all_digits "9223372036854775808" = true
      /\ ~ literal_roundtrip quote_plain "9223372036854775808").
Proof.
  split; (split; [reflexivity|]); intros (p & H1 & H2 & H3);
    vm_compute in H1; inversion H1; subst p; vm_compute in H2; discriminate H2.
Qed.

(** What the code does at the two inputs. *)
Lemma parse_integer_literal_octal_and_overflow :
  (exists p,
      StartParseRepl quote_plain "010" = Ok p
      /\ statements p =
           [ExprStmt (tok NUM "010" 1 0) (Some (IntLiteral (tok NUM "010" 1 0) 8))]
      /\ Expr_String (IntLiteral (tok NUM "010" 1 0) 8) = Ok "8")
  /\ (exists p,
      StartParseRepl quote_plain "9223372036854775808" = Ok p
      /\ statements p = [ExprStmt (tok NUM "9223372036854775808" 1 0) None]
      /\ errors p =
           [("could not parse " ++ dq ++ "9223372036854775808" ++ dq ++ " as int")%string]).
Proof.
  split; eexists; (split; [vm_compute; reflexivity|]); repeat split.
Qed.

(** C10 at the block of a conditional: the parser is on the newline after
    the colon, as [parseIfExpr] leaves it; and at the statement inside the
    block, where the depth is one. *)
Lemma parseBlockStmt_restores_indentLevel_witness :
  well_formed (parser_at if_block_tokens 3) = true
  /\ (exists b p',
        parseBlockStmt (parseExpr quote_plain 10) (parser_at if_block_tokens 3)
        = Ok (b, p')
        /\ indentLevel p' = indentLevel (parser_at if_block_tokens 3))
  /\ (exists s p',
        parseStmt (parseExpr quote_plain 10)
          (set_indentLevel (parser_at if_block_tokens 5) 1)
        = Ok (s, p')
        /\ indentLevel p' = 1%Z).
Proof.
  split; [reflexivity|]. split.
  - apply (proj2 (proj2 (parseBlockStmt_restores_indentLevel
                           quote_plain 10 (parser_at if_block_tokens 3))));
      [reflexivity | cbn; lia].
  - eexists. eexists. split; [vm_compute; reflexivity|].
    eapply (proj1 (proj2 (parseBlockStmt_restores_indentLevel
                            quote_plain 10
                            (set_indentLevel (parser_at if_block_tokens 5) 1)))).
    vm_compute; reflexivity.
Defined.

End Instances.

(** * Further properties *)

Section Further.
Import golib lexer ast parser LexSpec LitSpec ParseSpec FrameSpec WordSpec.

(** X1: whenever the tokenizer returns on the input of [StartParseRepl],
    the parser returns as well; the cursor is then on the last token, the
    end-of-input token, and the indentation depth is back at zero. *)
Theorem StartParseRepl_consumes_all_tokens : forall fmt_q input toks,
  StartLex (ReplaceAll_4sp_tab input) = Ok toks ->
  exists p,
    StartParseRepl fmt_q input = Ok p
    /\ tokens p = toks
    /\ S (index p) = List.length toks
    /\ indentLevel p = 0%Z.
Proof.
  intros fmt_q input toks H. unfold StartParseRepl. rewrite H. cbn [res_bind].
  destruct (LexFacts.StartLex_shape _ _ H) as (body & e & -> & Hb & He).
  pose proof (LexFacts.eof_last_only_app body e Hb He) as Hwf.
  destruct (ReturnFacts.eof_last_only_spec _ Hwf) as (n & Hn & Hall).
  rewrite Hn. cbn [Nat.eqb].
  set (p0 := registerFixes (mkParser (body ++ [e]) 0 [] [] [] [] 0)).
  assert (Hv : on_tokens (body ++ [e]) n p0).
  { repeat split; cbn; lia. }
  destruct (CursorFacts.wp_parse_end (body ++ [e]) n Hn Hall fmt_q
              (fun _ p' => step (body ++ [e]) n p0 p' /\ index p' = n) p0 Hv
              (fun p' A B => conj A B))
    as (stmts & p1 & E & H1 & H2).
  rewrite E. cbn [res_bind]. exists p1.
  destruct H1 as ((Ht & _ & _) & _ & Hd).
  repeat split; [exact Ht | lia | exact Hd].
Qed.

(** X1 at an assignment. *)
Lemma StartParseRepl_consumes_all_tokens_witness :
  exists p,
    StartParseRepl quote_plain "a = 1 + 2 * 3" = Ok p
    /\ tokens p
       = [ tok IDENT "a" 1 0; tok lexer.EQUALS "=" 1 2; tok NUM "1" 1 4;
           tok ADD "+" 1 6; tok NUM "2" 1 8; tok MULT "*" 1 10;
           tok NUM "3" 1 12; tok EOF "" 2 0 ]
    /\ S (index p) = 8%nat
    /\ indentLevel p = 0%Z.
Proof.
  apply (StartParseRepl_consumes_all_tokens quote_plain "a = 1 + 2 * 3").
  reflexivity.
Defined.

(** X2: a pass of [parse] that returns leaves the tokens and the two
    dispatch tables as they were, does not move the cursor back, and only
    appends to the diagnostics and to the statements. *)
Theorem parse_only_appends : forall fmt_q p stmts p',
  parse fmt_q p = Ok (stmts, p') ->
  tokens p' = tokens p
  /\ prefixParseFns p' = prefixParseFns p
  /\ infixParseFns p' = infixParseFns p
  /\ (index p <= index p')%nat
  /\ (exists es, errors p' = errors p ++ es)
  /\ (exists ss, statements p' = statements p ++ ss /\ stmts = statements p').
Proof.
  intros fmt_q p stmts p' H.
  destruct (FrameFacts.frame_parse fmt_q p stmts p' H)
    as (A1 & A2 & A3 & A4 & A5 & (ss & A6)).
  repeat split; try assumption. exists ss. split; [assumption|].
  unfold parse, bind in H.
  destruct (budget p) as [[n p0]| |]; try discriminate.
  destruct (parse_loop fmt_q _ _ p0) as [[u p1]| |]; try discriminate.
  cbn in H. inversion H; reflexivity.
Qed.

(** X2 at the tokens of a conditional with a one-statement body. *)
Lemma parse_only_appends_witness :
  exists stmts p',
    parse quote_plain (parser_at if_block_tokens 0) = Ok (stmts, p')
    /\ tokens p' = if_block_tokens
    /\ errors p' = []
    /\ List.length stmts = 1%nat.
Proof.
  eexists. eexists. split; [vm_compute; reflexivity|].
  split; [|split; reflexivity].
  refine (proj1 (parse_only_appends quote_plain (parser_at if_block_tokens 0) _ _ _)).
  vm_compute; reflexivity.
Defined.

(** X3: on an input that is neither empty nor ended by a double quote the
    tokenizer returns, whatever budget above the length of the input its
    loop is given; what it returns is a sequence without end-of-input token
    followed by one end-of-input token of empty text. *)
Theorem StartLex_returns_eof_terminated : forall s,
  s <> "" -> String.get (String.length s - 1) s <> Some chr_dquote ->
  exists body e,
    StartLex s = Ok (body ++ [e])
    /\ noEOF body /\ Name e = EOF /\ Val e = ""
    /\ forall fuel, (String.length s < fuel)%nat ->
        StartLex_fuel fuel s = Ok (body ++ [e]).
Proof.
  intros s Hne Hq. pose proof (LexFacts.StartLex_outcome s) as H.
  destruct (StartLex s) as [toks| |] eqn:E.
  - unfold StartLex, StartLex_fuel in E.
    destruct (lex_loop (S (String.length s)) (initLexer s)) as [l| |] eqn:El;
      cbn [res_bind] in E; try discriminate.
    inversion E; subst toks. exists (lexer.tokens l), (eofToken l).
    split; [reflexivity|].
    pose proof (LexFacts.StartLex_shape s (lexer.tokens l ++ [eofToken l])) as Hs.
    unfold StartLex, StartLex_fuel in Hs. rewrite El in Hs.
    destruct (Hs eq_refl) as (body & e & Hbe & Hb & _).
    apply app_inj_tail in Hbe as [<- _].
    repeat split; try assumption.
    intros fuel Hf. rewrite (LexFacts.StartLex_fuel_enough s fuel Hf).
    unfold StartLex, StartLex_fuel. rewrite El. reflexivity.
  - destruct H; contradiction.
  - contradiction.
Qed.

(** X3 at an assignment of a string. *)
Lemma StartLex_returns_eof_terminated_witness :
  exists body e,
    StartLex ("x = " ++ dq ++ "a b" ++ dq ++ " ")%string = Ok (body ++ [e])
    /\ noEOF body /\ Name e = EOF /\ Val e = ""
    /\ forall fuel, (String.length ("x = " ++ dq ++ "a b" ++ dq ++ " ")%string < fuel)%nat ->
        StartLex_fuel fuel ("x = " ++ dq ++ "a b" ++ dq ++ " ")%string = Ok (body ++ [e]).
Proof.
  apply (StartLex_returns_eof_terminated ("x = " ++ dq ++ "a b" ++ dq ++ " ")%string);
    discriminate.
Defined.

(** X4: a non-empty string of decimal digits, of any length and with or
    without zeros in front, is tokenized as one number token that holds the
    whole text, at the first column of the first line. *)
Theorem StartLex_digit_string : forall s,
  all_digits s = true -> s <> ""%string ->
  StartLex s = Ok [tok NUM s 1 0; tok EOF "" 2 0].
Proof. intros s Hd Hne. apply LitFacts.StartLex_digits; assumption. Qed.

(** X4 at a numeral of thirty digits. *)
Lemma StartLex_digit_string_witness :
  StartLex "000123456789012345678901234567"
  = Ok [tok NUM "000123456789012345678901234567" 1 0; tok EOF "" 2 0].
Proof.
  apply (StartLex_digit_string "000123456789012345678901234567");
    [reflexivity|discriminate].
Defined.

(** X5: a word (ASCII letters, digits and underscores, not starting with a
    digit) is tokenized as one token that holds the whole word; its kind is
    that of the longest prefix of the word that is a reserved word, and it
    is an identifier exactly when no reserved word is a prefix of the
    word. *)
Theorem StartLex_word_one_token : forall w,
  word w = true ->
  StartLex w = Ok [tok (word_kind w) w 1 0; tok EOF "" 2 0]
  /\ (word_kind w = IDENT
      <-> forall kw, In kw reserved -> String.prefix kw w = false).
Proof.
  intros w Hw. split; [apply WordFacts.StartLex_word; exact Hw|].
  apply WordFacts.word_kind_IDENT.
Qed.

(** X5 at a word with no reserved prefix and at one that starts with two
    reserved words. *)
Lemma StartLex_word_one_token_witness :
  StartLex "total_2" = Ok [tok IDENT "total_2" 1 0; tok EOF "" 2 0]
  /\ StartLex "integer" = Ok [tok INT "integer" 1 0; tok EOF "" 2 0].
Proof.
  split.
  - apply (proj1 (StartLex_word_one_token "total_2" eq_refl)).
  - apply (proj1 (StartLex_word_one_token "integer" eq_refl)).
Defined.

End Further.

(** ** The evaluator and the REPL *)

Section Evaluation.
Import golib lexer ast interpreter evaluator repl LexSpec LitSpec EvalSpec.

(** X6: an expression built from 64-bit literals with the unary minus and
    the binary [+], [-] and [*] evaluates, in any environment and without
    changing it, to an integer item; the integer lies in the 64-bit range,
    is congruent modulo 2^64 to the number the expression denotes, and is
    that number when it fits 64 bits. *)
Theorem Evaluate_arithmetic_modulo_2_64 : forall Sprintf_verbs e z env,
  arith e = Some z ->
  exists v,
    Evaluate_Expr Sprintf_verbs e env = Ok (Some (Int v), env)
    /\ int64 v = true
    /\ ((v - z) mod 2 ^ 64 = 0)%Z
    /\ (int64 z = true -> v = z).
Proof.
  intros sv e z env H. exists (wrap64 z).
  split; [apply EvalFacts.Evaluate_arith; exact H|].
  split; [apply EvalFacts.wrap64_range|].
  split; [apply EvalFacts.wrap64_congruent|apply EvalFacts.wrap64_small].
Qed.

(** X6 at [-(3 - 5) * 7], and at the largest integer plus one. *)
Lemma Evaluate_arithmetic_modulo_2_64_witness :
  (exists v,
     Evaluate_Expr (fun s => s)
       (InfixExpr zeroToken
          (Some (PrefixExpr zeroToken "-"
                   (Some (InfixExpr zeroToken (Some (IntLiteral zeroToken 3)) "-"
                            (Some (IntLiteral zeroToken 5))))))
          "*" (Some (IntLiteral zeroToken 7))) NewEnv
     = Ok (Some (Int v), NewEnv)
     /\ int64 v = true
     /\ ((v - 14) mod 2 ^ 64 = 0)%Z
     /\ (int64 14 = true -> v = 14%Z))
  /\ (exists v,
     Evaluate_Expr (fun s => s)
       (InfixExpr zeroToken (Some (IntLiteral zeroToken 9223372036854775807)) "+"
          (Some (IntLiteral zeroToken 1))) NewEnv
     = Ok (Some (Int v), NewEnv)
     /\ int64 v = true
     /\ ((v - 9223372036854775808) mod 2 ^ 64 = 0)%Z
     /\ (int64 9223372036854775808 = true -> v = 9223372036854775808%Z)).
Proof.
  split.
  - apply (Evaluate_arithmetic_modulo_2_64 (fun s => s)
             (InfixExpr zeroToken
                (Some (PrefixExpr zeroToken "-"
                         (Some (InfixExpr zeroToken (Some (IntLiteral zeroToken 3)) "-"
                                  (Some (IntLiteral zeroToken 5))))))
                "*" (Some (IntLiteral zeroToken 7))) 14 NewEnv).
    reflexivity.
  - apply (Evaluate_arithmetic_modulo_2_64 (fun s => s)
             (InfixExpr zeroToken (Some (IntLiteral zeroToken 9223372036854775807)) "+"
                (Some (IntLiteral zeroToken 1))) 9223372036854775808 NewEnv).
    reflexivity.
Defined.

(** X7: on two operands that are not nil, [evaluateInfixExpr] panics in one
    case only, the division of an integer by the integer zero; in every
    other case it returns an item, never nil. *)
Theorem evaluateInfixExpr_panics_only_dividing_by_zero : forall op l r,
  (evaluateInfixExpr op (Some l) (Some r) = Panic
   <-> op = "/" /\ r = Int 0 /\ exists a, l = Int a)
  /\ (evaluateInfixExpr op (Some l) (Some r) <> Panic ->
      exists v, evaluateInfixExpr op (Some l) (Some r) = Ok (Some v)).
Proof.
  intros op l r.
  assert (D : forall x : Res (option Item),
            (exists v, x = Ok (Some v)) ->
            ~ (op = "/" /\ r = Int 0 /\ exists a, l = Int a) ->
            (x = Panic <-> op = "/" /\ r = Int 0 /\ exists a, l = Int a)
            /\ (x <> Panic -> exists v, x = Ok (Some v))).
  { intros x [v ->] N. split; [|eauto]. split; [discriminate|contradiction]. }
  assert (S : forall op' l' r', exists v, evaluateStrInfixExpr op' (Some l') (Some r') = Ok (Some v)).
  { intros op' l' r'. unfold evaluateStrInfixExpr.
    destruct (Visit (Some l')) as [sl| |] eqn:El; [|destruct l'; discriminate..].
    destruct (Visit (Some r')) as [sr| |] eqn:Er; [|destruct r'; discriminate..].
    cbn [res_bind]. destruct (op' =? "+"); eauto. }
  destruct l as [m|a|s| | |b|f], r as [m'|a'|s'| | |b'|f'];
    try (apply D; [first [apply S | eexists; reflexivity]
                  | intros (_ & Hr & a0 & Hl); discriminate]).
  unfold evaluateInfixExpr, evaluateIntInfixExpr. cbn [Type_ res_bind].
  change (INT =? INT) with true. cbn [andb].
  destruct (String.eqb_spec op "+") as [->|N1];
    [apply D; [eexists; reflexivity | intros (H & _); discriminate]|].
  destruct (String.eqb_spec op "-") as [->|N2];
    [apply D; [eexists; reflexivity | intros (H & _); discriminate]|].
  destruct (String.eqb_spec op "*") as [->|N3];
    [apply D; [eexists; reflexivity | intros (H & _); discriminate]|].
  destruct (String.eqb_spec op "/") as [->|N4].
  - destruct (Z.eqb_spec a' 0) as [->|N0].
    + split; [|congruence]. split; [|reflexivity]. intros _. eauto.
    + apply D; [eexists; reflexivity|]. intros (_ & Hr & _). congruence.
  - apply D; [|intros (H & _); contradiction].
    destruct (op =? "<"); [eexists; reflexivity|].
    destruct (op =? ">"); [eexists; reflexivity|].
    destruct (op =? "=="); [eexists; reflexivity|].
    destruct (op =? "!="); eexists; reflexivity.
Qed.

(** X7 at the division of one by zero, and at a comparison the evaluator
    does not know. *)
Lemma evaluateInfixExpr_panics_only_dividing_by_zero_witness :
  evaluateInfixExpr "/" (Some (Int 1)) (Some (Int 0)) = Panic
  /\ exists v, evaluateInfixExpr "<=" (Some (Int 1)) (Some (Int 2)) = Ok (Some v).
Proof.
  split.
  - apply (proj1 (evaluateInfixExpr_panics_only_dividing_by_zero "/" (Int 1) (Int 0))).
    repeat split. exists 1%Z. reflexivity.
  - apply (proj2 (evaluateInfixExpr_panics_only_dividing_by_zero "<=" (Int 1) (Int 2))).
    discriminate.
Defined.

(** X8: a call never yields a value. Whenever the evaluation of a call
    returns, the result is nil or an error item (of the callee or of an
    argument); so an assignment of a call, which asks the value for its
    type, panics unless it returns that error item. *)
Theorem Evaluate_call_yields_no_value : forall Sprintf_verbs t f args env,
  (forall r env',
     Evaluate_Expr Sprintf_verbs (CallExpr t f args) env = Ok (r, env') ->
     r = None \/ exists m, r = Some (Error m))
  /\ (forall tv i r env',
     Evaluate_Stmt Sprintf_verbs (VarStmt tv i (Some (CallExpr t f args))) env
     = Ok (r, env') ->
     exists m, r = Some (Error m))
  /\ (forall tv i env',
     Evaluate_Expr Sprintf_verbs (CallExpr t f args) env = Ok (None, env') ->
     Evaluate_Stmt Sprintf_verbs (VarStmt tv i (Some (CallExpr t f args))) env = Panic).
Proof.
  intros sv t f args env.
  assert (A : forall r env',
             Evaluate_Expr sv (CallExpr t f args) env = Ok (r, env') ->
             r = None \/ exists m, r = Some (Error m)).
  { intros r env' E. cbn [Evaluate_Expr] in E.
    destruct (Evaluate_nilable (Evaluate_Expr sv) f env) as [[fn env1]| |];
      cbn [res_bind] in E; try discriminate.
    destruct (Type_ fn) as [tf| |] eqn:Ef; cbn [res_bind] in E; try discriminate.
    destruct (String.eqb_spec tf ERR) as [->|_].
    { inversion E; subst. right. apply EvalFacts.Type_ERR, Ef. }
    destruct (evaluateExprs _ args env1) as [[vs env2]| |];
      cbn [res_bind] in E; try discriminate.
    destruct vs as [|a [|b vs]]; cbn [res_bind] in E;
      try (inversion E; subst; left; reflexivity).
    destruct (Type_ a) as [ta| |] eqn:Ea; cbn [res_bind] in E; try discriminate.
    destruct (String.eqb_spec ta ERR) as [->|_]; inversion E; subst;
      [right; apply EvalFacts.Type_ERR, Ea | left; reflexivity]. }
  split; [exact A|]. split.
  - intros tv i r env' E. cbn [Evaluate_Stmt] in E. unfold Evaluate_nilable in E.
    destruct (Evaluate_Expr sv (CallExpr t f args) env) as [[v env1]| |] eqn:Ec;
      cbn [res_bind] in E; try discriminate.
    destruct (A v env1 eq_refl) as [->|[m ->]]; [discriminate E|].
    cbn in E. inversion E; subst. eauto.
  - intros tv i env' E. cbn [Evaluate_Stmt]. unfold Evaluate_nilable.
    rewrite E. reflexivity.
Qed.

(** X8 at [x = print(1)]. *)
Lemma Evaluate_call_yields_no_value_witness :
  Evaluate_Stmt (fun s => s)
    (VarStmt zeroToken (mkIdentifier zeroToken "x")
       (Some (CallExpr zeroToken
                (Some (EIdentifier (mkIdentifier zeroToken "print")))
                [Some (IntLiteral zeroToken 1)]))) NewEnv
  = Panic.
Proof.
  apply (proj2 (proj2 (Evaluate_call_yields_no_value (fun s => s) zeroToken
                         (Some (EIdentifier (mkIdentifier zeroToken "print")))
                         [Some (IntLiteral zeroToken 1)] NewEnv))
           zeroToken (mkIdentifier zeroToken "x") NewEnv).
  reflexivity.
Defined.

(** X9: an assignment whose value is an item other than an error binds the
    name to it: the statement returns the item, the name then evaluates to
    it, and the other names are looked up as before the binding. An error
    item is returned and nothing is bound. *)
Theorem Evaluate_assignment_binds : forall Sprintf_verbs tv i e env v env1,
  Evaluate_Expr Sprintf_verbs e env = Ok (Some v, env1) ->
  if is_error v
  then Evaluate_Stmt Sprintf_verbs (VarStmt tv i (Some e)) env = Ok (Some v, env1)
  else
    exists env2,
      Evaluate_Stmt Sprintf_verbs (VarStmt tv i (Some e)) env = Ok (Some v, env2)
      /\ (forall j, IdVal j = IdVal i ->
          Evaluate_Expr Sprintf_verbs (EIdentifier j) env2 = Ok (Some v, env2))
      /\ (forall k, k <> IdVal i -> Get env2 k = Get env1 k).
Proof.
  intros sv tv i e env v env1 E.
  cbn [Evaluate_Stmt]. unfold Evaluate_nilable. rewrite E. cbn [res_bind].
  destruct (Type_ (Some v)) as [t| |] eqn:Et; [|destruct v; discriminate..].
  cbn [res_bind]. rewrite (EvalFacts.Type_is_error v t Et).
  destruct (is_error v); [reflexivity|].
  cbn [Store]. eexists. split; [reflexivity|]. split.
  - intros j Hj. cbn [Evaluate_Expr]. unfold evaluateIdent. cbn [Get].
    rewrite Hj, String.eqb_refl. reflexivity.
  - intros k Hk. cbn [Get]. destruct (String.eqb_spec (IdVal i) k); congruence.
Qed.

(** X9 at [x = 2 + 3]. *)
Lemma Evaluate_assignment_binds_witness :
  exists env2,
    Evaluate_Stmt (fun s => s)
      (VarStmt zeroToken (mkIdentifier zeroToken "x")
         (Some (InfixExpr zeroToken (Some (IntLiteral zeroToken 2)) "+"
                  (Some (IntLiteral zeroToken 3))))) NewEnv
    = Ok (Some (Int 5), env2)
    /\ (forall j, IdVal j = "x" ->
        Evaluate_Expr (fun s => s) (EIdentifier j) env2 = Ok (Some (Int 5), env2))
    /\ (forall k, k <> "x" -> Get env2 k = Get NewEnv k).
Proof.
  apply (Evaluate_assignment_binds (fun s => s) zeroToken (mkIdentifier zeroToken "x")
           (InfixExpr zeroToken (Some (IntLiteral zeroToken 2)) "+"
              (Some (IntLiteral zeroToken 3))) NewEnv (Int 5) NewEnv).
  reflexivity.
Defined.

(** X10: statements are evaluated in a row, through errors: a program made
    of two parts, the second not empty, is evaluated as the first part
    followed by the second part in the environment the first one leaves;
    the result is that of the second part, whatever the first part
    returned. *)
Theorem Evaluate_Program_in_two_parts : forall Sprintf_verbs a b env,
  b <> [] ->
  Evaluate_Program Sprintf_verbs (a ++ b) env
  = let? (_, env1) := Evaluate_Program Sprintf_verbs a env in
    Evaluate_Program Sprintf_verbs b env1.
Proof.
  intros sv a b env Hb. unfold Evaluate_Program, evaluateStmts.
  rewrite EvalFacts.evaluateStmts_loop_app.
  destruct (evaluateStmts_loop (Evaluate_Stmt sv) a None env) as [[r1 env1]| |];
    cbn [res_bind]; [|reflexivity..].
  apply EvalFacts.evaluateStmts_loop_result. exact Hb.
Qed.

(** X10 at a program whose first statement is an unbound name. *)
Lemma Evaluate_Program_in_two_parts_witness :
  Evaluate_Program (fun s => s)
    ([ExprStmt zeroToken (Some (EIdentifier (mkIdentifier zeroToken "y")))]
     ++ [ExprStmt zeroToken (Some (IntLiteral zeroToken 1))]) NewEnv
  = let? (_, env1) :=
      Evaluate_Program (fun s => s)
        [ExprStmt zeroToken (Some (EIdentifier (mkIdentifier zeroToken "y")))] NewEnv in
    Evaluate_Program (fun s => s) [ExprStmt zeroToken (Some (IntLiteral zeroToken 1))] env1.
Proof.
  apply (Evaluate_Program_in_two_parts (fun s => s)
           [ExprStmt zeroToken (Some (EIdentifier (mkIdentifier zeroToken "y")))]
           [ExprStmt zeroToken (Some (IntLiteral zeroToken 1))] NewEnv).
  discriminate.
Defined.

(** X11: evaluation never unbinds a name. Whenever the evaluation of an
    expression, a statement, a block or a program returns, every name bound
    in the environment before is bound in the environment after it. *)
Theorem Evaluate_keeps_names : forall Sprintf_verbs env r env',
  (forall e, Evaluate_Expr Sprintf_verbs e env = Ok (r, env') -> keeps_names env env')
  /\ (forall s, Evaluate_Stmt Sprintf_verbs s env = Ok (r, env') -> keeps_names env env')
  /\ (forall b, Evaluate_BlockStmt Sprintf_verbs b env = Ok (r, env') -> keeps_names env env')
  /\ (forall p, Evaluate_Program Sprintf_verbs p env = Ok (r, env') -> keeps_names env env').
Proof.
  intros sv env r env'.
  destruct (EvalFacts.extends_Evaluate sv) as (He & Hs & Hb).
  repeat split; intros x E; apply EvalFacts.extends_keeps_names.
  - exact (He x env r env' E).
  - exact (Hs x env r env' E).
  - exact (Hb x env r env' E).
  - exact (EvalFacts.extends_evaluateStmts sv x None env r env' E).
Qed.

(** X11 at a conditional that assigns in its block. *)
Lemma Evaluate_keeps_names_witness :
  keeps_names [("x", Some (Int 1))]
    [("y", Some (Int 2)); ("x", Some (Int 1))].
Proof.
  refine (proj1 (Evaluate_keeps_names (fun s => s) [("x", Some (Int 1))]
                   (Some (Int 2)) [("y", Some (Int 2)); ("x", Some (Int 1))])
            (IfExpr zeroToken
               (Some (InfixExpr zeroToken (Some (IntLiteral zeroToken 1)) "=="
                        (Some (IntLiteral zeroToken 1))))
               (mkBlockStmt zeroToken
                  [VarStmt zeroToken (mkIdentifier zeroToken "y")
                     (Some (IntLiteral zeroToken 2))])
               None) _).
  reflexivity.
Defined.

(** X12: a conditional on a comparison of two arithmetic expressions
    evaluates its block when the comparison holds between the 64-bit values
    of the two sides; when it does not hold, the alternative is evaluated if
    there is one, and the result is nil otherwise. The environment is the
    one the conditional was given. *)
Theorem Evaluate_conditional_on_comparison :
  forall Sprintf_verbs t tc a op b x y cmp pass fail env,
  arith a = Some x -> arith b = Some y -> comparison op = Some cmp ->
  Evaluate_Expr Sprintf_verbs
    (IfExpr t (Some (InfixExpr tc (Some a) op (Some b))) pass fail) env
  = if cmp (wrap64 x) (wrap64 y)
    then Evaluate_BlockStmt Sprintf_verbs pass env
    else match fail with
         | Some f => Evaluate_BlockStmt Sprintf_verbs f env
         | None => Ok (None, env)
         end.
Proof.
  intros sv t tc a op b x y cmp pass fail env Ha Hb Hc.
  cbn [Evaluate_Expr]. unfold evaluateIfExpr, Evaluate_nilable.
  cbn [Evaluate_Expr]. unfold Evaluate_nilable.
  rewrite (EvalFacts.Evaluate_arith sv a x env Ha). cbn [res_bind Type_].
  change (INT =? ERR) with false. cbv iota.
  rewrite (EvalFacts.Evaluate_arith sv b y env Hb). cbn [res_bind Type_].
  change (INT =? ERR) with false. cbv iota.
  unfold evaluateInfixExpr. cbn [res_bind Type_]. change (INT =? INT) with true.
  cbn [andb]. unfold evaluateIntInfixExpr. unfold comparison in Hc.
  destruct (String.eqb_spec op "<") as [->|N1].
  { inversion Hc; subst cmp. cbn. destruct (wrap64 x <? wrap64 y)%Z; reflexivity. }
  destruct (String.eqb_spec op ">") as [->|N2].
  { inversion Hc; subst cmp. cbn. destruct (wrap64 x >? wrap64 y)%Z; reflexivity. }
  destruct (String.eqb_spec op "==") as [->|N3].
  { inversion Hc; subst cmp. cbn. destruct (wrap64 x =? wrap64 y)%Z; reflexivity. }
  destruct (String.eqb_spec op "!=") as [->|N4]; [|discriminate].
  inversion Hc; subst cmp. cbn. destruct (wrap64 x =? wrap64 y)%Z; reflexivity.
Qed.

(** X12 at [if 1 + 1 == 2] with a block that assigns. *)
Lemma Evaluate_conditional_on_comparison_witness :
  Evaluate_Expr (fun s => s)
    (IfExpr zeroToken
       (Some (InfixExpr zeroToken
                (Some (InfixExpr zeroToken (Some (IntLiteral zeroToken 1)) "+"
                         (Some (IntLiteral zeroToken 1))))
                "==" (Some (IntLiteral zeroToken 2))))
       (mkBlockStmt zeroToken
          [VarStmt zeroToken (mkIdentifier zeroToken "y") (Some (IntLiteral zeroToken 2))])
       None) NewEnv
  = Ok (Some (Int 2), [("y", Some (Int 2))]).
Proof.
  refine (eq_trans
            (Evaluate_conditional_on_comparison (fun s => s) zeroToken zeroToken
               (InfixExpr zeroToken (Some (IntLiteral zeroToken 1)) "+"
                  (Some (IntLiteral zeroToken 1)))
               "==" (IntLiteral zeroToken 2) 2 2 Z.eqb
               (mkBlockStmt zeroToken
                  [VarStmt zeroToken (mkIdentifier zeroToken "y")
                     (Some (IntLiteral zeroToken 2))])
               None NewEnv _ _ _) _); reflexivity.
Defined.

(** X13: a line that is a canonical decimal numeral below 2^63 goes through
    the loop of the REPL without a panic: the program is echoed to the
    writer as the numeral, the numeral and a newline are printed, and the
    environment is unchanged. *)
Theorem Run_line_echoes_numeral : forall fmt_q Sprintf_verbs s environment,
  all_digits s = true -> canonical s = true -> (value s < 2 ^ 63)%Z ->
  Run_line fmt_q Sprintf_verbs s environment
  = Ok (mkOutput s (s ++ String chr_nl ""), environment).
Proof.
  intros fmt_q sv s env Hd Hc Hv. unfold Run_line, parser.StartParseRepl.
  rewrite (LitFacts.ReplaceAll_digits s Hd).
  rewrite (LitFacts.StartLex_digits s Hd) by (intros ->; discriminate Hc).
  destruct (LitFacts.parse_num_token fmt_q s (value s)
              (LitFacts.ParseInt0_decimal s Hd Hc Hv)) as (p & Hp & Hs & He).
  cbn [res_bind List.length Nat.eqb]. rewrite Hp. cbn [res_bind].
  rewrite He, Hs. cbn [List.length Nat.eqb negb].
  cbn [Program_String Stmt_String Expr_String res_bind].
  rewrite (LitFacts.Itoa_decimal s Hd Hc Hv).
  cbn. rewrite (LitFacts.Itoa_decimal s Hd Hc Hv).
  rewrite LitFacts.append_nil_r. reflexivity.
Qed.

(** X13 at the largest 64-bit integer. *)
Lemma Run_line_echoes_numeral_witness :
  Run_line quote_plain (fun s => s) "9223372036854775807" NewEnv
  = Ok (mkOutput "9223372036854775807"
          ("9223372036854775807" ++ String chr_nl ""), NewEnv).
Proof.
  apply (Run_line_echoes_numeral quote_plain (fun s => s) "9223372036854775807" NewEnv);
    reflexivity.
Defined.

End Evaluation.

(** ** Trees and names *)

Section Trees.
Import golib lexer ast parser interpreter evaluator LexSpec LitSpec AstSpec TreeSpec WordSpec.

(** X14: [String] returns on a program exactly when the program is
    complete (every operand, condition, callee and argument is there and no
    statement is a nil pointer) and panics on every other program; the
    same holds of an expression. *)
Theorem String_returns_exactly_on_complete_trees :
  (forall p : Program,
     ((exists s, Program_String p = Ok s) <-> forallb complete_stmt p = true)
     /\ (Program_String p = Panic <-> forallb complete_stmt p = false))
  /\ (forall e : Expr,
     ((exists s, Expr_String e = Ok s) <-> complete e = true)
     /\ (Expr_String e = Panic <-> complete e = false)).
Proof.
  assert (A : forall (r : Res string) c, prints r c ->
              ((exists s, r = Ok s) <-> c = true) /\ (r = Panic <-> c = false)).
  { intros [s| |] c H; cbn in H; subst; try contradiction; repeat split;
      try discriminate; eauto; intros [s' E]; discriminate E. }
  split; intros x; apply A; [apply StringFacts.prints_Program|apply StringFacts.prints_String].
Qed.

(** X14 at [1 +] with the right operand missing. *)
Lemma String_returns_exactly_on_complete_trees_witness :
  Expr_String (InfixExpr zeroToken (Some (IntLiteral zeroToken 1)) "+" None) = Panic.
Proof.
  apply (proj2 (proj2 String_returns_exactly_on_complete_trees
                  (InfixExpr zeroToken (Some (IntLiteral zeroToken 1)) "+" None))).
  reflexivity.
Defined.

(** X15: no statement the parser records is a nil [*VarStmt], at the top of
    the program or inside the block of a conditional or a loop:
    [parseVarStmt] is called with the assignment sign ahead only, so the
    test after which it returns nil cannot fail. *)
Theorem StartParseRepl_records_no_nil_statement : forall fmt_q input p,
  StartParseRepl fmt_q input = Ok p ->
  forallb proper_stmt (statements p) = true.
Proof.
  intros fmt_q input p. unfold StartParseRepl.
  destruct (StartLex (ReplaceAll_4sp_tab input)) as [toks| |]; cbn [res_bind];
    try discriminate.
  destruct (List.length toks =? 0)%nat; [discriminate|].
  destruct (parse fmt_q _) as [[stmts p1]| |] eqn:E; cbn [res_bind]; try discriminate.
  intros H. inversion H; subst p1.
  apply TreeFacts.parse_proper in E; [|reflexivity].
  destruct E as [E1 E2]. rewrite <- E2. exact E1.
Qed.

(** X15 at a conditional with an assignment in its block. *)
Lemma StartParseRepl_records_no_nil_statement_witness :
  exists p,
    StartParseRepl quote_plain ("if x:" ++ nl ++ tab ++ "y = 2" ++ nl)%string = Ok p
    /\ forallb proper_stmt (statements p) = true.
Proof.
  eexists. split; [vm_compute; reflexivity|].
  refine (StartParseRepl_records_no_nil_statement quote_plain
            ("if x:" ++ nl ++ tab ++ "y = 2" ++ nl)%string _ _).
  vm_compute. reflexivity.
Defined.

(** X16: the text of an identifier is part of the format of its error
    message. For a word (ASCII letters, digits, underscores) the format
    holds no verb: a word that is neither bound nor the name of a builtin
    evaluates to the error item that says so, with the word as it is. *)
Theorem evaluateIdent_unbound_word : forall Sprintf_verbs i env,
  word (IdVal i) = true ->
  snd (Get env (IdVal i)) = false ->
  IdVal i <> "print" ->
  evaluateIdent Sprintf_verbs i env
  = Some (Error ("identifier not found: " ++ IdVal i)).
Proof.
  intros sv i env Hw Hg Hp. unfold evaluateIdent.
  destruct (Get env (IdVal i)) as [val ok]. cbn [snd] in Hg. subst ok.
  cbn [builtins builtins_get].
  destruct (String.eqb_spec "print" (IdVal i)) as [E|_]; [congruence|].
  unfold newErr, Sprintf0.
  replace (has_percent ("identifier not found: " ++ IdVal i)) with (has_percent (IdVal i))
    by reflexivity.
  rewrite NameFacts.has_percent_word_bytes; [reflexivity|].
  apply NameFacts.word_all_word_bytes, Hw.
Qed.

(** X16 at the name [total_2] in the empty environment. *)
Lemma evaluateIdent_unbound_word_witness :
  evaluateIdent (fun s => s) (mkIdentifier zeroToken "total_2") NewEnv
  = Some (Error "identifier not found: total_2").
Proof.
  apply (evaluateIdent_unbound_word (fun s => s) (mkIdentifier zeroToken "total_2") NewEnv);
    [reflexivity|reflexivity|discriminate].
Defined.

End Trees.
